(** * Debug-symbol synthesis of the Pony compiler (libponyc/debug/symbols.cc)

    A shallow embedding of the symbol registry, the frame stack and the
    calls that build DWARF metadata through LLVM's [DIBuilder], followed by
    the properties of the registry, of the forward-declare/resolve protocol,
    of the frame stack and of location tracking.

    Conventions of the embedding.
    - A [const char*] is its address ([N], [0] is [NULL]): the registry
      hashes and compares names by address ([hash_ptr], [a->name == b->name]).
    - A [size_t] is an [N]; the casts [(int)] and [(unsigned)] are written
      out as 32-bit wrap-around.
    - Pool-allocated descriptors live in [s_pool]; a [debug_sym_t*] is an
      index into it.
    - The frame stack, a list linked through [prev], is a Rocq list whose
      head is [symbols->frame]; the empty list is [NULL].
    - [assert] is taken as enabled (no [NDEBUG]).
    - Every function is a computation in a state-and-fault monad: a null or
      invalid dereference and a failed assertion end the run.
    - LLVM is outside the repository: the graph held by the [DIBuilder] is
      a list of nodes that refer to each other by index, a [DebugLoc] is the
      triple it was built from, and the module flags set by [symbols_init]
      are left out. [symbols_finalise] hands the graph to the module and
      frees the registry; no call is valid after it and it is not part of
      the embedding.

    The diagnostics of libponyc/ast/error.c are embedded in the module
    [error], which states its own conventions; their properties follow
    those of symbols.cc. *)

From Stdlib Require Import ZArith NArith Lia.
From stdpp Require Import base option numbers list gmap.
From Stdlib Require Import Strings.Byte.

Local Open Scope N_scope.

(** ** Machine data *)

Abbreviation cstr := N (only parsing).
Abbreviation ptr := nat (only parsing).

Definition cast_unsigned (n : N) : N := n mod 2 ^ 32.

Definition cast_int (n : N) : Z :=
  let u := Z.of_N (n mod 2 ^ 32) in
  if (u <? 2 ^ 31)%Z then u else (u - 2 ^ 32)%Z.

(** Build configuration: the LLVM version the file is compiled against
    ([PONY_LLVM], 307 for LLVM 3.7) and the [DWARF_*] flag bits, which
    symbols.cc takes from the headers it includes. *)
Class dwarf_env := {
  PONY_LLVM : N;
  DWARF_FLOAT : N;
  DWARF_SIGNED : N;
  DWARF_BOOLEAN : N;
  DWARF_TUPLE : N;
  DWARF_PRIVATE : N;
  DWARF_CONSTANT : N;
  DWARF_ARTIFICIAL : N
}.

(** ** The metadata graph *)

(** A [DIType*], [DIScope*] or [Metadata*] held by the C++ code: a field
    that was never assigned, [NULL], or a node of the graph. A value that
    was never assigned is passed on as it is when the code reads it and
    hands it to the builder. *)
Inductive mdptr :=
  | Indeterminate
  | MDNull
  | MDNode (id : nat).

Global Instance mdptr_eq_dec : EqDecision mdptr.
Proof. solve_decision. Defined.

Inductive dw_ate := DW_ATE_unsigned | DW_ATE_signed | DW_ATE_float | DW_ATE_boolean.

Inductive dw_tag :=
  | DW_TAG_class_type
  | DW_TAG_structure_type
  | DW_TAG_const_type
  | DW_TAG_auto_variable
  | DW_TAG_arg_variable.

Inductive dw_access := DW_ACCESS_public | DW_ACCESS_private.

(** The nodes the file asks the builder for, one constructor per [DIBuilder]
    call, with the arguments that vary between the calls made here. *)
Inductive mdnode :=
  | DIFile (fullpath : cstr)
  | DICompileUnit (name path : cstr) (optimised : bool)
  | DIBasicType (name : cstr) (size align : N) (encoding : dw_ate)
  | DIQualifiedType (tag : dw_tag) (base : mdptr)
  | DIPointerType (pointee : mdptr) (size align : N)
  | DIClassType (scope : mdptr) (name : cstr) (file : mdptr) (line : Z)
      (size align offset : N) (elements : mdptr)
  | DIStructType (scope : mdptr) (name : cstr) (file : mdptr) (line : Z)
      (size align : N) (elements : mdptr)
  | DIReplaceableComposite (tag : dw_tag) (name : cstr) (scope file : mdptr)
      (line : Z)
  | DIMemberType (scope : mdptr) (name : cstr) (file : mdptr) (line : Z)
      (size align offset : N) (visibility : dw_access) (ty : mdptr)
  | MDTuple (operands : list mdptr)
  | DISubroutineType (file types : mdptr)
  | DIMethod (scope : mdptr) (name mangled : cstr) (file : mdptr) (line : Z)
      (type : mdptr) (optimised : bool) (fn : option N)
  | DILexicalBlock (parent file : mdptr) (line col : N)
  | DIArtificialType (ty : mdptr)
  | DILocalVariable (tag : dw_tag) (scope : mdptr) (name : cstr) (file : mdptr)
      (line : N) (ty : mdptr) (arg : N)
  | DIExpression.

(** The operands of a node: the other nodes it refers to. *)
Definition operands (n : mdnode) : list mdptr :=
  match n with
  | DIFile _ | DICompileUnit _ _ _ | DIBasicType _ _ _ _ | DIExpression => []
  | DIQualifiedType _ base => [base]
  | DIPointerType pointee _ _ => [pointee]
  | DIClassType scope _ file _ _ _ _ elements => [scope; file; elements]
  | DIStructType scope _ file _ _ _ elements => [scope; file; elements]
  | DIReplaceableComposite _ _ scope file _ => [scope; file]
  | DIMemberType scope _ file _ _ _ _ _ ty => [scope; file; ty]
  | MDTuple ops => ops
  | DISubroutineType file types => [file; types]
  | DIMethod scope _ _ file _ type _ _ => [scope; file; type]
  | DILexicalBlock parent file _ _ => [parent; file]
  | DIArtificialType ty => [ty]
  | DILocalVariable _ scope _ file _ ty _ => [scope; file; ty]
  end.

(** The same node with [f] applied to every operand. *)
Definition map_operands (f : mdptr → mdptr) (n : mdnode) : mdnode :=
  match n with
  | DIFile _ | DICompileUnit _ _ _ | DIBasicType _ _ _ _ | DIExpression => n
  | DIQualifiedType tag base => DIQualifiedType tag (f base)
  | DIPointerType pointee size align => DIPointerType (f pointee) size align
  | DIClassType scope name file line size align offset elements =>
      DIClassType (f scope) name (f file) line size align offset (f elements)
  | DIStructType scope name file line size align elements =>
      DIStructType (f scope) name (f file) line size align (f elements)
  | DIReplaceableComposite tag name scope file line =>
      DIReplaceableComposite tag name (f scope) (f file) line
  | DIMemberType scope name file line size align offset visibility ty =>
      DIMemberType (f scope) name (f file) line size align offset visibility (f ty)
  | MDTuple ops => MDTuple (f <$> ops)
  | DISubroutineType file types => DISubroutineType (f file) (f types)
  | DIMethod scope name mangled file line type optimised fn =>
      DIMethod (f scope) name mangled (f file) line (f type) optimised fn
  | DILexicalBlock parent file line col => DILexicalBlock (f parent) (f file) line col
  | DIArtificialType ty => DIArtificialType (f ty)
  | DILocalVariable tag scope name file line ty arg =>
      DILocalVariable tag (f scope) name (f file) line (f ty) arg
  end.

(** [DebugLoc::get(line, col, scope)], kept as the triple it is built from.
    A zeroed [DebugLoc] is [DebugLoc_get 0 0 MDNull]. *)
Record DebugLoc := DebugLoc_get {
  dl_line : N;
  dl_col : N;
  dl_scope : mdptr
}.

(** An LLVM value handed in by the code generator, as far as
    [dyn_cast_or_null] tells its kinds apart. *)
Inductive LLVMValueRef :=
  | LLVMNull
  | LLVMFunction (id : N)
  | LLVMInstruction (id : N)
  | LLVMOtherValue (id : N).

Definition dyn_cast_Function (v : LLVMValueRef) : option N :=
  match v with LLVMFunction id => Some id | _ => None end.

Definition dyn_cast_Instruction (v : LLVMValueRef) : option N :=
  match v with LLVMInstruction id => Some id | _ => None end.

(** Where [insertDeclare] puts the intrinsic. *)
Inductive anchor :=
  | InsertBefore (inst : option N)
  | InsertAtEnd (block : option N).

Record dbg_declare := {
  decl_storage : LLVMValueRef;
  decl_variable : mdptr;
  decl_expression : mdptr;
  decl_location : DebugLoc;
  decl_anchor : anchor
}.

(** ** The structures of symbols.cc *)

Record debug_sym_t := {
  sym_name : cstr;
  sym_type : mdptr;
  sym_qualified : mdptr;
  sym_actual : mdptr;
  sym_prelim : mdptr
}.

Record debug_frame_t := {
  frame_type_name : cstr;
  frame_size : N;
  frame_members : list mdptr;
  frame_scope : mdptr;
  frame_location : DebugLoc
}.

(** [symbols_t], together with the descriptors allocated from the pool
    ([s_pool]) and the debug declarations inserted into the module
    ([s_declares]). [s_builder] is the graph held by the [DIBuilder], a node's
    identity being its index; [s_ir] is the current debug location of the
    instruction builder. *)
Record symbols_t := {
  s_pool : list debug_sym_t;
  s_map : gmap N nat;
  s_builder : list mdnode;
  s_declares : list dbg_declare;
  s_ir : DebugLoc;
  s_unit : mdptr;
  s_release : bool;
  s_frame : list debug_frame_t
}.

(** The fields of [dwarf_meta_t] and [gentype_t] that symbols.cc reads (both
    structures are declared in the headers it includes). [meta_params] is
    the array behind [meta->params]. *)
Record dwarf_meta_t := {
  meta_file : cstr;
  meta_name : cstr;
  meta_mangled : cstr;
  meta_typearg : cstr;
  meta_params : list cstr;
  meta_line : N;
  meta_pos : N;
  meta_offset : N;
  meta_size : N;
  meta_align : N;
  meta_storage : LLVMValueRef;
  meta_entry : option N;
  meta_inst : LLVMValueRef;
  meta_flags : N
}.

Record gentype_t := {
  type_name : cstr;
  field_count : N
}.

(** Field updates. *)
Definition with_pool (v : list debug_sym_t) (s : symbols_t) : symbols_t :=
  {| s_pool := v; s_map := s_map s; s_builder := s_builder s;
     s_declares := s_declares s; s_ir := s_ir s; s_unit := s_unit s;
     s_release := s_release s; s_frame := s_frame s |}.
Definition with_map (v : gmap N nat) (s : symbols_t) : symbols_t :=
  {| s_pool := s_pool s; s_map := v; s_builder := s_builder s;
     s_declares := s_declares s; s_ir := s_ir s; s_unit := s_unit s;
     s_release := s_release s; s_frame := s_frame s |}.
Definition with_builder (v : list mdnode) (s : symbols_t) : symbols_t :=
  {| s_pool := s_pool s; s_map := s_map s; s_builder := v;
     s_declares := s_declares s; s_ir := s_ir s; s_unit := s_unit s;
     s_release := s_release s; s_frame := s_frame s |}.
Definition with_declares (v : list dbg_declare) (s : symbols_t) : symbols_t :=
  {| s_pool := s_pool s; s_map := s_map s; s_builder := s_builder s;
     s_declares := v; s_ir := s_ir s; s_unit := s_unit s;
     s_release := s_release s; s_frame := s_frame s |}.
Definition with_ir (v : DebugLoc) (s : symbols_t) : symbols_t :=
  {| s_pool := s_pool s; s_map := s_map s; s_builder := s_builder s;
     s_declares := s_declares s; s_ir := v; s_unit := s_unit s;
     s_release := s_release s; s_frame := s_frame s |}.
Definition with_unit (v : mdptr) (s : symbols_t) : symbols_t :=
  {| s_pool := s_pool s; s_map := s_map s; s_builder := s_builder s;
     s_declares := s_declares s; s_ir := s_ir s; s_unit := v;
     s_release := s_release s; s_frame := s_frame s |}.
Definition with_frame (v : list debug_frame_t) (s : symbols_t) : symbols_t :=
  {| s_pool := s_pool s; s_map := s_map s; s_builder := s_builder s;
     s_declares := s_declares s; s_ir := s_ir s; s_unit := s_unit s;
     s_release := s_release s; s_frame := v |}.

Definition set_type (v : mdptr) (d : debug_sym_t) : debug_sym_t :=
  {| sym_name := sym_name d; sym_type := v; sym_qualified := sym_qualified d;
     sym_actual := sym_actual d; sym_prelim := sym_prelim d |}.
Definition set_qualified (v : mdptr) (d : debug_sym_t) : debug_sym_t :=
  {| sym_name := sym_name d; sym_type := sym_type d; sym_qualified := v;
     sym_actual := sym_actual d; sym_prelim := sym_prelim d |}.
Definition set_actual (v : mdptr) (d : debug_sym_t) : debug_sym_t :=
  {| sym_name := sym_name d; sym_type := sym_type d;
     sym_qualified := sym_qualified d; sym_actual := v;
     sym_prelim := sym_prelim d |}.
Definition set_prelim (v : mdptr) (d : debug_sym_t) : debug_sym_t :=
  {| sym_name := sym_name d; sym_type := sym_type d;
     sym_qualified := sym_qualified d; sym_actual := sym_actual d;
     sym_prelim := v |}.

Definition set_type_name (v : cstr) (f : debug_frame_t) : debug_frame_t :=
  {| frame_type_name := v; frame_size := frame_size f;
     frame_members := frame_members f; frame_scope := frame_scope f;
     frame_location := frame_location f |}.
Definition set_size (v : N) (f : debug_frame_t) : debug_frame_t :=
  {| frame_type_name := frame_type_name f; frame_size := v;
     frame_members := frame_members f; frame_scope := frame_scope f;
     frame_location := frame_location f |}.
Definition set_members (v : list mdptr) (f : debug_frame_t) : debug_frame_t :=
  {| frame_type_name := frame_type_name f; frame_size := frame_size f;
     frame_members := v; frame_scope := frame_scope f;
     frame_location := frame_location f |}.
Definition set_scope (v : mdptr) (f : debug_frame_t) : debug_frame_t :=
  {| frame_type_name := frame_type_name f; frame_size := frame_size f;
     frame_members := frame_members f; frame_scope := v;
     frame_location := frame_location f |}.
Definition set_location (v : DebugLoc) (f : debug_frame_t) : debug_frame_t :=
  {| frame_type_name := frame_type_name f; frame_size := frame_size f;
     frame_members := frame_members f; frame_scope := frame_scope f;
     frame_location := v |}.

(** ** The monad of state and faults *)

Inductive fault :=
  | AssertionFailure   (* a failed [assert]: the process aborts *)
  | NullDereference    (* undefined behaviour: access through [NULL] *)
  | InvalidPointer     (* undefined behaviour: access through a bad pointer *)
  | OutOfBounds.       (* undefined behaviour: read past the end of an array *)

Inductive result (A : Type) :=
  | Ok (a : A)
  | Fault (f : fault).
Arguments Ok {A} a.
Arguments Fault {A} f.

Definition M (A : Type) : Type := symbols_t → result (A * symbols_t).

Global Instance M_ret : MRet M := λ A a s, Ok (a, s).
Global Instance M_bind : MBind M := λ A B k m s,
  match m s with
  | Ok (a, s') => k a s'
  | Fault f => Fault f
  end.

Definition gets {A} (f : symbols_t → A) : M A := λ s, Ok (f s, s).
Definition modify (f : symbols_t → symbols_t) : M unit := λ s, Ok (tt, f s).
Definition crash {A} (f : fault) : M A := λ _, Fault f.

(** ** Memory: the pool of descriptors *)

(** [POOL_ALLOC(debug_sym_t)] followed by the initialisation of the fresh
    block to [d]. *)
Definition POOL_ALLOC (d : debug_sym_t) : M ptr := λ s,
  Ok (length (s_pool s), with_pool (s_pool s ++ [d]) s).

(** [*p] *)
Definition load (p : ptr) : M debug_sym_t := λ s,
  match s_pool s !! p with
  | Some d => Ok (d, s)
  | None => Fault InvalidPointer
  end.

(** [*p = d] *)
Definition store (p : ptr) (d : debug_sym_t) : M unit := λ s,
  match s_pool s !! p with
  | Some _ => Ok (tt, with_pool (<[p := d]> (s_pool s)) s)
  | None => Fault InvalidPointer
  end.

(** [p->field] *)
Definition field {A} (f : debug_sym_t → A) (p : ptr) : M A :=
  d ← load p; mret (f d).

(** [p->field = v] *)
Definition assign (set : mdptr → debug_sym_t → debug_sym_t) (p : ptr)
    (v : mdptr) : M unit :=
  d ← load p; store p (set v d).

(** Modelled from the spec: the hash map of libponyrt/ds/hash.h, which
    [DEFINE_HASHMAP] instantiates as [symbolmap]; its implementation lives
    in the runtime library. The spec describes a name-keyed cache with at
    most one descriptor per name; with [symbol_hash] and [symbol_cmp] the
    key of an element is the address of its name, so the map is a finite map
    from names to descriptor pointers. *)
Definition symbolmap_get (name : cstr) : M (option ptr) :=
  gets (λ s, s_map s !! name).

Definition symbolmap_put (value : ptr) : M unit :=
  name ← field sym_name value;
  modify (λ s, with_map (<[name := value]> (s_map s)) s).

(** ** The builders *)

(** Modelled from the spec: LLVM's [DIBuilder], an external library. Each
    creation call answers with an opaque handle to a new node of the graph
    (no uniquing of equal nodes is modelled). *)
Definition emit (n : mdnode) : M mdptr := λ s,
  Ok (MDNode (length (s_builder s)), with_builder (s_builder s ++ [n]) s).

Definition createFile (fullpath : cstr) : M mdptr := emit (DIFile fullpath).
Definition createCompileUnit (name path : cstr) (optimised : bool) : M mdptr :=
  emit (DICompileUnit name path optimised).
Definition createBasicType (name : cstr) (size align : N) (tag : dw_ate) : M mdptr :=
  emit (DIBasicType name size align tag).
Definition createQualifiedType (tag : dw_tag) (base : mdptr) : M mdptr :=
  emit (DIQualifiedType tag base).
Definition createPointerType (pointee : mdptr) (size align : N) : M mdptr :=
  emit (DIPointerType pointee size align).
Definition createClassType (scope : mdptr) (name : cstr) (file : mdptr)
    (line : Z) (size align offset : N) (elements : mdptr) : M mdptr :=
  emit (DIClassType scope name file line size align offset elements).
Definition createStructType (scope : mdptr) (name : cstr) (file : mdptr)
    (line : Z) (size align : N) (elements : mdptr) : M mdptr :=
  emit (DIStructType scope name file line size align elements).
Definition createReplaceableCompositeType (tag : dw_tag) (name : cstr)
    (scope file : mdptr) (line : Z) : M mdptr :=
  emit (DIReplaceableComposite tag name scope file line).
Definition createMemberType (scope : mdptr) (name : cstr) (file : mdptr)
    (line : Z) (size align offset : N) (visibility : dw_access) (ty : mdptr)
    : M mdptr :=
  emit (DIMemberType scope name file line size align offset visibility ty).
Definition getOrCreateArray (elements : list mdptr) : M mdptr :=
  emit (MDTuple elements).
Definition getOrCreateTypeArray (elements : list mdptr) : M mdptr :=
  emit (MDTuple elements).
Definition createSubroutineType (file types : mdptr) : M mdptr :=
  emit (DISubroutineType file types).
Definition createMethod (scope : mdptr) (name mangled : cstr) (file : mdptr)
    (line : Z) (type : mdptr) (optimised : bool) (fn : option N) : M mdptr :=
  emit (DIMethod scope name mangled file line type optimised fn).
Definition createLexicalBlock (parent file : mdptr) (line col : N) : M mdptr :=
  emit (DILexicalBlock parent file line col).
Definition createArtificialType (ty : mdptr) : M mdptr :=
  emit (DIArtificialType ty).
Definition createLocalVariable (tag : dw_tag) (scope : mdptr) (name : cstr)
    (file : mdptr) (line : N) (ty : mdptr) (arg : N) : M mdptr :=
  emit (DILocalVariable tag scope name file line ty arg).
Definition createExpression : M mdptr := emit DIExpression.

Definition insertDeclare (storage : LLVMValueRef) (info complex : mdptr)
    (location : DebugLoc) (pos : anchor) : M unit :=
  modify (λ s, with_declares (s_declares s ++
    [{| decl_storage := storage; decl_variable := info;
        decl_expression := complex; decl_location := location;
        decl_anchor := pos |}]) s).

(** Modelled from the spec: [replaceAllUsesWith], which "replaces every
    existing use of the forward placeholder" with the final aggregate: every
    operand of every node of the graph that is the placeholder becomes the
    aggregate. The raw pointers kept in descriptors and frames are not
    operands and stay as they are. *)
Definition replace_use (old : nat) (new : mdptr) (r : mdptr) : mdptr :=
  if decide (r = MDNode old) then new else r.

Definition replaceAllUsesWith (this new : mdptr) : M unit :=
  match this with
  | MDNode old =>
      modify (λ s, with_builder (map_operands (replace_use old new) <$> s_builder s) s)
  | MDNull => crash NullDereference
  | Indeterminate => crash InvalidPointer
  end.

(** [symbols->ir->SetCurrentDebugLocation(loc)] *)
Definition SetCurrentDebugLocation (loc : DebugLoc) : M unit :=
  modify (with_ir loc).

(** ** The frame stack *)

(** [symbols->frame], dereferenced. *)
Definition top_frame : M debug_frame_t := λ s,
  match s_frame s with
  | frame :: _ => Ok (frame, s)
  | [] => Fault NullDereference
  end.

(** [*symbols->frame = frame] *)
Definition set_top_frame (frame : debug_frame_t) : M unit := λ s,
  match s_frame s with
  | _ :: prev => Ok (tt, with_frame (frame :: prev) s)
  | [] => Fault NullDereference
  end.

(** [symbols->frame->prev], dereferenced. *)
Definition prev_frame : M debug_frame_t := λ s,
  match s_frame s with
  | _ :: prev :: _ => Ok (prev, s)
  | _ => Fault NullDereference
  end.

(** A frame after [memset(frame, 0, sizeof(debug_frame_t))]. *)
Definition zero_frame : debug_frame_t :=
  {| frame_type_name := 0; frame_size := 0; frame_members := [];
     frame_scope := MDNull; frame_location := DebugLoc_get 0 0 MDNull |}.

Section symbols.
Context `{!dwarf_env}.

(** ** symbols.cc *)

(** The value of a descriptor field that [get_entry] leaves in a fresh
    descriptor: the empty [DIType()] before LLVM 3.7, nothing at all from
    3.7 on, where the pool block is handed out as it is. *)
Definition blank : mdptr :=
  if PONY_LLVM <? 307 then MDNull else Indeterminate.

Definition blank_sym (name : cstr) : debug_sym_t :=
  {| sym_name := name; sym_type := blank; sym_qualified := blank;
     sym_actual := blank; sym_prelim := blank |}.

Definition get_entry (name : cstr) : M ptr :=
  value ← symbolmap_get name;
  match value with
  | None =>
      value ← POOL_ALLOC (blank_sym name);
      symbolmap_put value;;
      mret value
  | Some value => mret value
  end.

(** [createFile(filename(fullpath), parent_path(fullpath))]: both arguments
    are cut from [fullpath], which is what the node keeps. *)
Definition get_file (fullpath : cstr) : M mdptr := createFile fullpath.

Definition symbols_init (ir : DebugLoc) (optimised : bool) : symbols_t :=
  {| s_pool := []; s_map := ∅; s_builder := []; s_declares := [];
     s_ir := ir; s_unit := MDNull; s_release := optimised; s_frame := [] |}.

Definition symbols_push_frame (g : option gentype_t) : M unit :=
  let frame := zero_frame in
  let frame :=
    match g with
    | Some g => set_size (field_count g) (set_type_name (type_name g) frame)
    | None => frame
    end in
  modify (λ s, with_frame (frame :: s_frame s) s).

Definition symbols_pop_frame : M unit := λ s,
  match s_frame s with
  | frame :: prev => Ok (tt, with_frame prev s)
  | [] => Fault NullDereference
  end.

Definition symbols_package (path name : cstr) : M unit :=
  release ← gets s_release;
  unit ← createCompileUnit name path release;
  modify (with_unit unit).

Definition symbols_basic (meta : dwarf_meta_t) : M unit :=
  d ← get_entry (meta_name meta);
  let tag :=
    if decide (meta_flags meta = DWARF_SIGNED) then DW_ATE_signed
    else if decide (meta_flags meta = DWARF_FLOAT) then DW_ATE_float
    else if decide (meta_flags meta = DWARF_BOOLEAN) then DW_ATE_boolean
    else DW_ATE_unsigned in
  type ← createBasicType (meta_name meta) (meta_size meta) (meta_align meta) tag;
  assign set_type d type;;
  type ← field sym_type d;
  assign set_actual d type;;
  type ← field sym_type d;
  qualified ← createQualifiedType DW_TAG_const_type type;
  assign set_qualified d qualified.

Definition symbols_pointer (meta : dwarf_meta_t) : M unit :=
  pointer ← get_entry (meta_name meta);
  typearg ← get_entry (meta_typearg meta);
  target ← field sym_type typearg;
  type ← createPointerType target (meta_size meta) (meta_align meta);
  assign set_type pointer type;;
  type ← field sym_type pointer;
  assign set_actual pointer type;;
  type ← field sym_type pointer;
  qualified ← createQualifiedType DW_TAG_const_type type;
  assign set_qualified pointer qualified.

Definition symbols_trait (meta : dwarf_meta_t) : M unit :=
  d ← get_entry (meta_name meta);
  file ← get_file (meta_file meta);
  unit ← gets s_unit;
  composite ← createClassType unit (meta_name meta) file
    (cast_int (meta_line meta)) (meta_size meta) (meta_align meta)
    (meta_offset meta) MDNull;
  type ← createPointerType composite (meta_size meta) (meta_align meta);
  assign set_type d type;;
  type ← field sym_type d;
  assign set_actual d type;;
  type ← field sym_type d;
  qualified ← createQualifiedType DW_TAG_const_type type;
  assign set_qualified d qualified.

Definition symbols_unspecified (name : cstr) : M unit :=
  d ← get_entry name;
  unit ← gets s_unit;
  type ← createClassType unit name MDNull 0 0 0 0 MDNull;
  type ← createPointerType type 0 0;
  assign set_type d type;;
  type ← field sym_type d;
  assign set_actual d type;;
  type ← field sym_type d;
  qualified ← createQualifiedType DW_TAG_const_type type;
  assign set_qualified d qualified.

Definition is_set (flags bit : N) : bool := negb (N.land flags bit =? 0).

Definition symbols_declare (meta : dwarf_meta_t) : M unit :=
  d ← get_entry (meta_name meta);
  file ← get_file (meta_file meta);
  let tag :=
    if is_set (meta_flags meta) DWARF_TUPLE then DW_TAG_structure_type
    else DW_TAG_class_type in
  let qualifier := DW_TAG_const_type in
  unit ← gets s_unit;
  prelim ← createReplaceableCompositeType tag (meta_name meta) unit file
    (cast_int (meta_line meta));
  assign set_prelim d prelim;;
  if is_set (meta_flags meta) DWARF_TUPLE then
    prelim ← field sym_prelim d;
    assign set_type d prelim;;
    type ← field sym_type d;
    qualified ← createQualifiedType qualifier type;
    assign set_qualified d qualified
  else
    prelim ← field sym_prelim d;
    type ← createPointerType prelim (meta_size meta) (meta_align meta);
    assign set_type d type;;
    type ← field sym_type d;
    qualified ← createQualifiedType qualifier type;
    assign set_qualified d qualified.

Definition symbols_field (meta : dwarf_meta_t) : M unit :=
  d ← get_entry (meta_typearg meta);
  let visibility :=
    if is_set (meta_flags meta) DWARF_PRIVATE then DW_ACCESS_private
    else DW_ACCESS_public in
  use_type ← field sym_type d;
  use_type ← (if is_set (meta_flags meta) DWARF_CONSTANT
              then field sym_qualified d else mret use_type);
  file ← get_file (meta_file meta);
  unit ← gets s_unit;
  member ← createMemberType unit (meta_name meta) file
    (cast_int (meta_line meta)) (meta_size meta) (meta_align meta)
    (meta_offset meta) visibility use_type;
  frame ← top_frame;
  set_top_frame (set_members (frame_members frame ++ [member]) frame).

(** [for(size_t i = 1; i < meta->size; i++)], with [n] iterations left. *)
Fixpoint symbols_method_params (array : list cstr) (n : nat) (i : nat)
    (params : list mdptr) : M (list mdptr) :=
  match n with
  | O => mret params
  | S n' =>
      match array !! i with
      | None => crash OutOfBounds
      | Some name =>
          current ← get_entry name;
          qualified ← field sym_qualified current;
          symbols_method_params array n' (S i) (params ++ [qualified])
      end
  end.

Definition symbols_method (meta : dwarf_meta_t) (ir : LLVMValueRef) : M unit :=
  match meta_params meta !! 0%nat with
  | None => crash OutOfBounds
  | Some name0 =>
      current ← get_entry name0;
      type ← field sym_type current;
      params ← symbols_method_params (meta_params meta)
        (N.to_nat (meta_size meta) - 1) 1 [type];
      file ← get_file (meta_file meta);
      types ← getOrCreateTypeArray params;
      type ← createSubroutineType file types;
      let f := dyn_cast_Function ir in
      frame ← top_frame;
      d ← get_entry (frame_type_name frame);
      actual ← field sym_actual d;
      release ← gets s_release;
      scope ← createMethod actual (meta_name meta) (meta_mangled meta) file
        (cast_int (meta_line meta)) type release f;
      frame ← top_frame;
      set_top_frame (set_scope scope frame)
  end.

Definition symbols_composite (meta : dwarf_meta_t) : M unit :=
  file ← get_file (meta_file meta);
  frame ← top_frame;
  fields ← getOrCreateArray (frame_members frame);
  d ← get_entry (meta_name meta);
  unit ← gets s_unit;
  (if is_set (meta_flags meta) DWARF_TUPLE then
     actual ← createStructType unit (meta_name meta) file
       (cast_int (meta_line meta)) (meta_size meta) (meta_align meta) fields;
     assign set_actual d actual;;
     actual ← field sym_actual d;
     assign set_type d actual
   else
     actual ← createClassType unit (meta_name meta) file
       (cast_int (meta_line meta)) (meta_size meta) (meta_align meta) 0 fields;
     assign set_actual d actual);;
  prelim ← field sym_prelim d;
  actual ← field sym_actual d;
  replaceAllUsesWith prelim actual.

(** The scope of a frame is null after [symbols_push_frame] and a node once
    set, so the assertion compares a null pointer or a node with [NULL]. *)
Definition symbols_lexicalscope (meta : dwarf_meta_t) : M unit :=
  prev ← prev_frame;
  let parent := frame_scope prev in
  file ← get_file (meta_file meta);
  match parent with
  | MDNull => crash AssertionFailure
  | _ =>
      scope ← createLexicalBlock parent file (cast_unsigned (meta_line meta))
        (cast_unsigned (meta_pos meta));
      frame ← top_frame;
      set_top_frame (set_scope scope frame)
  end.

Definition symbols_local (meta : dwarf_meta_t) (is_arg : bool) : M unit :=
  let tag := if is_arg then DW_TAG_arg_variable else DW_TAG_auto_variable in
  let index := if is_arg then cast_unsigned (meta_offset meta) else 0 in
  d ← get_entry (meta_mangled meta);
  type ← field sym_type d;
  file ← get_file (meta_file meta);
  type ← (if is_set (meta_flags meta) DWARF_CONSTANT
          then field sym_qualified d else mret type);
  type ← (if is_set (meta_flags meta) DWARF_ARTIFICIAL
          then createArtificialType type else mret type);
  frame ← top_frame;
  info ← createLocalVariable tag (frame_scope frame) (meta_name meta) file
    (cast_unsigned (meta_line meta)) type index;
  complex ← createExpression;
  let location := DebugLoc_get (cast_unsigned (meta_line meta))
    (cast_unsigned (meta_pos meta)) (frame_scope frame) in
  match meta_inst meta with
  | LLVMNull =>
      insertDeclare (meta_storage meta) info complex location
        (InsertAtEnd (meta_entry meta))
  | inst =>
      insertDeclare (meta_storage meta) info complex location
        (InsertBefore (dyn_cast_Instruction inst))
  end.

Definition symbols_location (line pos : N) : M unit :=
  frame ← top_frame;
  let loc := DebugLoc_get (cast_unsigned line) (cast_unsigned pos)
    (frame_scope frame) in
  set_top_frame (set_location loc frame);;
  SetCurrentDebugLocation loc.

Definition symbols_reset (disable : bool) : M unit :=
  frames ← gets s_frame;
  match frames with
  | frame :: _ =>
      if disable then
        set_top_frame (set_location (DebugLoc_get 0 0 MDNull) frame);;
        frame ← top_frame;
        SetCurrentDebugLocation (frame_location frame)
      else
        SetCurrentDebugLocation (frame_location frame)
  | [] => mret tt
  end.

End symbols.

(** ** The calls of the interface, as data *)

Inductive call :=
  | Push_frame (g : option gentype_t)
  | Pop_frame
  | Package (path name : cstr)
  | Basic (meta : dwarf_meta_t)
  | Pointer (meta : dwarf_meta_t)
  | Trait (meta : dwarf_meta_t)
  | Unspecified (name : cstr)
  | Forward (meta : dwarf_meta_t)
  | Field (meta : dwarf_meta_t)
  | Method (meta : dwarf_meta_t) (ir : LLVMValueRef)
  | Composite (meta : dwarf_meta_t)
  | Lexicalscope (meta : dwarf_meta_t)
  | Local (meta : dwarf_meta_t) (is_arg : bool)
  | Location (line pos : N)
  | Reset_location (disable : bool).

Section run.
Context `{!dwarf_env}.

Definition exec (c : call) : M unit :=
  match c with
  | Push_frame g => symbols_push_frame g
  | Pop_frame => symbols_pop_frame
  | Package path name => symbols_package path name
  | Basic meta => symbols_basic meta
  | Pointer meta => symbols_pointer meta
  | Trait meta => symbols_trait meta
  | Unspecified name => symbols_unspecified name
  | Forward meta => symbols_declare meta
  | Field meta => symbols_field meta
  | Method meta ir => symbols_method meta ir
  | Composite meta => symbols_composite meta
  | Lexicalscope meta => symbols_lexicalscope meta
  | Local meta is_arg => symbols_local meta is_arg
  | Location line pos => symbols_location line pos
  | Reset_location disable => symbols_reset disable
  end.

(** A sequence of calls, in the order the code generator issues them. *)
Fixpoint run (cs : list call) : M unit :=
  match cs with
  | [] => mret tt
  | c :: cs => exec c;; run cs
  end.

End run.

(** ** Observations *)

(** The descriptor registered under a name. *)
Definition entry (s : symbols_t) (name : cstr) : option debug_sym_t :=
  p ← s_map s !! name; s_pool s !! p.

(** The node behind a handle. *)
Definition node (s : symbols_t) (r : mdptr) : option mdnode :=
  match r with
  | MDNode i => s_builder s !! i
  | _ => None
  end.

(** The element array of an aggregate type. *)
Definition elements_of (n : mdnode) : option mdptr :=
  match n with
  | DIClassType _ _ _ _ _ _ _ elements => Some elements
  | DIStructType _ _ _ _ _ _ elements => Some elements
  | _ => None
  end.

(** The line and column of a location. *)
Definition position (loc : DebugLoc) : N * N := (dl_line loc, dl_col loc).

(** Every registered name points to a live descriptor that carries it. *)
Definition wf (s : symbols_t) : Prop :=
  ∀ name p, s_map s !! name = Some p →
    ∃ d, s_pool s !! p = Some d ∧ sym_name d = name.

(** The state after [get_entry name] and the pointer it returns. *)
Definition ptr_of (s : symbols_t) (name : cstr) : nat :=
  default (length (s_pool s)) (s_map s !! name).

Definition ensure `{!dwarf_env} (name : cstr) (s : symbols_t) : symbols_t :=
  match s_map s !! name with
  | Some _ => s
  | None =>
      with_map (<[name := length (s_pool s)]> (s_map s))
        (with_pool (s_pool s ++ [blank_sym name]) s)
  end.

(** [*p = d] and the creation of a node, as state transformers. *)
Definition poke (p : nat) (d : debug_sym_t) (s : symbols_t) : symbols_t :=
  with_pool (<[p := d]> (s_pool s)) s.

Definition push_node (n : mdnode) (s : symbols_t) : symbols_t :=
  with_builder (s_builder s ++ [n]) s.

(** The descriptor [get_entry name] points to: the registered one, or a
    fresh blank one. *)
Definition view `{!dwarf_env} (s : symbols_t) (name : cstr) : debug_sym_t :=
  default (blank_sym name) (entry s name).

(** Between [s] and [s'] the descriptor of [m] was left alone, or created
    blank. *)
Definition grows `{!dwarf_env} (s s' : symbols_t) (m : cstr) : Prop :=
  entry s' m = entry s m ∨ (entry s m = None ∧ entry s' m = Some (blank_sym m)).

(** [I] survives every successful run of [m]. *)
Definition pres (I : symbols_t → Prop) {A} (m : M A) : Prop :=
  ∀ s a s', I s → m s = Ok (a, s') → I s'.

(** An invariant of the registry alone: it does not look at the graph, the
    frames, the cursor or the unit. *)
Definition registry_only (I : symbols_t → Prop) : Prop :=
  ∀ s s', s_pool s' = s_pool s → s_map s' = s_map s → I s → I s'.


(** An invariant of the registry that [get_entry] and the assignments to
    the type fields of a descriptor maintain. *)
Definition registry_invariant `{!dwarf_env} (I : symbols_t → Prop) : Prop :=
  registry_only I ∧
  (∀ name s, I s → I (ensure name s)) ∧
  (∀ p d d0 s, I s → s_pool s !! p = Some d0 → sym_name d = sym_name d0 →
     I (poke p d s)).

(** The member a [symbols_field] call creates from state [s], the nodes a
    run of such calls adds to a graph of [len] nodes, and the handles the
    run appends to the member list of the top frame. *)
Definition member_of `{!dwarf_env} (s : symbols_t) (meta : dwarf_meta_t) (file : mdptr) : mdnode :=
  let d := view s (meta_typearg meta) in
  DIMemberType (s_unit s) (meta_name meta) file
    (cast_int (meta_line meta)) (meta_size meta) (meta_align meta)
    (meta_offset meta)
    (if is_set (meta_flags meta) DWARF_PRIVATE then DW_ACCESS_private
     else DW_ACCESS_public)
    (if is_set (meta_flags meta) DWARF_CONSTANT then sym_qualified d
     else sym_type d).

Fixpoint member_nodes `{!dwarf_env} (s : symbols_t) (len : nat) (metas : list dwarf_meta_t)
    : list mdnode :=
  match metas with
  | [] => []
  | meta :: metas =>
      DIFile (meta_file meta) :: member_of s meta (MDNode len)
        :: member_nodes s (len + 2) metas
  end.

Fixpoint member_ids (len : nat) (n : nat) : list mdptr :=
  match n with
  | O => []
  | S n => MDNode (len + 1) :: member_ids (len + 2) n
  end.

(** ** A configuration and a scenario to run the definitions on *)

(** Distinct one-bit flags and LLVM 3.7. *)
Definition pony_env : dwarf_env :=
  {| PONY_LLVM := 307; DWARF_FLOAT := 1; DWARF_SIGNED := 2; DWARF_BOOLEAN := 4;
     DWARF_TUPLE := 8; DWARF_PRIVATE := 16; DWARF_CONSTANT := 32;
     DWARF_ARTIFICIAL := 64 |}.

(** A descriptor request; names and paths are addresses of interned
    strings. *)
Definition mk_meta (name typearg : cstr) (params : list cstr) (size : N)
    (flags : N) : dwarf_meta_t :=
  {| meta_file := 4096; meta_name := name; meta_mangled := name;
     meta_typearg := typearg; meta_params := params; meta_line := 1;
     meta_pos := 1; meta_offset := 0; meta_size := size; meta_align := 64;
     meta_storage := LLVMNull; meta_entry := None; meta_inst := LLVMNull;
     meta_flags := flags |}.

Definition name_I32 : cstr := 8192.
Definition name_A : cstr := 8200.
Definition name_APtr : cstr := 8208.
Definition name_Pair : cstr := 8216.

(** A unit with a basic type and a class [A] whose method [apply] is being
    generated: the top frame has a method scope. *)
Definition in_method : list call :=
  [ Package 4096 4104;
    Basic (mk_meta name_I32 0 [] 32 2);
    Forward (mk_meta name_A 0 [] 64 0);
    Push_frame (Some {| type_name := name_A; field_count := 0 |});
    Composite (mk_meta name_A 0 [] 64 0);
    Method (mk_meta 8224 0 [name_I32; name_I32] 2 0) (LLVMFunction 1) ].

Definition initial : symbols_t :=
  @symbols_init (DebugLoc_get 0 0 MDNull) false.

(** The state in which the method of [in_method] is being generated. *)
Definition after_method : symbols_t :=
  match @run pony_env in_method initial with
  | Ok (_, s) => s
  | Fault _ => initial
  end.

(** The requests of the scenario of the spec: [A] forward, [APtr] pointing
    to it, one field of type [APtr], then the resolution of [A]. *)
Definition decl_A : dwarf_meta_t := mk_meta name_A 0 [] 64 0.
Definition decl_APtr : dwarf_meta_t := mk_meta name_APtr name_A [] 64 0.
Definition field_f : dwarf_meta_t := mk_meta 8232 name_APtr [] 64 0.
Definition frame_A : option gentype_t :=
  Some {| type_name := name_A; field_count := 1 |}.

(** A value type [Pair], forward declared with a frame open. *)
Definition decl_Pair : dwarf_meta_t := mk_meta name_Pair 0 [] 128 8.
Definition pair_declared : symbols_t :=
  match @run pony_env
          [Forward decl_Pair;
           Push_frame (Some {| type_name := name_Pair; field_count := 0 |})]
          initial with
  | Ok (_, s) => s
  | Fault _ => initial
  end.

(** A block opened after the method of [in_method] has reached line 7,
    column 3: the cursor is there, the new top frame remembers nothing. *)
Definition in_block_at_7_3 : symbols_t :=
  match @run pony_env (in_method ++ [Location 7 3; Push_frame None])
          initial with
  | Ok (_, s) => s
  | Fault _ => initial
  end.

(** A block opened inside the method of [in_method], and two frames pushed
    on the empty stack, the lower one without a scope. *)
Definition in_block : symbols_t :=
  match @run pony_env (in_method ++ [Push_frame None]) initial with
  | Ok (_, s) => s
  | Fault _ => initial
  end.

Definition no_scope : symbols_t :=
  match @run pony_env [Push_frame None; Push_frame None] initial with
  | Ok (_, s) => s
  | Fault _ => initial
  end.

Definition method_apply : dwarf_meta_t :=
  mk_meta 8240 0 [name_A; name_I32; name_APtr] 3 0.
Definition field_g : dwarf_meta_t := mk_meta 8248 name_I32 [] 32 32.

(** ** Classes of calls *)

(** The calls that dereference the top frame, and the name whose
    descriptor a call writes. *)
Definition needs_frame (c : call) : bool :=
  match c with
  | Pop_frame | Field _ | Method _ _ | Composite _ | Lexicalscope _
  | Local _ _ | Location _ _ => true
  | _ => false
  end.

Definition defines (c : call) : option cstr :=
  match c with
  | Basic meta | Pointer meta | Trait meta | Forward meta | Composite meta =>
      Some (meta_name meta)
  | Unspecified name => Some name
  | _ => None
  end.

(** The state after [get_entry] was called for each of [names] in turn. *)
Definition ensure_all `{!dwarf_env} (names : list cstr) (s : symbols_t)
    : symbols_t :=
  foldl (λ s name, ensure name s) s names.

(** The failure of a call on a state whose registry is well formed, if
    there is one: the top frame is read through a null pointer when the
    stack is empty; [symbols_method] reads [params[0]] and then
    [params[1 .. size-1]] before it looks at the frame; [symbols_composite]
    reads the frame first and calls a method of the placeholder last;
    [symbols_lexicalscope] reads the scope of the frame below the top one
    and asserts that it is not null. *)
Definition failure `{!dwarf_env} (c : call) (s : symbols_t) : option fault :=
  match c with
  | Pop_frame | Field _ | Local _ _ | Location _ _ =>
      match s_frame s with
      | [] => Some NullDereference
      | _ => None
      end
  | Method meta _ =>
      if decide (length (meta_params meta) < 1 `max` N.to_nat (meta_size meta))%nat
      then Some OutOfBounds
      else
        match s_frame s with
        | [] => Some NullDereference
        | _ => None
        end
  | Composite meta =>
      match s_frame s with
      | [] => Some NullDereference
      | _ =>
          match sym_prelim (view s (meta_name meta)) with
          | MDNode _ => None
          | MDNull => Some NullDereference
          | Indeterminate => Some InvalidPointer
          end
      end
  | Lexicalscope _ =>
      match s_frame s with
      | _ :: prev :: _ =>
          match frame_scope prev with
          | MDNull => Some AssertionFailure
          | _ => None
          end
      | _ => Some NullDereference
      end
  | _ => None
  end.

(** The number of pushes and of pops in a run of calls. *)
Fixpoint pushes (cs : list call) : nat :=
  match cs with
  | [] => 0
  | Push_frame _ :: cs => S (pushes cs)
  | _ :: cs => pushes cs
  end.

Fixpoint pops (cs : list call) : nat :=
  match cs with
  | [] => 0
  | Pop_frame :: cs => S (pops cs)
  | _ :: cs => pops cs
  end.

(** A run of calls inside a pushed frame that pops what it pushes and
    nothing more; [depth] is the number of frames the run has open. *)
Fixpoint balanced (depth : nat) (cs : list call) : bool :=
  match cs with
  | [] => bool_decide (depth = 0%nat)
  | Push_frame _ :: cs => balanced (S depth) cs
  | Pop_frame :: cs =>
      match depth with
      | O => false
      | S depth => balanced depth cs
      end
  | _ :: cs => balanced depth cs
  end.

(** * error.c *)

(** Conventions of the embedding of libponyc/ast/error.c.
    - Text is a list of bytes; a C string in memory is its bytes followed
      by the terminator, and a [const char*] that may be [NULL] is an
      [option].
    - The list of reported errors, linked through [next] between [head] and
      [tail], is a Rocq list in the order of the links; a message together
      with the messages linked to it through [frame] is the Rocq list of
      these messages, the empty list being [NULL].
    - An [errorframe_t] is a variable of the caller that holds such a list;
      [e_frames] maps the address of each variable to its value, and an
      [errorframe_t*] is [None] for [NULL] or the address of a variable.
    - [printf] appends to [e_stdout].
    - A [size_t] has 64 bits; [count++], [tline++] and [pos - 1] wrap. *)
Module error.

Definition nl : byte := x0a.
Definition tab : byte := x09.
Definition nul : byte := x00.
Definition space : byte := x20.

Definition LINE_LEN : nat := 1024.

Definition size_succ (n : N) : N := (n + 1) mod 2 ^ 64.
Definition size_pred (n : N) : N := (n + (2 ^ 64 - 1)) mod 2 ^ 64.

(** The string that starts at the beginning of a buffer: the bytes before
    the first terminator. *)
Fixpoint c_str (buf : list byte) : list byte :=
  match buf with
  | [] => []
  | c :: buf => if Byte.eqb c nul then [] else c :: c_str buf
  end.

(** The fields of [source_t] that error.c reads (the structure is declared
    in source.h): the name of the file, which is [NULL] for a source that
    was not read from a file, the buffer [m], given as the bytes that are
    allocated for it, and the length [len] of the text. *)
Record source_t := {
  src_file : option (list byte);
  src_m : list byte;
  src_len : N
}.

(** An [errormsg_t] (declared in error.h) without its links [frame] and
    [next], which are the lists the message is in. *)
Record errormsg_t := {
  e_file : option (list byte);
  e_line : N;
  e_pos : N;
  e_msg : list byte;
  e_source : option (list byte)
}.

(** The globals of error.c, the standard output and the frames of the
    callers. *)
Record errors_t := {
  e_errors : list (list errormsg_t);
  e_count : N;
  e_immediate : bool;
  e_stdout : list byte;
  e_frames : gmap N (list errormsg_t)
}.

Definition with_errors v (s : errors_t) : errors_t :=
  {| e_errors := v; e_count := e_count s; e_immediate := e_immediate s;
     e_stdout := e_stdout s; e_frames := e_frames s |}.
Definition with_count v (s : errors_t) : errors_t :=
  {| e_errors := e_errors s; e_count := v; e_immediate := e_immediate s;
     e_stdout := e_stdout s; e_frames := e_frames s |}.
Definition with_immediate v (s : errors_t) : errors_t :=
  {| e_errors := e_errors s; e_count := e_count s; e_immediate := v;
     e_stdout := e_stdout s; e_frames := e_frames s |}.
Definition with_stdout v (s : errors_t) : errors_t :=
  {| e_errors := e_errors s; e_count := e_count s;
     e_immediate := e_immediate s; e_stdout := v; e_frames := e_frames s |}.
Definition with_frames v (s : errors_t) : errors_t :=
  {| e_errors := e_errors s; e_count := e_count s;
     e_immediate := e_immediate s; e_stdout := e_stdout s; e_frames := v |}.

(** The state when the program starts: [head = NULL], [count = 0],
    [immediate_report = false]. *)
Definition start : errors_t :=
  {| e_errors := []; e_count := 0; e_immediate := false; e_stdout := [];
     e_frames := ∅ |}.

(** ** The monad of state and faults *)

Definition E (A : Type) : Type := errors_t → result (A * errors_t).

#[export] Instance E_ret : MRet E := λ A a s, Ok (a, s).
#[export] Instance E_bind : MBind E := λ A B k m s,
  match m s with
  | Ok (a, s') => k a s'
  | Fault f => Fault f
  end.

Definition gets {A} (f : errors_t → A) : E A := λ s, Ok (f s, s).
Definition modify (f : errors_t → errors_t) : E unit := λ s, Ok (tt, f s).
Definition crash {A} (f : fault) : E A := λ _, Fault f.
Definition lift {A} (r : result A) : E A := λ s,
  match r with
  | Ok a => Ok (a, s)
  | Fault f => Fault f
  end.

(** [printf], and [assert(frame != NULL)]. *)
Definition printf (text : list byte) : E unit :=
  modify (λ s, with_stdout (e_stdout s ++ text) s).

Definition assert_frame (frame : option N) : E N :=
  match frame with
  | Some a => mret a
  | None => crash AssertionFailure
  end.

(** [*frame] and [*frame = v]. *)
Definition load (a : N) : E (list errormsg_t) := λ s,
  match e_frames s !! a with
  | Some v => Ok (v, s)
  | None => Fault InvalidPointer
  end.

Definition store (a : N) (v : list errormsg_t) : E unit := λ s,
  match e_frames s !! a with
  | Some _ => Ok (tt, with_frames (<[a := v]> (e_frames s)) s)
  | None => Fault InvalidPointer
  end.

(** ** Text *)

Fixpoint digits (u : Decimal.uint) : list byte :=
  match u with
  | Decimal.Nil => []
  | Decimal.D0 u => x30 :: digits u
  | Decimal.D1 u => x31 :: digits u
  | Decimal.D2 u => x32 :: digits u
  | Decimal.D3 u => x33 :: digits u
  | Decimal.D4 u => x34 :: digits u
  | Decimal.D5 u => x35 :: digits u
  | Decimal.D6 u => x36 :: digits u
  | Decimal.D7 u => x37 :: digits u
  | Decimal.D8 u => x38 :: digits u
  | Decimal.D9 u => x39 :: digits u
  end.

(** The conversion [%zu]. *)
Definition zu (n : N) : list byte := digits (N.to_uint n).

(** [vsnprintf(buf, size, fmt, ap)] followed by [stringtab(buf)], where
    [text] is the expansion of [fmt] with its arguments: at most [size - 1]
    bytes of it are written before the terminator, and the string table
    answers with a string of the same bytes as the one in the buffer. *)
Definition vsnprintf (size : nat) (text : list byte) : list byte :=
  c_str (take (size - 1) text).

(** ** error.c *)

(** The loop [for(size_t i = 0; i < (e->pos - 1); i++)] of
    [print_errormsg], with [n] iterations left and [cells] the bytes of
    [e->source] from index [i] on, the terminator included: a read past
    the terminator leaves the string. *)
Fixpoint caret_pad (cells : list byte) (n : N) : result (list byte) :=
  match cells with
  | [] => if n =? 0 then Ok [] else Fault OutOfBounds
  | c :: cells =>
      if n =? 0 then Ok []
      else
        match caret_pad cells (n - 1) with
        | Ok pad => Ok ((if Byte.eqb c tab then tab else space) :: pad)
        | Fault f => Fault f
        end
  end.

Definition print_errormsg (e : errormsg_t) (indent : list byte) : E unit :=
  match e_file e with
  | Some file =>
      printf (indent ++ file ++ [":"]%byte);;
      if negb (e_line e =? 0)
      then printf (zu (e_line e) ++ [":"]%byte ++ zu (e_pos e) ++ [":"; " "]%byte)
      else printf ([" "]%byte)
  | None => mret tt
  end;;
  printf (e_msg e ++ [nl]);;
  match e_source e with
  | Some source =>
      printf (indent ++ source ++ [nl]);;
      printf indent;;
      pad ← lift (caret_pad (source ++ [nul]) (size_pred (e_pos e)));
      printf pad;;
      printf (["^"]%byte ++ [nl])
  | None => mret tt
  end.

(** [for(errormsg_t* p = e->frame; p != NULL; p = p->frame)] *)
Fixpoint print_frame (frame : list errormsg_t) : E unit :=
  match frame with
  | [] => mret tt
  | p :: frame => print_errormsg p ([" "; " "; " "; " "]%byte);; print_frame frame
  end.

Definition print_error (e : list errormsg_t) : E unit :=
  match e with
  | [] => crash NullDereference
  | e :: frame =>
      printf (["E"; "r"; "r"; "o"; "r"; ":"]%byte ++ [nl]);;
      print_errormsg e [];;
      match frame with
      | [] => mret tt
      | _ => printf ([" "; " "; " "; " "; "I"; "n"; "f"; "o"; ":"]%byte ++ [nl]);; print_frame frame
      end
  end.

Definition add_error (e : list errormsg_t) : E unit :=
  immediate ← gets e_immediate;
  (if immediate : bool then print_error e else mret tt);;
  match e with
  | [] => crash NullDereference
  | _ =>
      modify (λ s, with_errors (e_errors s ++ [e]) s);;
      modify (λ s, with_count (size_succ (e_count s)) s)
  end.

Definition append_to_frame (frame : option N) (e : list errormsg_t) : E unit :=
  a ← assert_frame frame;
  head ← load a;
  match head with
  | [] => store a e
  | _ => store a (head ++ e)
  end.

Definition get_errors : E (list (list errormsg_t)) := gets e_errors.

Definition get_error_count : E N := gets e_count.

Definition free_errors : E unit :=
  modify (with_errors []);;
  modify (with_count 0).

(** [while(e != NULL)] over the list of errors. *)
Fixpoint print_each (es : list (list errormsg_t)) : E unit :=
  match es with
  | [] => mret tt
  | e :: es => print_error e;; print_each es
  end.

Definition print_errors : E unit :=
  immediate ← gets e_immediate;
  if immediate : bool then mret tt
  else es ← gets e_errors; print_each es.

(** The first loop of [make_errorv],
    [while((tline < e->line) && (tpos < source->len))], with
    [n = source->len - tpos]; it answers with [tpos]. *)
Fixpoint seek_line (m : list byte) (line tline : N) (tpos n : nat)
    : result nat :=
  match n with
  | O => Ok tpos
  | S n =>
      if tline <? line then
        match m !! tpos with
        | Some c =>
            seek_line m line (if Byte.eqb c nl then size_succ tline else tline)
              (S tpos) n
        | None => Fault OutOfBounds
        end
      else Ok tpos
  end.

(** The second loop,
    [while((source->m[tpos] != '\n') && (tpos < source->len))]: the byte is
    read before [tpos] is compared with the length. *)
Fixpoint seek_eol (m : list byte) (tpos n : nat) : result nat :=
  match m !! tpos with
  | Some c =>
      if Byte.eqb c nl then Ok tpos
      else
        match n with
        | O => Ok tpos
        | S n => seek_eol m (S tpos) n
        end
  | None => Fault OutOfBounds
  end.

(** The text [make_errorv] keeps as [e->source]. *)
Definition source_line (source : source_t) (line : N) : result (list byte) :=
  let len := N.to_nat (src_len source) in
  match seek_line (src_m source) line 1 0 len with
  | Ok start =>
      match seek_eol (src_m source) start (len - start) with
      | Ok tpos =>
          let len := (tpos - start)%nat in
          let len := if decide (LINE_LEN ≤ len)%nat then (LINE_LEN - 1)%nat else len in
          Ok (c_str (take len (drop start (src_m source))))
      | Fault f => Fault f
      end
  | Fault f => Fault f
  end.

Definition make_errorv (source : option source_t) (line pos : N)
    (text : list byte) : result errormsg_t :=
  let msg := vsnprintf LINE_LEN text in
  let file :=
    match source with
    | Some source => src_file source
    | None => None
    end in
  match source with
  | Some source =>
      if negb (line =? 0) then
        match source_line source line with
        | Ok text =>
            Ok {| e_file := file; e_line := line; e_pos := pos; e_msg := msg;
                  e_source := Some text |}
        | Fault f => Fault f
        end
      else
        Ok {| e_file := file; e_line := line; e_pos := pos; e_msg := msg;
              e_source := None |}
  | None =>
      Ok {| e_file := file; e_line := line; e_pos := pos; e_msg := msg;
            e_source := None |}
  end.

Definition errorv (source : option source_t) (line pos : N)
    (text : list byte) : E unit :=
  e ← lift (make_errorv source line pos text);
  add_error [e].

Definition errorframev (frame : option N) (source : option source_t)
    (line pos : N) (text : list byte) : E unit :=
  assert_frame frame;;
  e ← lift (make_errorv source line pos text);
  append_to_frame frame [e].

(** [file] is the buffer at the address given for the file name, which
    [stringtab] reads as a string. *)
Definition make_errorfv (file : list byte) (text : list byte) : errormsg_t :=
  {| e_file := Some (c_str file); e_line := 0; e_pos := 0;
     e_msg := vsnprintf LINE_LEN text; e_source := None |}.

Definition errorfv (file : list byte) (text : list byte) : E unit :=
  add_error [make_errorfv file text].

Definition errorframefv (frame : option N) (file : list byte)
    (text : list byte) : E unit :=
  assert_frame frame;;
  append_to_frame frame [make_errorfv file text].

Definition errorframe_append (first second : option N) : E unit :=
  assert_frame first;;
  b ← assert_frame second;
  e ← load b;
  append_to_frame first e;;
  store b [].

Definition errorframe_has_errors (frame : option N) : E bool :=
  assert_frame frame;;
  mret (bool_decide (frame ≠ None)).

Definition errorframe_report (frame : option N) : E unit :=
  a ← assert_frame frame;
  e ← load a;
  match e with
  | [] => mret tt : E unit
  | _ => add_error e
  end;;
  store a [].

Definition errorframe_discard (frame : option N) : E unit :=
  a ← assert_frame frame;
  load a;;
  store a [].

Definition error_set_immediate (immediate : bool) : E unit :=
  modify (with_immediate immediate).

(** ** The calls of the interface, as data *)

(** Every function of error.h that writes the state: [Error] is [error] and
    [errorv], [Errorf] is [errorf] and [errorfv], and so on for the frame
    calls; [Set_immediate] is [error_set_immediate]. [get_errors] and
    [get_error_count] only read. [Frame a] is the declaration
    [errorframe_t frame = NULL] of a caller, for the variable at address
    [a]. *)
Inductive call :=
  | Error (source : option source_t) (line pos : N) (text : list byte)
  | Errorf (file : list byte) (text : list byte)
  | Frame (a : N)
  | Errorframe (frame : option N) (source : option source_t) (line pos : N)
      (text : list byte)
  | Errorframef (frame : option N) (file : list byte) (text : list byte)
  | Errorframe_append (first second : option N)
  | Errorframe_report (frame : option N)
  | Errorframe_discard (frame : option N)
  | Free_errors
  | Print_errors
  | Set_immediate (immediate : bool).

Definition exec (c : call) : E unit :=
  match c with
  | Error source line pos text => errorv source line pos text
  | Errorf file text => errorfv file text
  | Frame a => modify (λ s, with_frames (<[a := []]> (e_frames s)) s)
  | Errorframe frame source line pos text =>
      errorframev frame source line pos text
  | Errorframef frame file text => errorframefv frame file text
  | Errorframe_append first second => errorframe_append first second
  | Errorframe_report frame => errorframe_report frame
  | Errorframe_discard frame => errorframe_discard frame
  | Free_errors => free_errors
  | Print_errors => print_errors
  | Set_immediate immediate => error_set_immediate immediate
  end.

Fixpoint run (cs : list call) : E unit :=
  match cs with
  | [] => mret tt
  | c :: cs => exec c;; run cs
  end.

(** ** Observations *)

(** Line [k], counted from 0, of a text. *)
Fixpoint nth_line (k : nat) (text : list byte) : list byte :=
  match text with
  | [] => []
  | c :: text =>
      match k with
      | O => if Byte.eqb c nl then [] else c :: nth_line 0 text
      | S k' => if Byte.eqb c nl then nth_line k' text else nth_line k text
      end
  end.

(** The number of line ends in a text. *)
Fixpoint newlines (text : list byte) : nat :=
  match text with
  | [] => 0
  | c :: text => if Byte.eqb c nl then S (newlines text) else newlines text
  end.

(** What is left of a text after [j] line ends. *)
Fixpoint skip (j : nat) (text : list byte) : list byte :=
  match text with
  | [] => []
  | c :: text' =>
      match j with
      | O => text
      | S j' => if Byte.eqb c nl then skip j' text' else skip j text'
      end
  end.

(** [m] writes [out] and does nothing else. *)
Definition prints (m : E unit) (out : list byte) : Prop :=
  ∀ s, m s = Ok (tt, with_stdout (e_stdout s ++ out) s).

(** [m] writes to the standard output and does nothing else: it neither
    reads nor writes the rest of the state. *)
Definition writer {A} (m : E A) : Prop :=
  ∀ s, m s =
    match m start with
    | Ok (a, s0) => Ok (a, with_stdout (e_stdout s ++ e_stdout s0) s)
    | Fault f => Fault f
    end.

(** What [print_error] writes for an error and what [print_errors] writes
    for a list of errors, when they return. *)
Definition render (e : list errormsg_t) : result (list byte) :=
  match print_error e start with
  | Ok (_, s) => Ok (e_stdout s)
  | Fault f => Fault f
  end.

Definition render_all (es : list (list errormsg_t)) : result (list byte) :=
  match print_each es start with
  | Ok (_, s) => Ok (e_stdout s)
  | Fault f => Fault f
  end.

(** The state after a call that added the errors [new], wrote [out] and
    left the frames as [frames]. *)
Definition after (new : list (list errormsg_t)) (out : list byte)
    (frames : gmap N (list errormsg_t)) (s : errors_t) : errors_t :=
  {| e_errors := e_errors s ++ new;
     e_count := match new with [] => e_count s | _ => size_succ (e_count s) end;
     e_immediate := e_immediate s;
     e_stdout := e_stdout s ++ out;
     e_frames := frames |}.

(** The line [print_errormsg] writes for a message without position, and
    what [print_error] writes for an error made of such messages: the
    error, and its informational lines when there are any. *)
Definition file_line (indent file text : list byte) : list byte :=
  indent ++ c_str file ++ [":"; " "]%byte ++ vsnprintf LINE_LEN text ++ [nl].

Definition file_report (file text : list byte) (texts : list (list byte))
    : list byte :=
  (["E"; "r"; "r"; "o"; "r"; ":"]%byte ++ [nl]) ++ file_line [] file text ++
  match texts with
  | [] => []
  | _ =>
      ([" "; " "; " "; " "; "I"; "n"; "f"; "o"; ":"]%byte ++ [nl]) ++
      concat (file_line [" "; " "; " "; " "]%byte file <$> texts)
  end.

(** The calls that report: all but [free_errors], [print_errors] and
    [error_set_immediate]. *)
Definition reports (c : call) : bool :=
  match c with
  | Free_errors | Print_errors | Set_immediate _ => false
  | _ => true
  end.

(** ** A scenario *)

(** The file [m.pony] with the two lines [ab] and [<tab>cd], the second
    without a line end, in a buffer that ends with a terminator. *)
Definition m_pony : list byte := ["m"; "."; "p"; "o"; "n"; "y"]%byte.

Definition two_lines : source_t :=
  {| src_file := Some m_pony;
     src_m := ["a"; "b"; x0a; x09; "c"; "d"; x00]%byte;
     src_len := 6 |}.

Definition bad : list byte := ["b"; "a"; "d"]%byte.

Definition no_message : errormsg_t :=
  {| e_file := None; e_line := 0; e_pos := 0; e_msg := []; e_source := None |}.

(** A frame that holds one message, and two frames with one message
    each. *)
Definition one_frame : errors_t :=
  match run [Frame 1; Errorframef (Some 1) m_pony bad] start with
  | Ok (_, s) => s
  | Fault _ => start
  end.

Definition two_frames : errors_t :=
  match run [Frame 1; Frame 2; Errorframef (Some 1) m_pony bad;
             Errorframe (Some 2) (Some two_lines) 2 2 bad] start with
  | Ok (_, s) => s
  | Fault _ => start
  end.

(** With immediate reporting: a frame that holds one message without
    position, and a frame that holds a message for column 0 of a line. *)
Definition one_frame_immediate : errors_t :=
  match run [Set_immediate true; Frame 1; Errorframef (Some 1) m_pony bad]
          start with
  | Ok (_, s) => s
  | Fault _ => start
  end.

Definition column_zero_frame : errors_t :=
  match run [Set_immediate true; Frame 1;
             Errorframe (Some 1) (Some two_lines) 2 0 bad] start with
  | Ok (_, s) => s
  | Fault _ => start
  end.

(** An error with a position, an error without, and an error with an
    informational line. *)
Definition three_reports : list call :=
  [Error (Some two_lines) 2 2 bad; Errorf m_pony bad; Frame 1;
   Errorframef (Some 1) m_pony bad;
   Errorframe (Some 1) (Some two_lines) 1 1 bad;
   Errorframe_report (Some 1)].

End error.

(** * Properties *)

Section properties.
Context `{!dwarf_env}.

Lemma bind_unfold {A B} (m : M A) (k : A → M B) s :
  (m ≫= k) s = match m s with Ok (a, s') => k a s' | Fault f => Fault f end.
Proof. reflexivity. Qed.

Lemma bind_Ok {A B} (m : M A) (k : A → M B) s a s' :
  m s = Ok (a, s') → (m ≫= k) s = k a s'.
Proof. intros E. rewrite bind_unfold, E. reflexivity. Qed.

Lemma bind_inv {A B} (m : M A) (k : A → M B) s b s2 :
  (m ≫= k) s = Ok (b, s2) → ∃ a s1, m s = Ok (a, s1) ∧ k a s1 = Ok (b, s2).
Proof.
  rewrite bind_unfold. destruct (m s) as [[a s1]|f]; [eauto | discriminate].
Qed.

Lemma bind_assoc {A B C} (m : M A) (k1 : A → M B) (k2 : B → M C) s :
  ((m ≫= k1) ≫= k2) s = (m ≫= λ a, k1 a ≫= k2) s.
Proof. rewrite !bind_unfold. by destruct (m s) as [[a s1]|]. Qed.

(** *** The registry *)

Lemma get_entry_eq name s : get_entry name s = Ok (ptr_of s name, ensure name s).
Proof.
  unfold get_entry, ptr_of, ensure, symbolmap_get, symbolmap_put, field, load.
  rewrite bind_unfold. unfold gets.
  destruct (s_map s !! name) as [p|] eqn:E; [reflexivity|].
  unfold mbind, M_bind, mret, M_ret, POOL_ALLOC, modify. cbn.
  rewrite lookup_app_r, Nat.sub_diag by lia. reflexivity.
Qed.

Lemma blank_not_node i : blank ≠ MDNode i.
Proof. unfold blank. destruct (PONY_LLVM <? 307); discriminate. Qed.

Lemma ensure_builder name s : s_builder (ensure name s) = s_builder s.
Proof. unfold ensure. destruct (s_map s !! name); reflexivity. Qed.
Lemma ensure_declares name s : s_declares (ensure name s) = s_declares s.
Proof. unfold ensure. destruct (s_map s !! name); reflexivity. Qed.
Lemma ensure_ir name s : s_ir (ensure name s) = s_ir s.
Proof. unfold ensure. destruct (s_map s !! name); reflexivity. Qed.
Lemma ensure_unit name s : s_unit (ensure name s) = s_unit s.
Proof. unfold ensure. destruct (s_map s !! name); reflexivity. Qed.
Lemma ensure_release name s : s_release (ensure name s) = s_release s.
Proof. unfold ensure. destruct (s_map s !! name); reflexivity. Qed.
Lemma ensure_frame name s : s_frame (ensure name s) = s_frame s.
Proof. unfold ensure. destruct (s_map s !! name); reflexivity. Qed.

Lemma ensure_map name s : s_map (ensure name s) !! name = Some (ptr_of s name).
Proof.
  unfold ensure, ptr_of. destruct (s_map s !! name) eqn:E; cbn; [done|].
  apply lookup_insert_eq.
Qed.

Lemma ensure_map_mono name s n p :
  s_map s !! n = Some p → s_map (ensure name s) !! n = Some p.
Proof.
  intros Hn. unfold ensure. destruct (s_map s !! name) eqn:E; cbn; [done|].
  rewrite lookup_insert_ne; [done | congruence].
Qed.

Lemma ensure_wf name s : wf s → wf (ensure name s).
Proof.
  intros Hwf. unfold ensure. destruct (s_map s !! name) eqn:E; [done|].
  intros n p. cbn. rewrite lookup_insert. case_decide as Hn.
  - intros [= <-]. subst n. exists (blank_sym name).
    rewrite lookup_app_r, Nat.sub_diag by lia. done.
  - intros Hp. destruct (Hwf n p Hp) as (d & Hd & Hname).
    exists d. split; [|done]. rewrite lookup_app_l; [done|].
    by eapply lookup_lt_Some.
Qed.

Lemma ensure_entry name s :
  wf s → entry (ensure name s) name = Some (default (blank_sym name) (entry s name)).
Proof.
  intros Hwf. unfold entry, ensure. destruct (s_map s !! name) as [p|] eqn:E.
  - rewrite E. cbn. destruct (Hwf _ _ E) as (d & -> & _). done.
  - cbn. rewrite lookup_insert_eq. cbn.
    rewrite lookup_app_r, Nat.sub_diag by lia. done.
Qed.

Lemma ensure_entry_ne name s n :
  wf s → n ≠ name → entry (ensure name s) n = entry s n.
Proof.
  intros Hwf Hne. unfold entry, ensure.
  destruct (s_map s !! name) as [p|] eqn:E; [done|].
  cbn. rewrite lookup_insert_ne by congruence.
  destruct (s_map s !! n) as [q|] eqn:En; [|done]. cbn.
  destruct (Hwf _ _ En) as (d & Hd & _). rewrite Hd.
  rewrite lookup_app_l; [done|]. by eapply lookup_lt_Some.
Qed.

Lemma ensure_pool_lookup name s :
  wf s →
  s_pool (ensure name s) !! ptr_of s name
  = Some (default (blank_sym name) (entry s name)).
Proof.
  intros Hwf. pose proof (ensure_entry name s Hwf) as He.
  unfold entry in He. rewrite ensure_map in He. exact He.
Qed.

Lemma ensure_pool_old name s p d :
  s_pool s !! p = Some d → s_pool (ensure name s) !! p = Some d.
Proof.
  intros Hp. unfold ensure. destruct (s_map s !! name); [done|]. cbn.
  rewrite lookup_app_l; [done|]. by eapply lookup_lt_Some.
Qed.

Lemma wf_ptr_inj s n1 n2 p :
  wf s → s_map s !! n1 = Some p → s_map s !! n2 = Some p → n1 = n2.
Proof.
  intros Hwf H1 H2. destruct (Hwf _ _ H1) as (d1 & Hd1 & <-).
  destruct (Hwf _ _ H2) as (d2 & Hd2 & <-). congruence.
Qed.

Lemma entry_name s n d : wf s → entry s n = Some d → sym_name d = n.
Proof.
  intros Hwf. unfold entry. destruct (s_map s !! n) as [p|] eqn:E; [|done].
  cbn. destruct (Hwf _ _ E) as (d' & -> & Hn). by intros [= <-].
Qed.

Lemma default_entry_name s n : wf s → sym_name (default (blank_sym n) (entry s n)) = n.
Proof.
  intros Hwf. destruct (entry s n) as [d|] eqn:E; cbn; [|done].
  by eapply entry_name.
Qed.

(** Writing through the pointer registered for a name. *)
Lemma poke_wf p d d0 s :
  wf s → s_pool s !! p = Some d0 → sym_name d = sym_name d0 → wf (poke p d s).
Proof.
  intros Hwf Hp Hname n q Hq. cbn in Hq. destruct (Hwf _ _ Hq) as (dq & Hdq & Hn).
  cbn. destruct (decide (q = p)) as [->|Hne].
  - exists d. rewrite list_lookup_insert_eq by (by eapply lookup_lt_Some).
    split; [done|]. congruence.
  - exists dq. by rewrite list_lookup_insert_ne.
Qed.

Lemma poke_entry p d s n :
  wf s → s_map s !! n = Some p → entry (poke p d s) n = Some d.
Proof.
  intros Hwf Hn. unfold entry. cbn. rewrite Hn. cbn.
  destruct (Hwf _ _ Hn) as (d0 & Hd0 & _).
  apply list_lookup_insert_eq. by eapply lookup_lt_Some.
Qed.

Lemma poke_entry_ne p d s n m :
  wf s → s_map s !! n = Some p → m ≠ n → entry (poke p d s) m = entry s m.
Proof.
  intros Hwf Hn Hne. unfold entry. cbn.
  destruct (s_map s !! m) as [q|] eqn:Em; [|done]. cbn.
  apply list_lookup_insert_ne. intros <-. apply Hne. by eapply wf_ptr_inj.
Qed.

(** *** One step of each primitive *)

Lemma field_eq {A} (f : debug_sym_t → A) p s d :
  s_pool s !! p = Some d → field f p s = Ok (f d, s).
Proof. intros E. unfold field, load, mbind, M_bind, mret, M_ret. by rewrite E. Qed.

Lemma assign_eq set p v s d :
  s_pool s !! p = Some d → assign set p v s = Ok (tt, poke p (set v d) s).
Proof.
  intros E. unfold assign, load, store, mbind, M_bind, mret, M_ret.
  by rewrite E, E.
Qed.

Lemma emit_eq n s :
  emit n s = Ok (MDNode (length (s_builder s)), push_node n s).
Proof. reflexivity. Qed.

Lemma top_frame_eq s f prev : s_frame s = f :: prev → top_frame s = Ok (f, s).
Proof. intros E. unfold top_frame. by rewrite E. Qed.

Lemma set_top_frame_eq s f f' prev :
  s_frame s = f :: prev → set_top_frame f' s = Ok (tt, with_frame (f' :: prev) s).
Proof. intros E. unfold set_top_frame. by rewrite E. Qed.

Lemma poke_wf' p d s n :
  wf s → s_map s !! n = Some p → sym_name d = n → wf (poke p d s).
Proof.
  intros Hwf Hn Hname. destruct (Hwf _ _ Hn) as (d0 & Hd0 & Hn0).
  eapply poke_wf; eauto. congruence.
Qed.

Lemma poke_poke p d d0 s : poke p d (poke p d0 s) = poke p d s.
Proof. unfold poke. cbn. by rewrite list_insert_insert_eq. Qed.

Lemma poke_push_node p d n s : poke p d (push_node n s) = push_node n (poke p d s).
Proof. reflexivity. Qed.

Lemma poke_lookup p d d0 s :
  s_pool s !! p = Some d0 → s_pool (poke p d s) !! p = Some d.
Proof. intros Hp. cbn. apply list_lookup_insert_eq. by eapply lookup_lt_Some. Qed.

Lemma push_node_pool n s : s_pool (push_node n s) = s_pool s.
Proof. reflexivity. Qed.

Lemma push_node_wf n s : wf s → wf (push_node n s).
Proof. exact id. Qed.

Lemma with_frame_wf fs s : wf s → wf (with_frame fs s).
Proof. exact id. Qed.

Lemma entry_push_node n s m : entry (push_node n s) m = entry s m.
Proof. reflexivity. Qed.

Lemma entry_with_frame fs s m : entry (with_frame fs s) m = entry s m.
Proof. reflexivity. Qed.

Lemma entry_with_builder b s m : entry (with_builder b s) m = entry s m.
Proof. reflexivity. Qed.

(** *** What [get_entry] would answer *)



Lemma grows_refl s m : grows s s m.
Proof. by left. Qed.

Lemma grows_trans s1 s2 s3 m : grows s1 s2 m → grows s2 s3 m → grows s1 s3 m.
Proof.
  unfold grows. intros [E1|[E1 E1']] [E2|[E2 E2']].
  - left. congruence.
  - right. split; congruence.
  - right. split; congruence.
  - congruence.
Qed.

Lemma grows_view s s' m : grows s s' m → view s' m = view s m.
Proof. unfold grows, view. intros [->|[-> ->]]; reflexivity. Qed.

Lemma grows_entry s s' m d : grows s s' m → entry s m = Some d → entry s' m = Some d.
Proof. unfold grows. intros [->|[-> _]]; [done | discriminate]. Qed.

Lemma view_entry s m d : entry s m = Some d → view s m = d.
Proof. unfold view. by intros ->. Qed.

Lemma view_name s m : wf s → sym_name (view s m) = m.
Proof. apply default_entry_name. Qed.

Lemma ensure_grows name s m : wf s → grows s (ensure name s) m.
Proof.
  intros Hwf. destruct (decide (m = name)) as [->|Hne].
  - unfold grows. rewrite ensure_entry by done.
    destruct (entry s name) eqn:E; cbn; auto.
  - left. by apply ensure_entry_ne.
Qed.

Lemma ensure_view name s m : wf s → view (ensure name s) m = view s m.
Proof. intros Hwf. by apply grows_view, ensure_grows. Qed.

Lemma ensure_pool_view name s :
  wf s → s_pool (ensure name s) !! ptr_of s name = Some (view s name).
Proof. apply ensure_pool_lookup. Qed.

(** *** Invariants of the calls *)


Lemma pres_ret I {A} (a : A) : pres I (mret a).
Proof. intros s a' s' HI [= _ <-]. done. Qed.

Lemma pres_bind I {A B} (m : M A) (k : A → M B) :
  pres I m → (∀ a, pres I (k a)) → pres I (m ≫= k).
Proof.
  intros Hm Hk s b s' HI E. apply bind_inv in E as (a & s1 & E1 & E2).
  eapply Hk; [|exact E2]. eapply Hm; eauto.
Qed.

Lemma pres_crash I {A} f : pres I (crash (A:=A) f).
Proof. intros s a s' _ [=]. Qed.

Lemma pres_gets I {A} (f : symbols_t → A) : pres I (gets f).
Proof. intros s a s' HI [= _ <-]. done. Qed.

Lemma pres_modify I f : (∀ s, I s → I (f s)) → pres I (modify f).
Proof. intros Hf s a s' HI [= _ <-]. auto. Qed.

Lemma pres_field I {A} (f : debug_sym_t → A) p : pres I (field f p).
Proof.
  intros s a s' HI. unfold field, load, mbind, M_bind, mret, M_ret.
  destruct (s_pool s !! p); [|done]. by intros [= _ <-].
Qed.

Lemma pres_top_frame I : pres I top_frame.
Proof.
  intros s a s' HI. unfold top_frame. destruct (s_frame s); [done|].
  by intros [= _ <-].
Qed.

Lemma pres_prev_frame I : pres I prev_frame.
Proof.
  intros s a s' HI. unfold prev_frame. destruct (s_frame s) as [|? [|]]; try done.
  by intros [= _ <-].
Qed.


Lemma pres_emit I n : registry_only I → pres I (emit n).
Proof. intros HI s a s' Hs [= _ <-]. by apply (HI s). Qed.

Lemma pres_set_top_frame I f : registry_only I → pres I (set_top_frame f).
Proof.
  intros HI s a s' Hs. unfold set_top_frame. destruct (s_frame s); [done|].
  intros [= _ <-]. by apply (HI s).
Qed.

Lemma pres_registry_modify I f :
  registry_only I →
  (∀ s, s_pool (f s) = s_pool s) → (∀ s, s_map (f s) = s_map s) →
  pres I (modify f).
Proof. intros HI Hp Hm. apply pres_modify. intros s Hs. by apply (HI s). Qed.

Lemma pres_replaceAllUsesWith I this new :
  registry_only I → pres I (replaceAllUsesWith this new).
Proof.
  intros HI. destruct this; try apply pres_crash.
  by apply pres_registry_modify.
Qed.

Lemma pres_get_entry I name :
  (∀ s, I s → I (ensure name s)) → pres I (get_entry name).
Proof. intros HI s a s' Hs. rewrite get_entry_eq. intros [= _ <-]. auto. Qed.

Lemma pres_assign I set p v :
  (∀ s d, I s → s_pool s !! p = Some d → I (poke p (set v d) s)) →
  pres I (assign set p v).
Proof.
  intros HI s a s' Hs. destruct (s_pool s !! p) as [d|] eqn:E.
  - rewrite (assign_eq _ _ _ _ _ E). intros [= _ <-]. eauto.
  - unfold assign, load, mbind, M_bind. by rewrite E.
Qed.

Lemma pres_method_params I array n : ∀ i params,
  registry_invariant I → pres I (symbols_method_params array n i params).
Proof.
  induction n as [|n IH]; intros i params HI; cbn.
  - apply pres_ret.
  - destruct (array !! i); [|apply pres_crash].
    apply pres_bind; [apply pres_get_entry, HI|intros ?].
    apply pres_bind; [apply pres_field|intros ?]. by apply IH.
Qed.

Ltac pres_step HI :=
  lazymatch goal with
  | |- pres _ (mret _) => apply pres_ret
  | |- pres _ (crash _) => apply pres_crash
  | |- pres _ (gets _) => apply pres_gets
  | |- pres _ (field _ _) => apply pres_field
  | |- pres _ top_frame => apply pres_top_frame
  | |- pres _ prev_frame => apply pres_prev_frame
  | |- pres _ (set_top_frame _) => apply pres_set_top_frame, HI
  | |- pres _ (emit _) => apply pres_emit, HI
  | |- pres _ (get_entry _) => apply pres_get_entry, HI
  | |- pres _ (assign _ _ _) =>
      apply pres_assign; intros ? ? ? ?; by eapply HI
  | |- pres _ (replaceAllUsesWith _ _) => apply pres_replaceAllUsesWith, HI
  | |- pres _ (symbols_method_params _ _ _ _) => by apply pres_method_params
  | |- pres _ (modify _) => by apply pres_registry_modify; [apply HI|..]
  | |- pres _ (mbind _ _) => apply pres_bind; [|intros ?]
  | |- pres _ (if ?b then _ else _) => destruct b
  | |- pres _ (match ?x with _ => _ end) => destruct x
  end.

Lemma exec_pres I c : registry_invariant I → pres I (exec c).
Proof.
  intros HI. destruct c; cbn [exec];
    unfold symbols_push_frame, symbols_package, symbols_basic, symbols_pointer,
      symbols_trait, symbols_unspecified, symbols_declare, symbols_field,
      symbols_method, symbols_composite, symbols_lexicalscope, symbols_local,
      symbols_location, symbols_reset, get_file, createFile, createCompileUnit,
      createBasicType, createQualifiedType, createPointerType, createClassType,
      createStructType, createReplaceableCompositeType, createMemberType,
      getOrCreateArray, getOrCreateTypeArray, createSubroutineType,
      createMethod, createLexicalBlock, createArtificialType,
      createLocalVariable, createExpression, insertDeclare,
      SetCurrentDebugLocation;
    cbv zeta; repeat pres_step HI.
  intros s a s' Hs. unfold symbols_pop_frame. destruct (s_frame s); [done|].
  intros [= _ <-]. by apply (proj1 HI s).
Qed.

Lemma run_pres I cs : registry_invariant I → pres I (run cs).
Proof.
  intros HI. induction cs as [|c cs IH]; cbn [run].
  - apply pres_ret.
  - apply pres_bind; [by apply exec_pres | by intros _].
Qed.

Lemma wf_invariant : registry_invariant wf.
Proof.
  split_and!.
  - intros s s' Hp Hm Hwf n p. rewrite Hp, Hm. apply Hwf.
  - intros name s. apply ensure_wf.
  - intros p d d0 s Hwf Hp Hn. by eapply poke_wf.
Qed.

Lemma bound_invariant name p : registry_invariant (λ s, s_map s !! name = Some p).
Proof.
  split_and!.
  - intros s s' _ ->. done.
  - intros n s. apply ensure_map_mono.
  - done.
Qed.

Lemma wf_init ir optimised : wf (symbols_init ir optimised).
Proof. intros n p. cbn. by rewrite lookup_empty. Qed.

(** Every state the interface can reach is well formed. *)
Lemma reachable_wf ir optimised cs s :
  run cs (symbols_init ir optimised) = Ok (tt, s) → wf s.
Proof. apply (run_pres wf cs wf_invariant), wf_init. Qed.

Lemma lookup_app_plus {A} (l1 l2 : list A) k :
  (l1 ++ l2) !! (length l1 + k)%nat = l2 !! k.
Proof. rewrite lookup_app_r by lia. f_equal. lia. Qed.

Lemma lookup_app_length {A} (l1 l2 : list A) :
  (l1 ++ l2) !! length l1 = l2 !! 0%nat.
Proof. rewrite lookup_app_r by lia. f_equal. lia. Qed.

(** *** The frame stack and the cursor *)

Lemma symbols_location_eq s f prev line pos :
  s_frame s = f :: prev →
  symbols_location line pos s =
    let loc := DebugLoc_get (cast_unsigned line) (cast_unsigned pos) (frame_scope f) in
    Ok (tt, with_ir loc (with_frame (set_location loc f :: prev) s)).
Proof.
  intros E. unfold symbols_location.
  rewrite (bind_Ok _ _ _ _ _ (top_frame_eq _ _ _ E)). cbv zeta.
  rewrite (bind_Ok _ _ _ _ _ (set_top_frame_eq _ _ _ _ E)). reflexivity.
Qed.

Lemma symbols_reset_disable_eq s f prev :
  s_frame s = f :: prev →
  symbols_reset true s =
    Ok (tt, with_ir (DebugLoc_get 0 0 MDNull)
              (with_frame (set_location (DebugLoc_get 0 0 MDNull) f :: prev) s)).
Proof.
  intros E. unfold symbols_reset, gets. rewrite bind_unfold, E.
  rewrite (bind_Ok _ _ _ _ _ (set_top_frame_eq _ _ _ _ E)). reflexivity.
Qed.

Lemma symbols_reset_forward_eq s f prev :
  s_frame s = f :: prev →
  symbols_reset false s = Ok (tt, with_ir (frame_location f) s).
Proof.
  intros E. unfold symbols_reset, gets. rewrite bind_unfold, E. reflexivity.
Qed.

(** C1, as amended: with a frame on the stack, [resume()] forwards to the
    cursor whatever location the top frame remembers, whatever the cursor
    was, and writes no frame; [set_location(line, pos)] forwards the
    position (cut to 32 bits) in the frame's scope to the cursor and stores
    it as the top frame's remembered location; [suppress()] overwrites the
    frame's remembered location with the zero location and forwards it, so
    the position is [(0,0)]; a [resume()] after it forwards the frame's
    remembered location as it then is: the position stays [(0,0)] and the
    earlier position is not restored. Without a [suppress()] in between,
    [resume()] forwards the position that was set. *)
Theorem suppress_then_resume_forwards_zero s f prev line pos :
  s_frame s = f :: prev →
  let loc :=
    DebugLoc_get (cast_unsigned line) (cast_unsigned pos) (frame_scope f) in
  let zero := DebugLoc_get 0 0 MDNull in
  ∃ s1 s2 s3 s1' s0,
    symbols_location line pos s = Ok (tt, s1) ∧
    s_ir s1 = DebugLoc_get (cast_unsigned line) (cast_unsigned pos) (frame_scope f) ∧
    symbols_reset true s1 = Ok (tt, s2) ∧
    s_ir s2 = DebugLoc_get 0 0 MDNull ∧
    symbols_reset false s2 = Ok (tt, s3) ∧
    s_ir s3 = DebugLoc_get 0 0 MDNull ∧
    position (s_ir s3) = (0, 0) ∧
    symbols_reset false s1 = Ok (tt, s1') ∧
    s_ir s1' = s_ir s1 ∧
    (* what the top frame remembers after each call *)
    s_frame s1 = set_location loc f :: prev ∧
    s_frame s2 = set_location zero f :: prev ∧
    s_frame s3 = s_frame s2 ∧
    s_frame s1' = s_frame s1 ∧
    (* resume forwards the remembered location of the top frame *)
    s_ir s3 = frame_location (set_location zero f) ∧
    s_ir s1' = frame_location (set_location loc f) ∧
    symbols_reset false s = Ok (tt, s0) ∧
    s_ir s0 = frame_location f ∧
    s_frame s0 = s_frame s ∧
    (* nothing else is written *)
    s1 = with_ir loc (with_frame (set_location loc f :: prev) s) ∧
    s2 = with_ir zero (with_frame (set_location zero f :: prev) s) ∧
    s3 = s2 ∧ s1' = s1 ∧ s0 = with_ir (frame_location f) s.
Proof.
  intros E loc zero.
  exists (with_ir loc (with_frame (set_location loc f :: prev) s)),
    (with_ir zero (with_frame (set_location zero f :: prev) s)),
    (with_ir zero (with_frame (set_location zero f :: prev) s)),
    (with_ir loc (with_frame (set_location loc f :: prev) s)),
    (with_ir (frame_location f) s).
  split; [by apply symbols_location_eq|]. split; [reflexivity|].
  split.
  { by rewrite (symbols_reset_disable_eq _ (set_location loc f) prev). }
  split; [reflexivity|].
  split.
  { by rewrite (symbols_reset_forward_eq _ (set_location zero f) prev). }
  split; [reflexivity|]. split; [reflexivity|].
  split.
  { by rewrite (symbols_reset_forward_eq _ (set_location loc f) prev). }
  split_and!; try reflexivity.
  by rewrite (symbols_reset_forward_eq s f prev).
Qed.

(** C9: [set_location] writes the remembered location of the top frame and
    the cursor; the frames below, the other fields of the top frame, the
    registry and its descriptors, the graph and the unit are as before. *)
Theorem symbols_location_frame_effect s f prev line pos :
  s_frame s = f :: prev →
  ∃ s' f',
    symbols_location line pos s = Ok (tt, s') ∧
    s_frame s' = f' :: prev ∧
    frame_location f' =
      DebugLoc_get (cast_unsigned line) (cast_unsigned pos) (frame_scope f) ∧
    s_ir s' = frame_location f' ∧
    frame_type_name f' = frame_type_name f ∧
    frame_size f' = frame_size f ∧
    frame_members f' = frame_members f ∧
    frame_scope f' = frame_scope f ∧
    s_pool s' = s_pool s ∧ s_map s' = s_map s ∧
    s_builder s' = s_builder s ∧ s_declares s' = s_declares s ∧
    s_unit s' = s_unit s ∧ s_release s' = s_release s.
Proof.
  intros E. do 2 eexists. split; [by apply symbols_location_eq|].
  cbv zeta. cbn. split_and!; reflexivity.
Qed.

(** C10: on an empty frame stack [symbols_reset] returns without a fault
    and leaves the whole state, the cursor included, as it was, whether it
    is asked to disable or to re-forward. *)
Theorem symbols_reset_empty_noop s disable :
  s_frame s = [] → symbols_reset disable s = Ok (tt, s).
Proof.
  intros E. unfold symbols_reset, gets. rewrite bind_unfold, E. reflexivity.
Qed.

Lemma symbols_push_frame_eq g s :
  symbols_push_frame g s =
    Ok (tt, with_frame
      (match g with
       | Some g => set_size (field_count g) (set_type_name (type_name g) zero_frame)
       | None => zero_frame
       end :: s_frame s) s).
Proof. reflexivity. Qed.

Lemma symbols_pop_frame_eq s f prev :
  s_frame s = f :: prev → symbols_pop_frame s = Ok (tt, with_frame prev s).
Proof. intros E. unfold symbols_pop_frame. by rewrite E. Qed.

Lemma symbols_pop_frame_empty s :
  s_frame s = [] → symbols_pop_frame s = Fault NullDereference.
Proof. intros E. unfold symbols_pop_frame. by rewrite E. Qed.

(** C6, as amended: three pushes followed by three pops take the stack back
    to where it was, each pop removing exactly the frame pushed last; a pop
    on the empty stack is guarded by no assertion: it reads [prev] through
    the null frame pointer, which is undefined behaviour, and yields no
    state. *)
Theorem frame_stack_lifo s g1 g2 g3 :
  s_frame s = [] →
  ∃ s1 s2 s3 s4 s5 s6 f1 f2 f3,
    symbols_push_frame g1 s = Ok (tt, s1) ∧ s_frame s1 = [f1] ∧
    symbols_push_frame g2 s1 = Ok (tt, s2) ∧ s_frame s2 = [f2; f1] ∧
    symbols_push_frame g3 s2 = Ok (tt, s3) ∧ s_frame s3 = [f3; f2; f1] ∧
    frame_type_name f1 = default 0 (type_name <$> g1) ∧
    frame_type_name f2 = default 0 (type_name <$> g2) ∧
    frame_type_name f3 = default 0 (type_name <$> g3) ∧
    symbols_pop_frame s3 = Ok (tt, s4) ∧ s_frame s4 = [f2; f1] ∧
    symbols_pop_frame s4 = Ok (tt, s5) ∧ s_frame s5 = [f1] ∧
    symbols_pop_frame s5 = Ok (tt, s6) ∧ s_frame s6 = [] ∧
    symbols_pop_frame s6 = Fault NullDereference ∧
    symbols_pop_frame s = Fault NullDereference.
Proof.
  intros E. do 9 eexists.
  split; [apply symbols_push_frame_eq|]. split; [cbn; by rewrite E|].
  split; [apply symbols_push_frame_eq|]. split; [cbn; by rewrite E|].
  split; [apply symbols_push_frame_eq|]. split; [cbn; by rewrite E|].
  split; [by destruct g1|]. split; [by destruct g2|]. split; [by destruct g3|].
  split; [eapply symbols_pop_frame_eq; cbn; by rewrite E|]. split; [by cbn|].
  split; [by eapply symbols_pop_frame_eq|]. split; [by cbn|].
  split; [by eapply symbols_pop_frame_eq|]. split; [by cbn|].
  split; by apply symbols_pop_frame_empty.
Qed.

(** C7: with a frame pushed on top of a parent frame, [symbols_lexicalscope]
    fails its assertion when the parent's scope handle is null; when the
    handle is set, the block scope is created with the parent's handle as
    its parent and stored in the top frame, the rest of the stack being
    untouched. *)
Theorem symbols_lexicalscope_parent s meta top parent rest :
  s_frame s = top :: parent :: rest →
  (frame_scope parent = MDNull →
     symbols_lexicalscope meta s = Fault AssertionFailure) ∧
  (∀ k, frame_scope parent = MDNode k →
     ∃ s' block file,
       symbols_lexicalscope meta s = Ok (tt, s') ∧
       s_frame s' = set_scope block top :: parent :: rest ∧
       node s' block = Some (DILexicalBlock (MDNode k) file
         (cast_unsigned (meta_line meta)) (cast_unsigned (meta_pos meta))) ∧
       node s' file = Some (DIFile (meta_file meta)) ∧
       s_builder s' = s_builder s ++
         [DIFile (meta_file meta);
          DILexicalBlock (MDNode k) file (cast_unsigned (meta_line meta))
            (cast_unsigned (meta_pos meta))]).
Proof.
  intros E. unfold symbols_lexicalscope, get_file, createFile, createLexicalBlock.
  assert (Hprev : prev_frame s = Ok (parent, s)) by (unfold prev_frame; by rewrite E).
  rewrite (bind_Ok _ _ _ _ _ Hprev). cbv zeta. split.
  - intros ->. rewrite bind_unfold, emit_eq. reflexivity.
  - intros k ->. rewrite bind_unfold, emit_eq. cbv beta iota.
    rewrite bind_unfold, emit_eq. cbv beta iota.
    erewrite bind_Ok by (by eapply top_frame_eq).
    erewrite set_top_frame_eq by done.
    do 3 eexists. split; [reflexivity|]. cbn.
    split; [reflexivity|]. cbn. rewrite ?length_app, <- ?app_assoc. cbn.
    split; [by rewrite lookup_app_plus|].
    split; [cbn; by rewrite <- ?app_assoc, lookup_app_length|done].
Qed.

(** *** Symbolic execution of the registry calls *)

Lemma ensure_push_node name n s :
  ensure name (push_node n s) = push_node n (ensure name s).
Proof. unfold ensure. cbn. by destruct (s_map s !! name). Qed.

Lemma ptr_of_push_node name n s : ptr_of (push_node n s) name = ptr_of s name.
Proof. reflexivity. Qed.

Lemma view_push_node n s m : view (push_node n s) m = view s m.
Proof. reflexivity. Qed.

Lemma push_node_unit n s : s_unit (push_node n s) = s_unit s.
Proof. reflexivity. Qed.

Lemma poke_unit p d s : s_unit (poke p d s) = s_unit s.
Proof. reflexivity. Qed.

Lemma push_node_builder n s : s_builder (push_node n s) = s_builder s ++ [n].
Proof. reflexivity. Qed.

Lemma poke_builder p d s : s_builder (poke p d s) = s_builder s.
Proof. reflexivity. Qed.

Lemma push_node_frame n s : s_frame (push_node n s) = s_frame s.
Proof. reflexivity. Qed.

Lemma poke_frame p d s : s_frame (poke p d s) = s_frame s.
Proof. reflexivity. Qed.

Lemma gets_eq {A} (f : symbols_t → A) s : gets f s = Ok (f s, s).
Proof. reflexivity. Qed.

Ltac wf_tac := repeat first [assumption | apply ensure_wf | apply push_node_wf].

Ltac map_tac :=
  first [eassumption | apply ensure_map | apply ensure_map_mono; map_tac].

Ltac pool_lookup :=
  rewrite ?push_node_pool;
  first
    [ eassumption
    | apply ensure_pool_view; wf_tac
    | apply ensure_pool_old; pool_lookup
    | eapply poke_lookup; pool_lookup ].

Ltac frame_tac :=
  rewrite ?push_node_frame, ?poke_frame, ?ensure_frame;
  first [eassumption | reflexivity].

Lemma ret_eq {A} (a : A) s : (mret a : M A) s = Ok (a, s).
Proof. reflexivity. Qed.

Ltac mstep_here :=
  first
    [ rewrite get_entry_eq
    | rewrite emit_eq
    | rewrite gets_eq
    | rewrite ret_eq
    | erewrite field_eq by pool_lookup
    | erewrite assign_eq by pool_lookup
    | erewrite top_frame_eq by frame_tac
    | erewrite set_top_frame_eq by frame_tac ];
  cbv beta iota;
  rewrite ?ensure_push_node, ?ptr_of_push_node, ?poke_push_node, ?poke_poke,
    ?view_push_node, ?push_node_unit, ?poke_unit, ?ensure_unit;
  rewrite ?ensure_view by wf_tac.

Ltac mstep :=
  rewrite ?bind_assoc; first [rewrite bind_unfold; mstep_here | mstep_here].

Ltac unfold_creators :=
  unfold get_file, createFile, createCompileUnit,
    createBasicType, createQualifiedType, createPointerType, createClassType,
    createStructType, createReplaceableCompositeType, createMemberType,
    getOrCreateArray, getOrCreateTypeArray, createSubroutineType,
    createMethod, createLexicalBlock, createArtificialType,
    createLocalVariable, createExpression.

Ltac graph_simpl :=
  rewrite ?push_node_builder, ?poke_builder, ?ensure_builder,
    ?push_node_frame, ?poke_frame, ?ensure_frame, ?length_app, <- ?app_assoc;
  cbn [app length set_prelim set_type set_qualified set_actual sym_name
       sym_type sym_prelim sym_qualified sym_actual].

Lemma grows_push_node s s' n m : grows s s' m → grows s (push_node n s') m.
Proof. exact id. Qed.

Ltac eq_nodes :=
  repeat lazymatch goal with
    | |- @eq nat _ _ =>
        cbn; rewrite ?ensure_builder, ?length_app; cbn [length]; lia
    | |- _ => progress f_equal
    end.

Lemma poke_grows p d s0 s n m :
  wf s → s_map s !! n = Some p → m ≠ n → grows s0 s m → grows s0 (poke p d s) m.
Proof.
  intros Hwf Hn Hm Hg. eapply grows_trans; [exact Hg|]. left.
  by eapply poke_entry_ne.
Qed.

Lemma ensure_grows' name s0 s m : wf s → grows s0 s m → grows s0 (ensure name s) m.
Proof. intros Hwf Hg. eapply grows_trans; [exact Hg|]. by apply ensure_grows. Qed.

Lemma grows_with_frame s s' fs m : grows s s' m → grows s (with_frame fs s') m.
Proof. exact id. Qed.

Lemma grows_with_builder s s' b m : grows s s' m → grows s (with_builder b s') m.
Proof. exact id. Qed.

Lemma with_builder_wf b s : wf s → wf (with_builder b s).
Proof. exact id. Qed.

Ltac wf_all :=
  repeat first
    [ assumption | apply ensure_wf | apply push_node_wf | apply with_frame_wf
    | apply with_builder_wf
    | eapply poke_wf'; [ | map_tac | cbn; by apply view_name ] ].

Ltac grows_all :=
  repeat first
    [ apply grows_push_node | apply grows_with_frame | apply grows_with_builder ];
  first
    [ apply grows_refl
    | eassumption
    | eapply poke_grows; [wf_tac | map_tac | done | grows_all]
    | apply ensure_grows'; [wf_tac | grows_all] ].

(** Closes the goals about a state
    [with_frame .. (push_node .. (poke p d (ensure .. s)))]. *)
Ltac state_done :=
  cbv beta iota zeta;
  repeat match goal with |- _ ∧ _ => split end;
  lazymatch goal with
  | |- wf _ => wf_all
  | |- ∀ m, m ≠ _ → grows _ _ m => intros ? ?; grows_all
  | |- ∀ m, grows _ _ m => intros ?; grows_all
  | |- entry _ _ = Some _ =>
      rewrite ?entry_with_frame, ?entry_with_builder, ?entry_push_node;
      etrans; [apply poke_entry; [wf_tac | map_tac]|];
      unfold set_qualified, set_type, set_prelim, set_actual; cbn;
      rewrite ?view_name by done; eq_nodes
  | |- _ =>
      cbn; rewrite ?ensure_frame, ?ensure_unit, ?ensure_ir, ?ensure_release,
        ?ensure_declares, ?ensure_builder;
      graph_simpl; eq_nodes
  end.

Lemma symbols_declare_spec meta s :
  wf s →
  let name := meta_name meta in
  let len := length (s_builder s) in
  let tuple := is_set (meta_flags meta) DWARF_TUPLE in
  let prelim :=
    DIReplaceableComposite
      (if tuple then DW_TAG_structure_type else DW_TAG_class_type) name
      (s_unit s) (MDNode len) (cast_int (meta_line meta)) in
  ∃ s',
    symbols_declare meta s = Ok (tt, s') ∧ wf s' ∧
    (∀ m, m ≠ name → grows s s' m) ∧
    s_frame s' = s_frame s ∧ s_unit s' = s_unit s ∧
    if tuple then
      entry s' name = Some
        {| sym_name := name; sym_type := MDNode (len + 1);
           sym_qualified := MDNode (len + 2);
           sym_actual := sym_actual (view s name);
           sym_prelim := MDNode (len + 1) |} ∧
      s_builder s' = s_builder s ++
        [DIFile (meta_file meta); prelim;
         DIQualifiedType DW_TAG_const_type (MDNode (len + 1))]
    else
      entry s' name = Some
        {| sym_name := name; sym_type := MDNode (len + 2);
           sym_qualified := MDNode (len + 3);
           sym_actual := sym_actual (view s name);
           sym_prelim := MDNode (len + 1) |} ∧
      s_builder s' = s_builder s ++
        [DIFile (meta_file meta); prelim;
         DIPointerType (MDNode (len + 1)) (meta_size meta) (meta_align meta);
         DIQualifiedType DW_TAG_const_type (MDNode (len + 2))].
Proof.
  intros Hwf name len tuple prelim. subst prelim tuple.
  unfold symbols_declare. unfold_creators. cbv zeta.
  do 5 mstep.
  destruct (is_set (meta_flags meta) DWARF_TUPLE).
  - do 5 mstep. graph_simpl. eexists. split; [reflexivity|].
    state_done.
  - do 6 mstep. graph_simpl. eexists. split; [reflexivity|].
    state_done.
Qed.

Lemma symbols_pointer_spec meta s :
  wf s →
  let name := meta_name meta in
  let len := length (s_builder s) in
  ∃ s',
    symbols_pointer meta s = Ok (tt, s') ∧ wf s' ∧
    (∀ m, m ≠ name → grows s s' m) ∧
    s_frame s' = s_frame s ∧ s_unit s' = s_unit s ∧
    entry s' name = Some
      {| sym_name := name; sym_type := MDNode len;
         sym_qualified := MDNode (len + 1); sym_actual := MDNode len;
         sym_prelim := sym_prelim (view s name) |} ∧
    s_builder s' = s_builder s ++
      [DIPointerType (sym_type (view s (meta_typearg meta))) (meta_size meta)
         (meta_align meta);
       DIQualifiedType DW_TAG_const_type (MDNode len)].
Proof.
  intros Hwf name len. unfold symbols_pointer. unfold_creators.
  do 10 mstep. graph_simpl. eexists. split; [reflexivity|].
  state_done.
Qed.

Lemma symbols_field_spec meta s f prev :
  wf s → s_frame s = f :: prev →
  let len := length (s_builder s) in
  let d := view s (meta_typearg meta) in
  let use_type :=
    if is_set (meta_flags meta) DWARF_CONSTANT then sym_qualified d
    else sym_type d in
  let visibility :=
    if is_set (meta_flags meta) DWARF_PRIVATE then DW_ACCESS_private
    else DW_ACCESS_public in
  ∃ s',
    symbols_field meta s = Ok (tt, s') ∧ wf s' ∧
    (∀ m, grows s s' m) ∧
    s_frame s' = set_members (frame_members f ++ [MDNode (len + 1)]) f :: prev ∧
    s_unit s' = s_unit s ∧
    s_builder s' = s_builder s ++
      [DIFile (meta_file meta);
       DIMemberType (s_unit s) (meta_name meta) (MDNode len)
         (cast_int (meta_line meta)) (meta_size meta) (meta_align meta)
         (meta_offset meta) visibility use_type].
Proof.
  intros Hwf Hf len d use_type visibility. subst len d use_type visibility.
  unfold symbols_field. unfold_creators. cbv zeta.
  do 2 mstep.
  destruct (is_set (meta_flags meta) DWARF_CONSTANT).
  - do 6 mstep. graph_simpl. eexists. split; [reflexivity|]. state_done.
  - do 6 mstep. graph_simpl. eexists. split; [reflexivity|]. state_done.
Qed.

Lemma member_of_grows s s' meta file :
  (∀ m, grows s s' m) → s_unit s' = s_unit s →
  member_of s' meta file = member_of s meta file.
Proof.
  intros Hg Hu. unfold member_of. by rewrite Hu, (grows_view _ _ _ (Hg _)).
Qed.

Lemma member_nodes_grows s s' len metas :
  (∀ m, grows s s' m) → s_unit s' = s_unit s →
  member_nodes s' len metas = member_nodes s len metas.
Proof.
  intros Hg Hu. revert len. induction metas as [|meta metas IH]; intros len; cbn; [done|].
  by rewrite IH, (member_of_grows s s').
Qed.

Lemma symbols_fields_spec metas : ∀ s f prev,
  wf s → s_frame s = f :: prev →
  ∃ s',
    run (Field <$> metas) s = Ok (tt, s') ∧ wf s' ∧
    (∀ m, grows s s' m) ∧
    s_frame s' =
      set_members (frame_members f ++ member_ids (length (s_builder s)) (length metas)) f
      :: prev ∧
    s_unit s' = s_unit s ∧
    s_builder s' = s_builder s ++ member_nodes s (length (s_builder s)) metas.
Proof.
  induction metas as [|meta metas IH]; intros s f prev Hwf Hf.
  - exists s. cbn. rewrite !app_nil_r. split_and!; try done.
    + intros m. apply grows_refl.
    + rewrite Hf. by destruct f.
  - destruct (symbols_field_spec meta s f prev Hwf Hf)
      as (s1 & E1 & Hwf1 & Hg1 & Hf1 & Hu1 & Hb1).
    destruct (IH s1 _ _ Hwf1 Hf1) as (s2 & E2 & Hwf2 & Hg2 & Hf2 & Hu2 & Hb2).
    exists s2. cbn [fmap list_fmap run exec]. 
    change (list_fmap _ _ Field metas) with (Field <$> metas).
    rewrite (bind_Ok _ _ _ _ _ E1). split; [exact E2|].
    split; [done|].
    split; [intros m; eapply grows_trans; eauto|].
    rewrite Hf2, Hu2, Hu1, Hb2, Hb1, (member_nodes_grows s s1) by done.
    rewrite length_app. cbn. split_and!; try done.
    + unfold set_members. cbn. rewrite <- app_assoc. cbn.
      by replace (length (s_builder s) + 1 + 1)%nat with (length (s_builder s) + 2)%nat by lia.
    + rewrite <- app_assoc. cbn. done.
Qed.

Lemma replaceAllUsesWith_eq old new s :
  replaceAllUsesWith (MDNode old) new s =
    Ok (tt, with_builder (map_operands (replace_use old new) <$> s_builder s) s).
Proof. reflexivity. Qed.

Lemma symbols_composite_spec meta s f prev plc :
  wf s → s_frame s = f :: prev →
  sym_prelim (view s (meta_name meta)) = MDNode plc →
  let name := meta_name meta in
  let len := length (s_builder s) in
  let agg := MDNode (len + 2) in
  let nodes (aggregate : mdnode) :=
    map_operands (replace_use plc agg) <$>
      (s_builder s ++
         [DIFile (meta_file meta); MDTuple (frame_members f); aggregate]) in
  ∃ s',
    symbols_composite meta s = Ok (tt, s') ∧ wf s' ∧
    (∀ m, m ≠ name → grows s s' m) ∧
    s_frame s' = s_frame s ∧ s_unit s' = s_unit s ∧
    if is_set (meta_flags meta) DWARF_TUPLE then
      entry s' name = Some (set_type agg (set_actual agg (view s name))) ∧
      s_builder s' = nodes
        (DIStructType (s_unit s) name (MDNode len) (cast_int (meta_line meta))
           (meta_size meta) (meta_align meta) (MDNode (len + 1)))
    else
      entry s' name = Some (set_actual agg (view s name)) ∧
      s_builder s' = nodes
        (DIClassType (s_unit s) name (MDNode len) (cast_int (meta_line meta))
           (meta_size meta) (meta_align meta) 0 (MDNode (len + 1))).
Proof.
  intros Hwf Hf Hplc name len agg nodes. subst name len agg nodes.
  unfold symbols_composite. unfold_creators.
  do 5 mstep.
  destruct (is_set (meta_flags meta) DWARF_TUPLE).
  - do 6 mstep. cbn [sym_prelim sym_actual set_type set_actual].
    rewrite Hplc, replaceAllUsesWith_eq.
    eexists. split; [reflexivity|]. state_done.
  - do 4 mstep. cbn [sym_prelim sym_actual set_type set_actual].
    rewrite Hplc, replaceAllUsesWith_eq.
    eexists. split; [reflexivity|]. state_done.
Qed.

Lemma symbols_method_params_spec array n : ∀ i params s,
  wf s → (i + n ≤ length array)%nat →
  ∃ s',
    symbols_method_params array n i params s =
      Ok (params ++ ((λ name, sym_qualified (view s name)) <$> take n (drop i array)), s') ∧
    wf s' ∧ (∀ m, grows s s' m) ∧
    s_frame s' = s_frame s ∧ s_unit s' = s_unit s ∧
    s_release s' = s_release s ∧ s_builder s' = s_builder s.
Proof.
  induction n as [|n IH]; intros i params s Hwf Hlen.
  - exists s. cbn. rewrite app_nil_r. split_and!; try done. intros m. apply grows_refl.
  - destruct (array !! i) as [name|] eqn:Ei.
    2: { apply lookup_ge_None in Ei. lia. }
    cbn [symbols_method_params]. rewrite Ei. do 2 mstep.
    destruct (IH (S i) (params ++ [sym_qualified (view s name)]) (ensure name s))
      as (s' & E & Hwf' & Hg & Hf & Hu & Hr & Hb); [wf_tac | lia |].
    exists s'. rewrite E.
    rewrite (drop_S _ _ _ Ei). cbn. rewrite <- app_assoc. cbn.
    split.
    { do 4 f_equal. apply list_fmap_ext. intros ? m _. by rewrite ensure_view. }
    split; [done|].
    split; [intros m; eapply grows_trans; [by apply (ensure_grows name)|done]|].
    by rewrite Hf, Hu, Hr, Hb, ensure_frame, ensure_unit, ensure_release, ensure_builder.
Qed.

Lemma symbols_method_spec meta ir s f prev name0 names :
  wf s → s_frame s = f :: prev →
  meta_params meta = name0 :: names →
  N.to_nat (meta_size meta) = S (length names) →
  let len := length (s_builder s) in
  ∃ s',
    symbols_method meta ir s = Ok (tt, s') ∧ wf s' ∧
    (∀ m, grows s s' m) ∧
    s_frame s' = set_scope (MDNode (len + 3)) f :: prev ∧
    s_unit s' = s_unit s ∧
    s_builder s' = s_builder s ++
      [DIFile (meta_file meta);
       MDTuple (sym_type (view s name0)
                :: ((λ name, sym_qualified (view s name)) <$> names));
       DISubroutineType (MDNode len) (MDNode (len + 1));
       DIMethod (sym_actual (view s (frame_type_name f))) (meta_name meta)
         (meta_mangled meta) (MDNode len) (cast_int (meta_line meta))
         (MDNode (len + 2)) (s_release s) (dyn_cast_Function ir)].
Proof.
  intros Hwf Hf Hparams Hsize len. subst len.
  unfold symbols_method. unfold_creators. rewrite Hparams, Hsize. cbn [lookup list_lookup].
  do 2 mstep.
  destruct (symbols_method_params_spec (name0 :: names) (S (length names) - 1) 1
              [sym_type (view s name0)] (ensure name0 s))
    as (s1 & E1 & Hwf1 & Hg1 & Hf1 & Hu1 & Hr1 & Hb1); [wf_tac | cbn [length]; lia |].
  rewrite bind_unfold, E1. cbv beta iota.
  replace (S (length names) - 1)%nat with (length names) by lia.
  cbn [drop]. rewrite ?drop_0. rewrite take_ge by lia.
  rewrite ensure_frame in Hf1. rewrite ensure_unit in Hu1.
  rewrite ensure_release in Hr1. rewrite ensure_builder in Hb1.
  assert (Hf1' : s_frame s1 = f :: prev) by congruence.
  assert (Hg : ∀ m, grows s s1 m).
  { intros m. eapply grows_trans; [by apply (ensure_grows name0)|done]. }
  do 4 mstep. do 6 mstep.
  eexists. split; [reflexivity|].
  split; [wf_all|].
  split.
  { intros m. apply grows_with_frame. repeat apply grows_push_node.
    apply ensure_grows'; [done|apply Hg]. }
  cbn. rewrite ?ensure_unit, ?ensure_builder, ?ensure_release, Hu1, Hb1, Hr1.
  rewrite (grows_view _ _ _ (Hg _)).
  rewrite ?length_app, <- ?app_assoc. cbn.
  split; [eq_nodes|]. split; [done|].
  do 3 f_equal; [|eq_nodes].
  do 2 f_equal. apply list_fmap_ext. intros ? m _. by rewrite ensure_view.
Qed.

Lemma operands_map_operands f n : operands (map_operands f n) = f <$> operands n.
Proof. by destruct n. Qed.

Lemma replace_use_other old new r : r ≠ MDNode old → replace_use old new r = r.
Proof. intros Hr. unfold replace_use. by case_decide. Qed.

Lemma replace_use_old old new : replace_use old new (MDNode old) = new.
Proof. unfold replace_use. by case_decide. Qed.

(** *** Members *)

Lemma member_ids_length len n : length (member_ids len n) = n.
Proof. revert len. induction n as [|n IH]; intros len; cbn; [done|]. by rewrite IH. Qed.

Lemma member_ids_lookup n : ∀ len i,
  (i < n)%nat → member_ids len n !! i = Some (MDNode (len + 2 * i + 1)).
Proof.
  induction n as [|n IH]; intros len i Hi; [lia|].
  destruct i as [|i]; cbn.
  - do 2 f_equal. lia.
  - rewrite IH by lia. do 2 f_equal. lia.
Qed.

Lemma member_nodes_lookup s metas : ∀ len i meta,
  metas !! i = Some meta →
  member_nodes s len metas !! (2 * i + 1)%nat
  = Some (member_of s meta (MDNode (len + 2 * i))).
Proof.
  induction metas as [|m metas IH]; intros len i meta Hi; [done|].
  destruct i as [|i]; cbn in Hi |- *.
  - injection Hi as ->. by rewrite Nat.add_0_r.
  - replace (i + S (i + 0))%nat with (S (2 * i)) by lia. cbn.
    replace (S (i + (i + 0))) with (2 * i + 1)%nat by lia.
    rewrite (IH _ _ _ Hi). do 3 f_equal. lia.
Qed.

Lemma member_ids_fresh len n r :
  r ∈ member_ids len n → ∃ i, r = MDNode i ∧ (len < i)%nat.
Proof.
  revert len. induction n as [|n IH]; intros len; cbn.
  - by intros ?%elem_of_nil.
  - intros [->|Hr]%elem_of_cons.
    + exists (len + 1)%nat. split; [done|lia].
    + destruct (IH _ Hr) as (i & -> & Hi). exists i. split; [done|lia].
Qed.

(** C8: a run of [add_member] calls appends one handle per call, in call
    order, to the member list of the top frame (the frames below and the
    other fields of the top frame are untouched); the member node behind the
    [i]-th handle carries the data of the [i]-th call, and its type is the
    qualified variant of the field's descriptor if the constant flag is set
    and the plain use-type otherwise. When a composite whose placeholder is
    in the graph is resolved next, the element array of the aggregate is the
    member list in this order (the placeholder patched, where it occurs). *)
Theorem symbols_field_appends metas s f prev :
  wf s → s_frame s = f :: prev →
  ∃ s' added,
    run (Field <$> metas) s = Ok (tt, s') ∧
    s_frame s' = set_members (frame_members f ++ added) f :: prev ∧
    length added = length metas ∧
    (∀ i meta, metas !! i = Some meta →
       ∃ member file,
         added !! i = Some member ∧
         node s' member = Some
           (DIMemberType (s_unit s) (meta_name meta) file
              (cast_int (meta_line meta)) (meta_size meta) (meta_align meta)
              (meta_offset meta)
              (if is_set (meta_flags meta) DWARF_PRIVATE then DW_ACCESS_private
               else DW_ACCESS_public)
              (if is_set (meta_flags meta) DWARF_CONSTANT
               then sym_qualified (view s (meta_typearg meta))
               else sym_type (view s (meta_typearg meta)))) ∧
         node s' file = Some (DIFile (meta_file meta))) ∧
    (∀ comp placeholder,
       sym_prelim (view s' (meta_name comp)) = MDNode placeholder →
       is_Some (s_builder s' !! placeholder) →
       ∃ s'' d agg elems,
         symbols_composite comp s' = Ok (tt, s'') ∧
         entry s'' (meta_name comp) = Some d ∧
         node s'' (sym_actual d) = Some agg ∧
         elements_of agg = Some elems ∧
         node s'' elems = Some
           (MDTuple (replace_use placeholder (sym_actual d)
                       <$> (frame_members f ++ added)))).
Proof.
  intros Hwf Hf.
  destruct (symbols_fields_spec metas s f prev Hwf Hf)
    as (s' & E & Hwf' & Hg & Hf' & Hu & Hb).
  exists s', (member_ids (length (s_builder s)) (length metas)).
  split; [done|]. split; [done|]. split; [apply member_ids_length|].
  split; last first.
  { intros comp plc Hplc Hnode%lookup_lt_is_Some.
    destruct (symbols_composite_spec comp s' _ _ plc Hwf' Hf' Hplc)
      as (s'' & E' & _ & _ & _ & _ & Hd).
    assert (Hother : replace_use plc (MDNode (length (s_builder s') + 2))
                       (MDNode (length (s_builder s') + 1))
                     = MDNode (length (s_builder s') + 1)).
    { apply replace_use_other. intros [= ?]. lia. }
    destruct (is_set (meta_flags comp) DWARF_TUPLE); destruct Hd as [He Hb''];
      eexists s'', _, _, (MDNode (length (s_builder s') + 1));
      (split; [exact E'|]); (split; [exact He|]);
      cbn [node sym_actual set_type set_actual]; rewrite Hb'';
      rewrite !list_lookup_fmap, !lookup_app_plus; cbn;
      rewrite Hother; done. }
  intros i meta Hi. pose proof (lookup_lt_Some _ _ _ Hi) as Hlt.
  exists (MDNode (length (s_builder s) + 2 * i + 1)),
    (MDNode (length (s_builder s) + 2 * i)).
  split; [by apply member_ids_lookup|]. cbn [node]. rewrite Hb.
  split.
  - rewrite <- Nat.add_assoc, lookup_app_plus.
    by rewrite (member_nodes_lookup _ _ _ _ _ Hi).
  - rewrite lookup_app_plus. clear -Hi.
    revert i Hi. generalize (length (s_builder s)).
    induction metas as [|m metas IH]; intros len i Hi; [done|].
    destruct i as [|i]; cbn in Hi |- *; [congruence|].
    replace (i + S (i + 0))%nat with (S (2 * i)) by lia. cbn.
    by apply (IH (len + 2)%nat).
Qed.

(** *** The registry, forward declarations and method signatures *)

Lemma ensure_present name s p : s_map s !! name = Some p → ensure name s = s.
Proof. intros E. unfold ensure. by rewrite E. Qed.

(** C3: [get_entry] never fails and answers with the pointer registered
    for the name; for a name that is present the registry is left as it is
    and the registered pointer is returned; for an absent name a fresh
    descriptor carrying the name, none of whose type fields is a node, is
    allocated and registered; and the pointer obtained once is the pointer
    obtained after any further run of calls. *)
Theorem get_entry_get_or_create name s :
  (∃ p s', get_entry name s = Ok (p, s') ∧ s_map s' !! name = Some p) ∧
  (∀ p, s_map s !! name = Some p → get_entry name s = Ok (p, s)) ∧
  (s_map s !! name = None →
     ∃ p s',
       get_entry name s = Ok (p, s') ∧
       s_pool s !! p = None ∧
       s_pool s' = s_pool s ++ [blank_sym name] ∧
       s_pool s' !! p = Some (blank_sym name) ∧
       s_map s' = <[name := p]> (s_map s) ∧
       sym_name (blank_sym name) = name ∧
       ∀ i, sym_type (blank_sym name) ≠ MDNode i ∧
            sym_qualified (blank_sym name) ≠ MDNode i ∧
            sym_actual (blank_sym name) ≠ MDNode i ∧
            sym_prelim (blank_sym name) ≠ MDNode i) ∧
  (∀ p s1, get_entry name s = Ok (p, s1) →
     ∀ cs s2, run cs s1 = Ok (tt, s2) → get_entry name s2 = Ok (p, s2)).
Proof.
  split_and!.
  - eexists _, _. split; [apply get_entry_eq|apply ensure_map].
  - intros p E. rewrite get_entry_eq. unfold ptr_of. rewrite E. cbn.
    by rewrite (ensure_present _ _ _ E).
  - intros E. eexists _, _. split; [apply get_entry_eq|].
    unfold ptr_of, ensure. rewrite E. cbn.
    split; [by apply lookup_ge_None|]. split; [done|].
    split; [by rewrite lookup_app_length|]. split; [done|]. split; [done|].
    intros i. split_and!; apply blank_not_node.
  - intros p s1. rewrite get_entry_eq. intros [= <- <-] cs s2 Hrun.
    pose proof (run_pres _ cs (bound_invariant name (ptr_of s name)) _ _ _
                  (ensure_map name s) Hrun) as Hp.
    rewrite get_entry_eq. unfold ptr_of at 1. rewrite Hp. cbn.
    by rewrite (ensure_present _ _ _ Hp).
Qed.

(** C4: [declare_forward] creates the placeholder composite and records it
    in the descriptor; the qualified variant is the const wrapper of the
    use-type; for a value type (tuple flag) the use-type is the placeholder
    itself, otherwise it is a pointer node whose pointee is the placeholder.
    When a value type whose placeholder is in the graph is resolved, its
    use-type and its actual type are the same node, the struct aggregate
    over the member list of the top frame. *)
Theorem symbols_declare_use_type meta s :
  wf s →
  (∃ s' d file,
     symbols_declare meta s = Ok (tt, s') ∧
     entry s' (meta_name meta) = Some d ∧
     node s' (sym_prelim d) = Some
       (DIReplaceableComposite
          (if is_set (meta_flags meta) DWARF_TUPLE then DW_TAG_structure_type
           else DW_TAG_class_type)
          (meta_name meta) (s_unit s) file (cast_int (meta_line meta))) ∧
     node s' (sym_qualified d) = Some
       (DIQualifiedType DW_TAG_const_type (sym_type d)) ∧
     if is_set (meta_flags meta) DWARF_TUPLE then sym_type d = sym_prelim d
     else node s' (sym_type d) = Some
       (DIPointerType (sym_prelim d) (meta_size meta) (meta_align meta))) ∧
  (∀ f prev d placeholder,
     s_frame s = f :: prev →
     entry s (meta_name meta) = Some d →
     sym_prelim d = MDNode placeholder →
     is_Some (s_builder s !! placeholder) →
     is_set (meta_flags meta) DWARF_TUPLE = true →
     ∃ s' d' scope file,
       symbols_composite meta s = Ok (tt, s') ∧
       entry s' (meta_name meta) = Some d' ∧
       sym_type d' = sym_actual d' ∧
       node s' (sym_actual d') = Some
         (DIStructType scope (meta_name meta) file (cast_int (meta_line meta))
            (meta_size meta) (meta_align meta)
            (MDNode (length (s_builder s) + 1))) ∧
       s_builder s' !! (length (s_builder s) + 1)%nat = Some
         (MDTuple (replace_use placeholder (sym_actual d') <$> frame_members f))).
Proof.
  intros Hwf. split.
  - destruct (symbols_declare_spec meta s Hwf) as (s' & E & _ & _ & _ & _ & Hd).
    destruct (is_set (meta_flags meta) DWARF_TUPLE); destruct Hd as [He Hb];
      eexists s', _, _; (split; [exact E|]); (split; [exact He|]);
      cbn [node sym_prelim sym_qualified sym_type]; rewrite Hb.
    + split; [by rewrite lookup_app_plus|]. split; [by rewrite lookup_app_plus|done].
    + split; [by rewrite lookup_app_plus|]. split; by rewrite lookup_app_plus.
  - intros f prev d plc Hf He Hplc Hnode%lookup_lt_is_Some Hfl.
    destruct (symbols_composite_spec meta s f prev plc Hwf Hf)
      as (s' & E & _ & _ & _ & _ & Hd).
    { by rewrite (view_entry _ _ _ He). }
    rewrite Hfl in Hd. destruct Hd as [He' Hb].
    eexists s', _, _, _. split; [exact E|]. split; [exact He'|].
    split; [done|]. cbn [node sym_actual set_type set_actual].
    rewrite Hb, !list_lookup_fmap, !lookup_app_plus. cbn.
    split; [|done]. do 3 f_equal. unfold replace_use. case_decide as Hc; [|done].
    injection Hc. lia.
Qed.

(** C5: for the parameter names [R; P1; ..; Pn], [open_method] builds a
    signature of exactly [n + 1] entries, the plain use-type of [R]
    followed by the qualified variants of [P1 .. Pn] in order; the method
    scope is created under the actual type of the descriptor named by the
    top frame and its handle is stored in the top frame. *)
Theorem symbols_method_signature meta ir s f prev R Ps :
  wf s → s_frame s = f :: prev →
  meta_params meta = R :: Ps →
  meta_size meta = N.of_nat (S (length Ps)) →
  ∃ s' scope sig types file entries,
    symbols_method meta ir s = Ok (tt, s') ∧
    s_frame s' = set_scope scope f :: prev ∧
    node s' scope = Some
      (DIMethod (sym_actual (view s (frame_type_name f))) (meta_name meta)
         (meta_mangled meta) file (cast_int (meta_line meta)) sig
         (s_release s) (dyn_cast_Function ir)) ∧
    node s' sig = Some (DISubroutineType file types) ∧
    node s' types = Some (MDTuple entries) ∧
    length entries = S (length Ps) ∧
    entries !! 0%nat = Some (sym_type (view s R)) ∧
    (∀ i P, Ps !! i = Some P →
       entries !! S i = Some (sym_qualified (view s P))).
Proof.
  intros Hwf Hf Hparams Hsize.
  destruct (symbols_method_spec meta ir s f prev R Ps Hwf Hf Hparams)
    as (s' & E & _ & _ & Hf' & _ & Hb).
  { rewrite Hsize. lia. }
  set (len := length (s_builder s)) in *.
  exists s', (MDNode (len + 3)), (MDNode (len + 2)), (MDNode (len + 1)),
    (MDNode len). eexists.
  split; [exact E|]. split; [exact Hf'|].
  cbn [node]. rewrite Hb. subst len. rewrite !lookup_app_plus. cbn.
  split; [reflexivity|]. split; [reflexivity|]. split; [reflexivity|].
  split; [cbn; by rewrite length_fmap|]. split; [done|].
  intros i P Hi.
  pose proof (list_lookup_fmap (λ name, sym_qualified (view s name)) Ps i) as HP.
  rewrite Hi in HP. exact HP.
Qed.

(** *** Resolution of a forward declaration *)

Lemma run_app cs1 cs2 s : run (cs1 ++ cs2) s = (run cs1 ≫= λ _, run cs2) s.
Proof.
  revert s. induction cs1 as [|c cs1 IH]; intros s; cbn [app run].
  - reflexivity.
  - rewrite bind_assoc, !(bind_unfold (exec c)).
    destruct (exec c s) as [[[] s1]|]; [apply IH|done].
Qed.

Lemma run_cons c cs s : run (c :: cs) s = (exec c ≫= λ _, run cs) s.
Proof. reflexivity. Qed.

(** After [replaceAllUsesWith] no operand is the placeholder any more. *)
Lemma replaced_everywhere old new (nodes : list mdnode) i n :
  new ≠ MDNode old →
  (map_operands (replace_use old new) <$> nodes) !! i = Some n →
  MDNode old ∉ operands n.
Proof.
  intros Hnew. rewrite list_lookup_fmap.
  destruct (nodes !! i) as [n0|]; [|done]. intros [= <-].
  rewrite operands_map_operands. intros (r & Hr & _)%list_elem_of_fmap.
  unfold replace_use in Hr. case_decide; congruence.
Qed.

Lemma member_ids_replace old new len n :
  (old ≤ len)%nat →
  replace_use old new <$> member_ids len n = member_ids len n.
Proof.
  intros Hle. rewrite <- (list_fmap_id (member_ids len n)) at 2.
  apply list_fmap_ext. intros i r Hr. cbn.
  apply list_elem_of_lookup_2, member_ids_fresh in Hr as (k & -> & Hk).
  apply replace_use_other. intros [= ->]. lia.
Qed.

(** C2: a name [A] is declared forward as a reference type, a pointer
    descriptor [APtr] is registered with target [A], a frame is pushed,
    members are added and [A] is resolved. Afterwards the actual type of
    [A] is the class aggregate, a node other than the placeholder, whose
    elements are the members accumulated in the frame; the use-type of [A]
    is a pointer whose pointee is that aggregate; the pointee of [APtr] is
    the use-type of [A]; and no node of the graph has the placeholder as an
    operand. *)
Theorem forward_declare_resolve s decl ptr g fields comp :
  wf s →
  is_set (meta_flags decl) DWARF_TUPLE = false →
  is_set (meta_flags comp) DWARF_TUPLE = false →
  meta_name comp = meta_name decl →
  meta_typearg ptr = meta_name decl →
  meta_name ptr ≠ meta_name decl →
  ∃ s' dA dP placeholder agg scope file elems members top,
    run ([Forward decl; Pointer ptr; Push_frame g] ++ (Field <$> fields)
           ++ [Composite comp]) s = Ok (tt, s') ∧
    entry s' (meta_name decl) = Some dA ∧
    entry s' (meta_name ptr) = Some dP ∧
    sym_prelim dA = MDNode placeholder ∧
    sym_actual dA = MDNode agg ∧
    agg ≠ placeholder ∧
    node s' (sym_actual dA) = Some
      (DIClassType scope (meta_name decl) file (cast_int (meta_line comp))
         (meta_size comp) (meta_align comp) 0 elems) ∧
    node s' elems = Some (MDTuple members) ∧
    s_frame s' = top :: s_frame s ∧
    frame_members top = members ∧
    length members = length fields ∧
    node s' (sym_type dA) = Some
      (DIPointerType (sym_actual dA) (meta_size decl) (meta_align decl)) ∧
    node s' (sym_type dP) = Some
      (DIPointerType (sym_type dA) (meta_size ptr) (meta_align ptr)) ∧
    (∀ i n, s_builder s' !! i = Some n → MDNode placeholder ∉ operands n).
Proof.
  intros Hwf Hdecl Hcomp HnameC Htarget Hne.
  set (A := meta_name decl) in *. set (len := length (s_builder s)).
  (* declare *)
  destruct (symbols_declare_spec decl s Hwf)
    as (s1 & E1 & Hwf1 & Hg1 & Hf1 & Hu1 & Hd1).
  rewrite Hdecl in Hd1. destruct Hd1 as [HA1 Hb1]. fold A len in HA1, Hb1.
  (* pointer *)
  destruct (symbols_pointer_spec ptr s1 Hwf1)
    as (s2 & E2 & Hwf2 & Hg2 & Hf2 & Hu2 & HP2 & Hb2).
  rewrite Htarget, (view_entry _ _ _ HA1) in Hb2. cbn [sym_type] in Hb2.
  assert (HA2 : entry s2 A = Some
    {| sym_name := A; sym_type := MDNode (len + 2);
       sym_qualified := MDNode (len + 3);
       sym_actual := sym_actual (view s A); sym_prelim := MDNode (len + 1) |}).
  { eapply grows_entry; [apply Hg2|exact HA1]. done. }
  (* push *)
  pose proof (symbols_push_frame_eq g s2) as E3.
  set (fr := match g with
             | Some g0 => set_size (field_count g0)
                            (set_type_name (type_name g0) zero_frame)
             | None => zero_frame
             end) in E3.
  set (s3 := with_frame (fr :: s_frame s2) s2) in E3.
  assert (Hfr : frame_members fr = []) by (subst fr; by destruct g).
  (* fields *)
  destruct (symbols_fields_spec fields s3 fr (s_frame s2))
    as (s4 & E4 & Hwf4 & Hg4 & Hf4 & Hu4 & Hb4); [done|done|].
  change (s_builder s3) with (s_builder s2) in Hb4, Hf4.
  rewrite Hfr in Hf4. cbn [app] in Hf4.
  assert (HA4 : entry s4 A = Some
    {| sym_name := A; sym_type := MDNode (len + 2);
       sym_qualified := MDNode (len + 3);
       sym_actual := sym_actual (view s A); sym_prelim := MDNode (len + 1) |}).
  { eapply grows_entry; [apply Hg4|exact HA2]. }
  (* composite *)
  destruct (symbols_composite_spec comp s4 _ _ (len + 1) Hwf4 Hf4)
    as (s5 & E5 & Hwf5 & Hg5 & Hf5 & Hu5 & Hd5).
  { by rewrite HnameC, (view_entry _ _ _ HA4). }
  rewrite Hcomp, HnameC, (view_entry _ _ _ HA4) in Hd5.
  destruct Hd5 as [HA5 Hb5]. fold A in HA5, Hb5, Hg5.
  unfold set_actual in HA5. cbn in HA5.
  set (len4 := length (s_builder s4)) in *.
  assert (Hlen4 : (len + 6 ≤ len4)%nat).
  { subst len4. rewrite Hb4, Hb2, Hb1, !length_app. cbn. lia. }
  assert (Hlen1 : length (s_builder s1) = (len + 4)%nat).
  { rewrite Hb1, !length_app. cbn. lia. }
  assert (Hlen2 : length (s_builder s2) = (len + 6)%nat).
  { rewrite Hb2, Hb1, !length_app. cbn. lia. }
  eexists s5, _, _, (len + 1)%nat, (len4 + 2)%nat, _, _, (MDNode (len4 + 1)),
    (member_ids (length (s_builder s2)) (length fields)),
    (set_members (member_ids (length (s_builder s2)) (length fields)) fr).
  subst len4. split.
  { cbn [app]. rewrite run_cons. cbn [exec]. rewrite (bind_Ok _ _ _ _ _ E1).
    rewrite run_cons. cbn [exec]. rewrite (bind_Ok _ _ _ _ _ E2).
    rewrite run_cons. cbn [exec]. rewrite (bind_Ok _ _ _ _ _ E3).
    rewrite run_app, (bind_Ok _ _ _ _ _ E4).
    rewrite run_cons. cbn [exec]. by rewrite (bind_Ok _ _ _ _ _ E5). }
  split; [exact HA5|].
  split.
  { eapply grows_entry; [apply Hg5; by rewrite HnameC|].
    eapply grows_entry; [apply Hg4|exact HP2]. }
  split; [reflexivity|]. split; [reflexivity|]. split; [lia|].
  cbn [node sym_actual sym_type]. rewrite Hb5.
  split.
  { rewrite list_lookup_fmap, lookup_app_plus. cbn.
    rewrite (replace_use_other _ _ (MDNode (length (s_builder s4) + 1)))
      by (intros [= ?]; lia).
    reflexivity. }
  split.
  { rewrite list_lookup_fmap, lookup_app_plus. cbn.
    by rewrite member_ids_replace by lia. }
  split; [by rewrite Hf5, Hf4, Hf2, Hf1|].
  split; [reflexivity|].
  split; [apply member_ids_length|].
  split.
  { rewrite list_lookup_fmap, lookup_app_l by lia.
    rewrite Hb4, lookup_app_l by lia.
    rewrite Hb2, lookup_app_l by (rewrite Hb1, length_app; cbn; lia).
    rewrite Hb1. unfold len. rewrite lookup_app_plus. cbn.
    by rewrite replace_use_old. }
  split.
  { rewrite list_lookup_fmap, lookup_app_l by lia.
    rewrite Hb4, lookup_app_l by lia.
    rewrite Hb2, lookup_app_length. cbn.
    rewrite replace_use_other; [done|]. intros [= ?]. lia. }
  intros i n Hi. eapply replaced_everywhere; [|exact Hi]. intros [= ?]. lia.
Qed.

(** * Further properties of symbols.cc *)

(** *** The descriptors of the remaining type calls *)

Ltac look :=
  rewrite <- ?Nat.add_assoc; cbn [Nat.add];
  first [by rewrite lookup_app_plus | by rewrite lookup_app_length].

(** X1: [symbols_basic]: the descriptor's use-type and actual type are one
    fresh basic-type node, the qualified variant is its const wrapper, and a
    placeholder recorded earlier stays in the descriptor; the encoding is
    chosen by comparing the whole flag word with [DWARF_SIGNED],
    [DWARF_FLOAT] and [DWARF_BOOLEAN] in this order, every other word
    giving unsigned; no other descriptor and no frame is touched. *)
Theorem symbols_basic_descriptor meta s :
  wf s →
  ∃ s' d encoding,
    symbols_basic meta s = Ok (tt, s') ∧ wf s' ∧
    entry s' (meta_name meta) = Some d ∧
    sym_actual d = sym_type d ∧
    sym_prelim d = sym_prelim (view s (meta_name meta)) ∧
    node s' (sym_type d) = Some
      (DIBasicType (meta_name meta) (meta_size meta) (meta_align meta) encoding) ∧
    node s' (sym_qualified d) = Some
      (DIQualifiedType DW_TAG_const_type (sym_type d)) ∧
    (meta_flags meta = DWARF_SIGNED → encoding = DW_ATE_signed) ∧
    (meta_flags meta ≠ DWARF_SIGNED → meta_flags meta = DWARF_FLOAT →
       encoding = DW_ATE_float) ∧
    (meta_flags meta ≠ DWARF_SIGNED → meta_flags meta ≠ DWARF_FLOAT →
       meta_flags meta = DWARF_BOOLEAN → encoding = DW_ATE_boolean) ∧
    (meta_flags meta ≠ DWARF_SIGNED → meta_flags meta ≠ DWARF_FLOAT →
       meta_flags meta ≠ DWARF_BOOLEAN → encoding = DW_ATE_unsigned) ∧
    (∀ m, m ≠ meta_name meta → grows s s' m) ∧
    s_frame s' = s_frame s ∧
    length (s_builder s') = (length (s_builder s) + 2)%nat.
Proof.
  intros Hwf. unfold symbols_basic. unfold_creators. cbv zeta.
  do 8 mstep. graph_simpl.
  eexists _, _, _. split; [reflexivity|].
  split; [wf_all|].
  split.
  { rewrite ?entry_push_node. apply poke_entry; [wf_tac|map_tac]. }
  unfold set_qualified, set_actual, set_type. cbn [sym_actual sym_type sym_prelim sym_qualified node].
  split; [reflexivity|]. split; [reflexivity|].
  rewrite !push_node_builder, poke_builder, ensure_builder, <- app_assoc. cbn [app].
  split; [look|].
  split; [look|].
  split; [intros; repeat case_decide; congruence|].
  split; [intros; repeat case_decide; congruence|].
  split; [intros; repeat case_decide; congruence|].
  split; [intros; repeat case_decide; congruence|].
  split; [intros m Hm; grows_all|].
  split; [cbn; by rewrite ensure_frame|].
  rewrite length_app. cbn. lia.
Qed.

(** X2: [symbols_pointer] tolerates a target that is not registered yet: the
    call succeeds on every well-formed state; the pointee of the new pointer
    node is the use-type found under the target name, which is blank when
    the target is unknown; afterwards the target has a descriptor (the one it
    had, or a blank one); and the pointer's actual type is its use-type. *)
Theorem symbols_pointer_descriptor meta s :
  wf s →
  ∃ s' d,
    symbols_pointer meta s = Ok (tt, s') ∧ wf s' ∧
    entry s' (meta_name meta) = Some d ∧
    sym_actual d = sym_type d ∧
    node s' (sym_type d) = Some
      (DIPointerType (sym_type (view s (meta_typearg meta))) (meta_size meta)
         (meta_align meta)) ∧
    node s' (sym_qualified d) = Some
      (DIQualifiedType DW_TAG_const_type (sym_type d)) ∧
    (meta_typearg meta ≠ meta_name meta →
       entry s' (meta_typearg meta) = Some (view s (meta_typearg meta))) ∧
    (entry s (meta_typearg meta) = None →
       sym_type (view s (meta_typearg meta)) = blank) ∧
    (∀ m, m ≠ meta_name meta → grows s s' m).
Proof.
  intros Hwf. unfold symbols_pointer. unfold_creators.
  do 10 mstep. graph_simpl.
  eexists _, _. split; [reflexivity|].
  split; [wf_all|].
  split.
  { rewrite ?entry_push_node. apply poke_entry; [wf_tac|map_tac]. }
  unfold set_qualified, set_actual, set_type.
  cbn [sym_actual sym_type sym_prelim sym_qualified node].
  split; [reflexivity|].
  rewrite !push_node_builder, poke_builder, !ensure_builder, <- app_assoc.
  cbn [app].
  split; [look|].
  split; [look|].
  split.
  { intros Hne. rewrite ?entry_push_node.
    erewrite poke_entry_ne; [|wf_tac|map_tac|done].
    rewrite ensure_entry by wf_tac. cbn. f_equal.
    apply ensure_view. done. }
  split; [unfold view; by intros ->|].
  intros m Hm. grows_all.
Qed.

(** X3: [symbols_trait]: the use-type is a pointer to a fresh class node that
    has no element array; the actual type is that pointer, not the class;
    the qualified variant is the const wrapper of the pointer. *)
Theorem symbols_trait_descriptor meta s :
  wf s →
  ∃ s' d composite file,
    symbols_trait meta s = Ok (tt, s') ∧ wf s' ∧
    entry s' (meta_name meta) = Some d ∧
    sym_actual d = sym_type d ∧
    node s' (sym_type d) = Some
      (DIPointerType composite (meta_size meta) (meta_align meta)) ∧
    node s' composite = Some
      (DIClassType (s_unit s) (meta_name meta) file (cast_int (meta_line meta))
         (meta_size meta) (meta_align meta) (meta_offset meta) MDNull) ∧
    node s' file = Some (DIFile (meta_file meta)) ∧
    node s' (sym_qualified d) = Some
      (DIQualifiedType DW_TAG_const_type (sym_type d)) ∧
    (∀ m, m ≠ meta_name meta → grows s s' m) ∧
    s_frame s' = s_frame s ∧
    file = MDNode (length (s_builder s)) ∧
    composite = MDNode (length (s_builder s) + 1) ∧
    sym_type d = MDNode (length (s_builder s) + 2) ∧
    sym_qualified d = MDNode (length (s_builder s) + 3) ∧
    s_builder s' = s_builder s ++
      [DIFile (meta_file meta);
       DIClassType (s_unit s) (meta_name meta) file (cast_int (meta_line meta))
         (meta_size meta) (meta_align meta) (meta_offset meta) MDNull;
       DIPointerType composite (meta_size meta) (meta_align meta);
       DIQualifiedType DW_TAG_const_type (sym_type d)].
Proof.
  intros Hwf. unfold symbols_trait. unfold_creators.
  do 11 mstep. graph_simpl.
  eexists _, _, (MDNode (length (s_builder s) + 1)), (MDNode (length (s_builder s))).
  split; [reflexivity|].
  split; [wf_all|].
  split.
  { rewrite ?entry_push_node. apply poke_entry; [wf_tac|map_tac]. }
  unfold set_qualified, set_actual, set_type.
  cbn [sym_actual sym_type sym_prelim sym_qualified node].
  split; [reflexivity|].
  rewrite !push_node_builder, poke_builder, !ensure_builder, <- !app_assoc.
  cbn [app].
  split; [look|].
  split; [look|].
  split; [look|].
  split; [look|].
  split; [intros m Hm; grows_all|].
  split; [cbn; by rewrite ensure_frame|].
  split_and!; eq_nodes.
Qed.

(** X4: [symbols_unspecified]: the use-type is a pointer of size and alignment
    zero to a fresh class node of size zero without file, line or element
    array; the actual type is that pointer. *)
Theorem symbols_unspecified_descriptor name s :
  wf s →
  ∃ s' d composite,
    symbols_unspecified name s = Ok (tt, s') ∧ wf s' ∧
    entry s' name = Some d ∧
    sym_actual d = sym_type d ∧
    node s' (sym_type d) = Some (DIPointerType composite 0 0) ∧
    node s' composite = Some
      (DIClassType (s_unit s) name MDNull 0 0 0 0 MDNull) ∧
    node s' (sym_qualified d) = Some
      (DIQualifiedType DW_TAG_const_type (sym_type d)) ∧
    (∀ m, m ≠ name → grows s s' m) ∧
    s_frame s' = s_frame s ∧
    composite = MDNode (length (s_builder s)) ∧
    sym_type d = MDNode (length (s_builder s) + 1) ∧
    sym_qualified d = MDNode (length (s_builder s) + 2) ∧
    s_builder s' = s_builder s ++
      [DIClassType (s_unit s) name MDNull 0 0 0 0 MDNull;
       DIPointerType composite 0 0;
       DIQualifiedType DW_TAG_const_type (sym_type d)].
Proof.
  intros Hwf. unfold symbols_unspecified. unfold_creators.
  do 10 mstep. graph_simpl.
  eexists _, _, (MDNode (length (s_builder s))).
  split; [reflexivity|].
  split; [wf_all|].
  split.
  { rewrite ?entry_push_node. apply poke_entry; [wf_tac|map_tac]. }
  unfold set_qualified, set_actual, set_type.
  cbn [sym_actual sym_type sym_prelim sym_qualified node].
  split; [reflexivity|].
  rewrite !push_node_builder, poke_builder, !ensure_builder, <- !app_assoc.
  cbn [app].
  split; [look|].
  split; [look|].
  split; [look|].
  split; [intros m Hm; grows_all|].
  split; [cbn; by rewrite ensure_frame|].
  split_and!; eq_nodes.
Qed.

(** X5: [symbols_local]: with a frame open the call succeeds and inserts
    exactly one declaration, for the given storage; its variable is a fresh
    local-variable node in the scope of the top frame, an argument with its
    index when [is_arg] and an automatic variable with index 0 otherwise;
    the variable's type is the descriptor's qualified variant under the
    constant flag and its use-type otherwise, wrapped in an artificial type
    under the artificial flag; the declaration's location is the request's
    line and column in the scope of the top frame; it is anchored before
    the given instruction, or at the end of the entry block when there is
    none. The descriptor is looked up under the mangled name; no frame and
    no existing descriptor changes. *)
Theorem symbols_local_binding meta is_arg s f prev :
  wf s → s_frame s = f :: prev →
  let d := view s (meta_mangled meta) in
  let base :=
    if is_set (meta_flags meta) DWARF_CONSTANT then sym_qualified d
    else sym_type d in
  ∃ s' decl file ty,
    symbols_local meta is_arg s = Ok (tt, s') ∧ wf s' ∧
    s_declares s' = s_declares s ++ [decl] ∧
    decl_storage decl = meta_storage meta ∧
    node s' (decl_variable decl) = Some
      (DILocalVariable
         (if is_arg then DW_TAG_arg_variable else DW_TAG_auto_variable)
         (frame_scope f) (meta_name meta) file (cast_unsigned (meta_line meta))
         ty (if is_arg then cast_unsigned (meta_offset meta) else 0)) ∧
    node s' file = Some (DIFile (meta_file meta)) ∧
    (if is_set (meta_flags meta) DWARF_ARTIFICIAL
     then node s' ty = Some (DIArtificialType base) else ty = base) ∧
    node s' (decl_expression decl) = Some DIExpression ∧
    decl_location decl =
      DebugLoc_get (cast_unsigned (meta_line meta))
        (cast_unsigned (meta_pos meta)) (frame_scope f) ∧
    decl_anchor decl =
      match meta_inst meta with
      | LLVMNull => InsertAtEnd (meta_entry meta)
      | inst => InsertBefore (dyn_cast_Instruction inst)
      end ∧
    (∀ m, grows s s' m) ∧
    s_frame s' = s_frame s ∧ s_ir s' = s_ir s.
Proof.
  intros Hwf Hf d base. subst d base.
  unfold symbols_local. unfold_creators. cbv zeta.
  do 3 mstep.
  destruct (is_set (meta_flags meta) DWARF_CONSTANT);
    destruct (is_set (meta_flags meta) DWARF_ARTIFICIAL);
    do 5 mstep; try mstep; graph_simpl;
    (destruct (meta_inst meta) eqn:Einst;
     unfold insertDeclare, modify; cbv beta;
     (eexists _, _, (MDNode (length (s_builder s))), _;
      split; [reflexivity|])).
  all: split; [exact (ensure_wf _ _ Hwf)|].
  all: split; [cbn; by rewrite ensure_declares|].
  all: split; [reflexivity|].
  all: cbn [s_declares with_declares push_node with_builder s_builder
         decl_storage decl_variable decl_expression decl_location
         decl_anchor node];
    rewrite ?ensure_builder, <- ?app_assoc; cbn [app].
  all: split; [look|].
  all: split; [look|].
  all: split;
    [first [reflexivity
           | cbn [node s_builder with_declares push_node with_builder];
             rewrite ?ensure_builder, <- ?app_assoc; cbn [app]; look]|].
  all: split; [look|].
  all: split; [reflexivity|].
  all: split; [reflexivity|].
  all: split; [intros m; exact (ensure_grows _ _ m Hwf)|].
  all: cbn; by rewrite ?ensure_frame, ?ensure_ir.
Qed.



(** *** Inversion of a successful call *)

Lemma field_inv {A} (f : debug_sym_t → A) p s v s' :
  field f p s = Ok (v, s') → ∃ d, s_pool s !! p = Some d ∧ v = f d ∧ s' = s.
Proof.
  unfold field, load, mbind, M_bind, mret, M_ret.
  destruct (s_pool s !! p) as [d|]; [|done]. intros [= <- <-]. eauto.
Qed.

Lemma assign_inv set p v s a s' :
  assign set p v s = Ok (a, s') →
  ∃ d, s_pool s !! p = Some d ∧ s' = poke p (set v d) s.
Proof.
  destruct (s_pool s !! p) as [d|] eqn:E.
  - rewrite (assign_eq _ _ _ _ _ E). intros [= _ <-]. eauto.
  - unfold assign, load, mbind, M_bind. by rewrite E.
Qed.

Lemma top_frame_inv s f s' :
  top_frame s = Ok (f, s') → ∃ prev, s_frame s = f :: prev ∧ s' = s.
Proof.
  unfold top_frame. destruct (s_frame s) as [|f0 prev]; [done|].
  intros [= <- <-]. eauto.
Qed.

Lemma set_top_frame_inv f' s a s' :
  set_top_frame f' s = Ok (a, s') →
  ∃ f prev, s_frame s = f :: prev ∧ s' = with_frame (f' :: prev) s.
Proof.
  unfold set_top_frame. destruct (s_frame s) as [|f0 prev]; [done|].
  intros [= _ <-]. eauto.
Qed.

Lemma prev_frame_inv s p s' :
  prev_frame s = Ok (p, s') → ∃ f rest, s_frame s = f :: p :: rest ∧ s' = s.
Proof.
  unfold prev_frame. destruct (s_frame s) as [|f0 [|p0 rest]]; [done..|].
  intros [= <- <-]. eauto.
Qed.

Lemma symbols_pop_frame_inv s a s' :
  symbols_pop_frame s = Ok (a, s') →
  ∃ f, s_frame s = f :: s_frame s' ∧ s' = with_frame (s_frame s') s.
Proof.
  unfold symbols_pop_frame. destruct (s_frame s) as [|f0 prev]; [done|].
  intros [= _ <-]. eauto.
Qed.

Lemma method_params_inv array n : ∀ i params s r s',
  symbols_method_params array n i params s = Ok (r, s') →
  ∃ names, s' = ensure_all names s.
Proof.
  induction n as [|n IH]; intros i params s r s'; cbn [symbols_method_params].
  - intros [= _ <-]. by exists [].
  - destruct (array !! i) as [name|]; [|done].
    intros (p & s1 & H1 & H2)%bind_inv. rewrite get_entry_eq in H1.
    injection H1 as <- <-.
    apply bind_inv in H2 as (q & s2 & (d & _ & _ & ->)%field_inv & H2).
    apply IH in H2 as (names & ->). by exists (name :: names).
Qed.

Lemma Ok_inv {A} (a b : A) (s s' : symbols_t) :
  Ok (a, s) = Ok (b, s') → a = b ∧ s = s'.
Proof. by intros [= -> ->]. Qed.

Ltac minv H :=
  cbv zeta in H;
  lazymatch type of H with
  | (_ ≫= _) _ = Ok _ =>
      let a := fresh "a" in
      let s1 := fresh "s" in
      let H1 := fresh "H" in
      apply bind_inv in H as (a & s1 & H1 & H); minv H1; minv H
  | (if ?b then _ else _) _ = Ok _ => destruct b eqn:?; minv H
  | (match ?x with _ => _ end) _ = Ok _ => destruct x eqn:?; minv H
  | get_entry _ _ = Ok _ => rewrite get_entry_eq in H; injection H as <- <-
  | emit _ _ = Ok _ => rewrite emit_eq in H; injection H as <- <-
  | gets _ _ = Ok _ => rewrite gets_eq in H; injection H as <- <-
  | mret _ _ = Ok _ =>
      rewrite ret_eq in H; apply Ok_inv in H as [? <-]; subst
  | crash _ _ = Ok _ => discriminate H
  | modify _ _ = Ok _ => unfold modify in H; injection H as <-
  | field _ _ _ = Ok _ =>
      let d := fresh "d" in
      let Hd := fresh "Hd" in
      apply field_inv in H as (d & Hd & -> & ->)
  | assign _ _ _ _ = Ok _ =>
      let d := fresh "d" in
      let Hd := fresh "Hd" in
      apply assign_inv in H as (d & Hd & ->)
  | top_frame _ = Ok _ =>
      let prev := fresh "prev" in
      let Hf := fresh "Hf" in
      apply top_frame_inv in H as (prev & Hf & ->)
  | prev_frame _ = Ok _ =>
      let f := fresh "f" in
      let rest := fresh "rest" in
      let Hf := fresh "Hf" in
      apply prev_frame_inv in H as (f & rest & Hf & ->)
  | set_top_frame _ _ = Ok _ =>
      let f := fresh "f" in
      let prev := fresh "prev" in
      let Hf := fresh "Hf" in
      apply set_top_frame_inv in H as (f & prev & Hf & ->)
  | symbols_method_params _ _ _ _ _ = Ok _ =>
      let names := fresh "names" in
      apply method_params_inv in H as (names & ->)
  | Fault _ = Ok _ => discriminate H
  end.

Ltac unfold_call H :=
  cbn [exec] in H;
  unfold symbols_push_frame, symbols_package, symbols_basic, symbols_pointer,
    symbols_trait, symbols_unspecified, symbols_declare, symbols_field,
    symbols_method, symbols_composite, symbols_lexicalscope, symbols_local,
    symbols_location, symbols_reset, get_file, createFile, createCompileUnit,
    createBasicType, createQualifiedType, createPointerType, createClassType,
    createStructType, createReplaceableCompositeType, createMemberType,
    getOrCreateArray, getOrCreateTypeArray, createSubroutineType,
    createMethod, createLexicalBlock, createArtificialType,
    createLocalVariable, createExpression, insertDeclare,
    SetCurrentDebugLocation, replaceAllUsesWith in H.



Lemma ensure_all_frame names s : s_frame (ensure_all names s) = s_frame s.
Proof.
  revert s. induction names as [|n names IH]; intros s; [done|].
  change (ensure_all (n :: names) s) with (ensure_all names (ensure n s)).
  by rewrite IH, ensure_frame.
Qed.
Lemma ensure_all_builder names s : s_builder (ensure_all names s) = s_builder s.
Proof.
  revert s. induction names as [|n names IH]; intros s; [done|].
  change (ensure_all (n :: names) s) with (ensure_all names (ensure n s)).
  by rewrite IH, ensure_builder.
Qed.
Lemma ensure_all_ir names s : s_ir (ensure_all names s) = s_ir s.
Proof.
  revert s. induction names as [|n names IH]; intros s; [done|].
  change (ensure_all (n :: names) s) with (ensure_all names (ensure n s)).
  by rewrite IH, ensure_ir.
Qed.
Lemma ensure_all_unit names s : s_unit (ensure_all names s) = s_unit s.
Proof.
  revert s. induction names as [|n names IH]; intros s; [done|].
  change (ensure_all (n :: names) s) with (ensure_all names (ensure n s)).
  by rewrite IH, ensure_unit.
Qed.
Lemma ensure_all_release names s : s_release (ensure_all names s) = s_release s.
Proof.
  revert s. induction names as [|n names IH]; intros s; [done|].
  change (ensure_all (n :: names) s) with (ensure_all names (ensure n s)).
  by rewrite IH, ensure_release.
Qed.
Lemma ensure_all_declares names s : s_declares (ensure_all names s) = s_declares s.
Proof.
  revert s. induction names as [|n names IH]; intros s; [done|].
  change (ensure_all (n :: names) s) with (ensure_all names (ensure n s)).
  by rewrite IH, ensure_declares.
Qed.

(** Rewrites the projections of an inverted state down to those of the
    state the call started from. *)
Ltac proj_simpl :=
  repeat first
    [ progress cbn [s_frame s_builder s_ir s_unit s_release s_declares
                    s_pool s_map push_node poke with_pool with_map
                    with_builder with_declares with_ir with_unit with_frame] in *
    | rewrite ensure_frame in * | rewrite ensure_builder in *
    | rewrite ensure_ir in * | rewrite ensure_unit in *
    | rewrite ensure_release in * | rewrite ensure_declares in *
    | rewrite ensure_all_frame in * | rewrite ensure_all_builder in *
    | rewrite ensure_all_ir in * | rewrite ensure_all_unit in *
    | rewrite ensure_all_release in * | rewrite ensure_all_declares in * ].

(** *** What a call writes *)

Ltac merge_frames :=
  repeat match goal with
  | Hf : s_frame ?s = _ :: _, Hf' : s_frame ?s = _ :: _ |- _ =>
      rewrite Hf in Hf'; simplify_eq
  | Hf : s_frame ?s = _ :: _, Hf' : s_frame ?s = [] |- _ =>
      rewrite Hf in Hf'; discriminate
  end.



(** X7: Apart from the registry, the graph and the frame stack, a call writes
    little: the release flag is never written, the compile unit only by
    [symbols_package], the list of variable declarations only by
    [symbols_local], and the location of the instruction builder only by
    [symbols_location] and [symbols_reset]. *)
Theorem exec_cursor_effect c s s' :
  exec c s = Ok (tt, s') →
  s_release s' = s_release s ∧
  (s_unit s' ≠ s_unit s → ∃ path name, c = Package path name) ∧
  (s_declares s' ≠ s_declares s → ∃ meta is_arg, c = Local meta is_arg) ∧
  (s_ir s' ≠ s_ir s →
     (∃ line pos, c = Location line pos) ∨ ∃ disable, c = Reset_location disable).
Proof.
  intros H0. destruct c; unfold_call H0.
  2: { apply symbols_pop_frame_inv in H0 as (f & _ & ->). by split_and!. }
  all: minv H0; proj_simpl; split_and!; try done; eauto.
Qed.

(** X8: The graph only grows: no call removes a node, and every call but
    [symbols_composite], which rewrites the operands that use the
    placeholder, leaves the nodes that exist as they are and appends its own
    after them. *)
Theorem exec_graph_extends c s s' :
  exec c s = Ok (tt, s') →
  (length (s_builder s) ≤ length (s_builder s'))%nat ∧
  ((∀ meta, c ≠ Composite meta) → ∃ new, s_builder s' = s_builder s ++ new).
Proof.
  intros H0. destruct c; unfold_call H0.
  2: { apply symbols_pop_frame_inv in H0 as (f & _ & ->).
       split; [done|]. intros _. exists []. by rewrite app_nil_r. }
  all: minv H0; proj_simpl; rewrite ?length_fmap, ?length_app; cbn [length];
    (split; [lia|]);
    first [ by intros Hc; exfalso; eapply Hc
          | intros _; eexists; rewrite <- ?app_assoc;
            first [reflexivity | symmetry; apply app_nil_r] ].
Qed.

(** X9: No run of calls frees, moves or renames a descriptor: what a pointer
    into the pool denotes before the run it still denotes a descriptor of
    the same name after it. *)
Theorem run_descriptors_stay cs s s' p d :
  run cs s = Ok (tt, s') →
  s_pool s !! p = Some d →
  ∃ d', s_pool s' !! p = Some d' ∧ sym_name d' = sym_name d.
Proof.
  intros Hrun Hp.
  apply (run_pres
    (λ s1, ∃ d', s_pool s1 !! p = Some d' ∧ sym_name d' = sym_name d) cs)
    with (s := s) (a := tt); [|by eauto|done].
  split_and!.
  - intros s1 s2 Hpool _. by rewrite Hpool.
  - intros name s1 (d' & Hd' & Hn). exists d'. split; [|done].
    by apply ensure_pool_old.
  - intros q e e0 s1 (d' & Hd' & Hn) Hq He. cbn.
    destruct (decide (p = q)) as [->|Hne].
    + exists e. rewrite list_lookup_insert_eq by (by eapply lookup_lt_Some).
      split; [done|]. congruence.
    + exists d'. by rewrite list_lookup_insert_ne.
Qed.

Lemma exec_depth c s s' :
  exec c s = Ok (tt, s') →
  (length (s_frame s') + pops [c] = length (s_frame s) + pushes [c])%nat.
Proof.
  intros H0. destruct c; unfold_call H0; cbn [pops pushes].
  2: { apply symbols_pop_frame_inv in H0 as (f & -> & _). cbn. lia. }
  all: minv H0; proj_simpl; merge_frames;
    repeat match goal with Hf : s_frame _ = _ |- _ => rewrite Hf end;
    cbn [length]; lia.
Qed.

(** X10: The depth of the frame stack after a run is its depth before, plus the
    number of [symbols_push_frame] calls, minus the number of
    [symbols_pop_frame] calls of the run; no other call changes it. *)
Theorem run_frame_depth cs s s' :
  run cs s = Ok (tt, s') →
  (length (s_frame s') + pops cs = length (s_frame s) + pushes cs)%nat.
Proof.
  revert s. induction cs as [|c cs IH]; intros s; cbn [run].
  - intros [= <-]. cbn. lia.
  - intros (a & s1 & H1 & H2)%bind_inv. destruct a.
    apply exec_depth in H1. apply IH in H2.
    assert (pops (c :: cs) = pops [c] + pops cs)%nat as -> by by destruct c.
    assert (pushes (c :: cs) = pushes [c] + pushes cs)%nat as -> by by destruct c.
    lia.
Qed.

(** X11: On an empty frame stack every call that reads or writes the top frame
    fails, whatever the rest of the state is: the null frame pointer is
    dereferenced, or the call has failed before it got there. *)
Theorem exec_without_frame c s :
  needs_frame c = true → s_frame s = [] → ∃ e, exec c s = Fault e.
Proof.
  intros Hc Hs. destruct (exec c s) as [[[] s']|e] eqn:H0; [exfalso|by eauto].
  destruct c; try discriminate Hc; unfold_call H0.
  1: { apply symbols_pop_frame_inv in H0 as (f & Hf & _). congruence. }
  all: minv H0; proj_simpl; congruence.
Qed.


(** *** When a call fails *)

Lemma bind_Fault {A B} (m : M A) (k : A → M B) s e :
  m s = Fault e → (m ≫= k) s = Fault e.
Proof. intros E. by rewrite bind_unfold, E. Qed.

Lemma top_frame_empty s : s_frame s = [] → top_frame s = Fault NullDereference.
Proof. intros E. unfold top_frame. by rewrite E. Qed.

Lemma wf_ext s s' : s_pool s' = s_pool s → s_map s' = s_map s → wf s → wf s'.
Proof. intros Hp Hm Hwf n p. rewrite Hp, Hm. apply Hwf. Qed.

Lemma symbols_method_params_short array n : ∀ i params s,
  wf s → (i ≤ length array < i + n)%nat →
  symbols_method_params array n i params s = Fault OutOfBounds.
Proof.
  induction n as [|n IH]; intros i params s Hwf Hlen; [lia|].
  cbn [symbols_method_params].
  destruct (array !! i) as [name|] eqn:Ei; [|done].
  apply lookup_lt_Some in Ei. do 2 mstep.
  apply IH; [wf_tac | lia].
Qed.

Ltac stuck :=
  rewrite ?bind_assoc;
  first [ apply top_frame_empty; frame_tac
        | apply bind_Fault, top_frame_empty; frame_tac ].

Lemma grows_with_ir s s' loc m : grows s s' m → grows s (with_ir loc s') m.
Proof. exact id. Qed.
Lemma grows_with_unit s s' u m : grows s s' m → grows s (with_unit u s') m.
Proof. exact id. Qed.
Lemma grows_with_declares s s' ds m :
  grows s s' m → grows s (with_declares ds s') m.
Proof. exact id. Qed.

Ltac isolate :=
  let m := fresh "m" in
  let Hm := fresh "Hm" in
  intros m Hm; cbn [defines] in Hm;
  try match type of Hm with
      | Some ?n ≠ Some _ => assert (m ≠ n) by congruence
      end;
  repeat first
    [ apply grows_with_ir | apply grows_with_unit | apply grows_with_declares ];
  grows_all.

Ltac finish := eexists; split; [reflexivity|]; split; [wf_all|isolate].

Lemma exec_spec c s :
  wf s →
  match failure c s with
  | Some e => exec c s = Fault e
  | None =>
      ∃ s', exec c s = Ok (tt, s') ∧ wf s' ∧
            ∀ m, defines c ≠ Some m → grows s s' m
  end.
Proof.
  intros Hwf. destruct c; cbn [failure exec].
  - rewrite symbols_push_frame_eq. finish.
  - destruct (s_frame s) as [|f prev] eqn:Hf.
    + by apply symbols_pop_frame_empty.
    + erewrite symbols_pop_frame_eq by done. finish.
  - unfold symbols_package, createCompileUnit. do 2 mstep. finish.
  - unfold symbols_basic. unfold_creators. cbv zeta. do 8 mstep. finish.
  - unfold symbols_pointer. unfold_creators. do 10 mstep. finish.
  - unfold symbols_trait. unfold_creators. do 11 mstep. finish.
  - unfold symbols_unspecified. unfold_creators. do 10 mstep. finish.
  - destruct (symbols_declare_spec meta s Hwf) as (s' & E & Hwf' & Hg & _).
    exists s'. split_and!; [done..|]. intros m Hm. apply Hg. cbn in Hm. congruence.
  - destruct (s_frame s) as [|f prev] eqn:Hf.
    + unfold symbols_field. unfold_creators. cbv zeta. do 2 mstep.
      destruct (is_set (meta_flags meta) DWARF_CONSTANT); do 4 mstep; stuck.
    + destruct (symbols_field_spec meta s f prev Hwf Hf) as (s' & E & Hwf' & Hg & _).
      exists s'. split_and!; [done..|]. intros m _. apply Hg.
  - (* symbols_method *)
    unfold symbols_method. unfold_creators.
    destruct (meta_params meta) as [|name0 names] eqn:Hparams; cbn [length].
    { rewrite decide_True by lia. done. }
    cbn [lookup list_lookup]. rewrite <- Hparams.
    set (n := N.to_nat (meta_size meta)).
    case_decide as Hsize.
    + do 2 mstep. apply bind_Fault, symbols_method_params_short; [wf_tac|].
      rewrite Hparams. cbn [length]. lia.
    + destruct (symbols_method_params_spec (meta_params meta) (n - 1) 1
                  [sym_type (view s name0)] (ensure name0 s))
        as (s1 & E1 & Hwf1 & Hg1 & Hf1 & _); [wf_tac | rewrite Hparams; cbn [length]; lia |].
      rewrite ensure_frame in Hf1.
      do 2 mstep. rewrite bind_unfold, E1. cbv beta iota.
      destruct (s_frame s) as [|f prev] eqn:Hf.
      * do 3 mstep. stuck.
      * assert (Hg : ∀ m, grows s s1 m).
        { intros m. eapply grows_trans; [by apply (ensure_grows name0)|done]. }
        do 4 mstep. do 6 mstep. eexists. split; [reflexivity|].
        split; [wf_all|]. intros m _. apply grows_with_frame.
        repeat apply grows_push_node. apply ensure_grows'; [done|apply Hg].
  - (* symbols_composite *)
    unfold symbols_composite. unfold_creators.
    destruct (s_frame s) as [|f prev] eqn:Hf.
    + mstep. stuck.
    + destruct (sym_prelim (view s (meta_name meta))) as [| |plc] eqn:Hplc.
      3: { destruct (symbols_composite_spec meta s f prev plc Hwf Hf Hplc)
             as (s' & E & Hwf' & Hg & _).
           exists s'. split_and!; [done..|]. intros m Hm. apply Hg. cbn in Hm.
           congruence. }
      all: do 5 mstep;
        destruct (is_set (meta_flags meta) DWARF_TUPLE);
        repeat mstep;
        cbn [sym_prelim set_actual set_type]; rewrite Hplc; reflexivity.
  - (* symbols_lexicalscope *)
    unfold symbols_lexicalscope. unfold_creators.
    destruct (s_frame s) as [|f [|prev rest]] eqn:Hf.
    1,2: apply bind_Fault; unfold prev_frame; by rewrite Hf.
    assert (prev_frame s = Ok (prev, s)) as Hprev
      by (unfold prev_frame; by rewrite Hf).
    destruct (frame_scope prev) eqn:Hscope;
      rewrite bind_unfold, Hprev; cbv beta iota zeta; mstep;
      rewrite Hscope; [| done |].
    all: do 3 mstep; finish.
  - (* symbols_local *)
    unfold symbols_local. unfold_creators. cbv zeta.
    destruct (s_frame s) as [|f prev] eqn:Hf.
    + do 3 mstep.
      destruct (is_set (meta_flags meta) DWARF_CONSTANT),
        (is_set (meta_flags meta) DWARF_ARTIFICIAL); repeat mstep; stuck.
    + do 3 mstep.
      destruct (is_set (meta_flags meta) DWARF_CONSTANT),
        (is_set (meta_flags meta) DWARF_ARTIFICIAL); repeat mstep;
        destruct (meta_inst meta); finish.
  - (* symbols_location *)
    destruct (s_frame s) as [|f prev] eqn:Hf.
    + unfold symbols_location. stuck.
    + rewrite (symbols_location_eq s f prev) by done. finish.
  - (* symbols_reset *)
    destruct (s_frame s) as [|f prev] eqn:Hf.
    + unfold symbols_reset. rewrite bind_unfold, gets_eq, Hf. finish.
    + destruct disable.
      * rewrite (symbols_reset_disable_eq s f prev) by done. finish.
      * rewrite (symbols_reset_forward_eq s f prev) by done. finish.
Qed.

(** X12: The outcome of every call on a well-formed state: it fails exactly as
    [failure] says, and otherwise it returns and leaves the registry well
    formed. In particular the type calls, [symbols_package],
    [symbols_push_frame] and [symbols_reset] never fail; the calls that use
    the top frame fail on the empty stack; [symbols_method] fails when
    [params] has fewer than [max(1, size)] entries; [symbols_composite]
    fails for a name that has no placeholder; and the assertion of
    [symbols_lexicalscope] fires when the frame below the top one has no
    scope. *)
Theorem exec_outcome c s :
  wf s →
  match failure c s with
  | Some e => exec c s = Fault e
  | None => ∃ s', exec c s = Ok (tt, s') ∧ wf s'
  end.
Proof.
  intros Hwf. pose proof (exec_spec c s Hwf) as Hc.
  destruct (failure c s); [done|]. destruct Hc as (s' & E & Hwf' & _). eauto.
Qed.

(** X13: A descriptor is written only by the calls that define its name: over a
    run from a well-formed state in which no type call names [m], the
    descriptor of [m] stays exactly as it was; if [m] had none, it has none
    afterwards or a blank one, created by a lookup. *)
Theorem run_isolation cs s s' m :
  wf s →
  run cs s = Ok (tt, s') →
  (∀ c, c ∈ cs → defines c ≠ Some m) →
  grows s s' m.
Proof.
  revert s. induction cs as [|c cs IH]; intros s Hwf; cbn [run].
  - intros [= <-] _. apply grows_refl.
  - intros (a & s1 & H1 & H2)%bind_inv Hcs. destruct a.
    pose proof (exec_spec c s Hwf) as Hc. rewrite H1 in Hc.
    destruct (failure c s); [done|].
    destruct Hc as (s1' & [= <-] & Hwf1 & Hg).
    eapply grows_trans.
    + apply Hg, Hcs. by left.
    + apply IH; [done..|]. intros c' Hc'. apply Hcs. by right.
Qed.


(** *** The registry of a reachable state *)

Lemma owned_invariant :
  registry_invariant (λ s, ∀ p d, s_pool s !! p = Some d → s_map s !! sym_name d = Some p).
Proof.
  split_and!.
  - intros s s' Hp Hm HI p d. rewrite Hp, Hm. apply HI.
  - intros name s HI p d. unfold ensure.
    destruct (s_map s !! name) as [q|] eqn:E; [apply HI|].
    cbn [s_pool s_map with_pool with_map].
    intros Hp. destruct (decide (p < length (s_pool s))%nat) as [Hlt|Hge].
    + rewrite lookup_app_l in Hp by done.
      rewrite lookup_insert_ne; [by apply HI|].
      intros Hname. apply HI in Hp. congruence.
    + rewrite lookup_app_r in Hp by lia.
      destruct (p - length (s_pool s))%nat as [|k] eqn:Ek; [|by destruct k].
      injection Hp as <-. cbn [sym_name blank_sym]. rewrite lookup_insert_eq.
      f_equal. lia.
  - intros q e e0 s HI Hq He p d. unfold poke. cbn [s_pool s_map with_pool].
    destruct (decide (p = q)) as [->|Hne].
    + rewrite list_lookup_insert_eq by (by eapply lookup_lt_Some).
      intros [= <-]. rewrite He. by apply HI.
    + rewrite list_lookup_insert_ne by done. apply HI.
Qed.

(** X14: In every state the interface reaches from [symbols_init], the registry
    pairs names and descriptors one to one: a registered name points to a
    live descriptor that carries this name, no two names share a
    descriptor, and every descriptor of the pool is the one registered
    under its name. *)
Theorem reachable_registry ir optimised cs s :
  run cs (symbols_init ir optimised) = Ok (tt, s) →
  (∀ name p, s_map s !! name = Some p →
     ∃ d, s_pool s !! p = Some d ∧ sym_name d = name) ∧
  (∀ n1 n2 p, s_map s !! n1 = Some p → s_map s !! n2 = Some p → n1 = n2) ∧
  (∀ p d, s_pool s !! p = Some d → s_map s !! sym_name d = Some p).
Proof.
  intros Hrun. pose proof (reachable_wf _ _ _ _ Hrun) as Hwf.
  split_and!.
  - exact Hwf.
  - intros n1 n2 p. by apply wf_ptr_inj.
  - apply (run_pres _ cs owned_invariant (symbols_init ir optimised) tt s);
      [|done]. intros p d. cbn. by rewrite lookup_nil.
Qed.

(** *** Frames below the top *)

Lemma exec_above c s s' f top base :
  exec c s = Ok (tt, s') →
  s_frame s = f :: top ++ base →
  ∃ top', s_frame s' = top' ++ base ∧
          (length top' + pops [c] = S (length top) + pushes [c])%nat.
Proof.
  intros H0 Hs. destruct c; unfold_call H0; cbn [pops pushes].
  2: { apply symbols_pop_frame_inv in H0 as (f0 & Hf & _).
       rewrite Hs in Hf. injection Hf as _ <-. exists top. split; [done|lia]. }
  all: minv H0; proj_simpl; merge_frames; simplify_eq;
    repeat match goal with
           | Hf : s_frame ?s = _ |- context [s_frame ?s] => rewrite Hf
           end;
    lazymatch goal with
    | |- ∃ top', ?x :: ?y :: ?t ++ ?b = top' ++ ?b ∧ _ => exists (x :: y :: t)
    | |- ∃ top', ?x :: ?t ++ ?b = top' ++ ?b ∧ _ => exists (x :: t)
    end;
    (split; [reflexivity | cbn [length]; lia]).
Qed.

Lemma run_bracket cs : ∀ depth s s' f top base,
  balanced depth cs = true →
  length top = depth →
  s_frame s = f :: top ++ base →
  run (cs ++ [Pop_frame]) s = Ok (tt, s') →
  s_frame s' = base.
Proof.
  induction cs as [|c cs IH]; intros depth s s' f top base Hb Hlen Hs.
  - cbn in Hb. apply bool_decide_eq_true in Hb. subst depth.
    destruct top; [|done]. cbn [app run].
    intros (a & s1 & H1 & [= <-])%bind_inv.
    apply symbols_pop_frame_inv in H1 as (f0 & Hf & _).
    rewrite Hs in Hf. by injection Hf.
  - rewrite <- app_comm_cons. cbn [run].
    intros (a & s1 & H1 & H2)%bind_inv. destruct a.
    destruct (exec_above _ _ _ _ _ _ H1 Hs) as (top' & Hs1 & Hlen').
    destruct c; cbn [balanced pops pushes] in Hb, Hlen';
      try (destruct top' as [|f' top']; [cbn in Hlen'; lia|];
           eapply (IH _ s1 s' f' top' base); [exact Hb| |exact Hs1|exact H2];
           cbn in Hlen'; lia).
    destruct depth as [|depth]; [done|].
    destruct top' as [|f' top']; [cbn in Hlen'; lia|].
    eapply (IH _ s1 s' f' top' base); [exact Hb| |exact Hs1|exact H2].
    cbn in Hlen'. lia.
Qed.

(** X15: Frames nest: a frame that is pushed, used by a run of calls that pops
    exactly the frames it pushes, and popped again leaves the frame stack
    as it was. No call of the run writes a frame below the pushed one. *)
Theorem run_frames_nest g cs s s' :
  balanced 0 cs = true →
  run (Push_frame g :: cs ++ [Pop_frame]) s = Ok (tt, s') →
  s_frame s' = s_frame s.
Proof.
  intros Hb. cbn [run].
  intros (a & s1 & H1 & H2)%bind_inv.
  cbn [exec] in H1. rewrite symbols_push_frame_eq in H1.
  apply Ok_inv in H1 as [<- <-].
  refine (run_bracket cs 0 _ s' _ [] (s_frame s) Hb eq_refl _ H2).
  reflexivity.
Qed.

End properties.

(** * The properties on the scenario *)

#[local] Existing Instance pony_env.

Lemma in_method_runs : run in_method initial = Ok (tt, after_method).
Proof. vm_compute. reflexivity. Qed.

Lemma wf_after_method : wf after_method.
Proof.
  exact (run_pres wf in_method wf_invariant _ _ _
           (wf_init _ _) in_method_runs).
Qed.

Lemma pair_declared_runs :
  run [Forward decl_Pair;
       Push_frame (Some {| type_name := name_Pair; field_count := 0 |})]
    initial = Ok (tt, pair_declared).
Proof. vm_compute. reflexivity. Qed.

Lemma wf_pair_declared : wf pair_declared.
Proof.
  exact (run_pres wf _ wf_invariant _ _ _ (wf_init _ _) pair_declared_runs).
Qed.

(** C1, as the spec states it, fails in the method of the scenario: after
    [set_location(10,4)], [suppress()] and [resume()] the position
    forwarded to the cursor is [(0,0)], not [(10,4)], and [(0,0)] is what
    the top frame remembers. *)
Lemma suppress_resume_counterexample :
  s_frame after_method ≠ [] ∧
  ∃ s3,
    run [Location 10 4; Reset_location true; Reset_location false] after_method
      = Ok (tt, s3) ∧
    position (s_ir s3) = (0, 0) ∧
    position (s_ir s3) ≠ (10, 4) ∧
    position (frame_location (hd zero_frame (s_frame s3))) = (0, 0).
Proof.
  split; [by vm_compute|]. eexists. split; [vm_compute; reflexivity|].
  split; [reflexivity|]. split; [by vm_compute|]. reflexivity.
Qed.

Lemma suppress_then_resume_witness :
  let s := in_block_at_7_3 in
  let f := hd zero_frame (s_frame s) in
  let prev := tail (s_frame s) in
  let line := 10 in
  let pos := 4 in
  let loc :=
    DebugLoc_get (cast_unsigned line) (cast_unsigned pos) (frame_scope f) in
  let zero := DebugLoc_get 0 0 MDNull in
  (s_frame s = f :: prev ∧ s_ir s ≠ frame_location f) ∧
  ∃ s1 s2 s3 s1' s0,
    symbols_location line pos s = Ok (tt, s1) ∧
    s_ir s1 = DebugLoc_get (cast_unsigned line) (cast_unsigned pos) (frame_scope f) ∧
    symbols_reset true s1 = Ok (tt, s2) ∧
    s_ir s2 = DebugLoc_get 0 0 MDNull ∧
    symbols_reset false s2 = Ok (tt, s3) ∧
    s_ir s3 = DebugLoc_get 0 0 MDNull ∧
    position (s_ir s3) = (0, 0) ∧
    symbols_reset false s1 = Ok (tt, s1') ∧
    s_ir s1' = s_ir s1 ∧
    s_frame s1 = set_location loc f :: prev ∧
    s_frame s2 = set_location zero f :: prev ∧
    s_frame s3 = s_frame s2 ∧
    s_frame s1' = s_frame s1 ∧
    s_ir s3 = frame_location (set_location zero f) ∧
    s_ir s1' = frame_location (set_location loc f) ∧
    symbols_reset false s = Ok (tt, s0) ∧
    s_ir s0 = frame_location f ∧
    s_frame s0 = s_frame s ∧
    s1 = with_ir loc (with_frame (set_location loc f :: prev) s) ∧
    s2 = with_ir zero (with_frame (set_location zero f :: prev) s) ∧
    s3 = s2 ∧ s1' = s1 ∧ s0 = with_ir (frame_location f) s.
Proof.
  intros s f prev line pos loc zero.
  assert (E : s_frame s = f :: prev) by (vm_compute; reflexivity).
  assert (N : s_ir s ≠ frame_location f) by (vm_compute; discriminate).
  split; [split; [exact E|exact N]|].
  exact (suppress_then_resume_forwards_zero s f prev line pos E).
Defined.

Lemma forward_declare_resolve_witness :
  let s := initial in
  let decl := decl_A in
  let ptr := decl_APtr in
  let g := frame_A in
  let fields := [field_f] in
  let comp := decl_A in
  (wf s ∧
   is_set (meta_flags decl) DWARF_TUPLE = false ∧
   is_set (meta_flags comp) DWARF_TUPLE = false ∧
   meta_name comp = meta_name decl ∧
   meta_typearg ptr = meta_name decl ∧
   meta_name ptr ≠ meta_name decl) ∧
  ∃ s' dA dP placeholder agg scope file elems members top,
    run ([Forward decl; Pointer ptr; Push_frame g] ++ (Field <$> fields)
           ++ [Composite comp]) s = Ok (tt, s') ∧
    entry s' (meta_name decl) = Some dA ∧
    entry s' (meta_name ptr) = Some dP ∧
    sym_prelim dA = MDNode placeholder ∧
    sym_actual dA = MDNode agg ∧
    agg ≠ placeholder ∧
    node s' (sym_actual dA) = Some
      (DIClassType scope (meta_name decl) file (cast_int (meta_line comp))
         (meta_size comp) (meta_align comp) 0 elems) ∧
    node s' elems = Some (MDTuple members) ∧
    s_frame s' = top :: s_frame s ∧
    frame_members top = members ∧
    length members = length fields ∧
    node s' (sym_type dA) = Some
      (DIPointerType (sym_actual dA) (meta_size decl) (meta_align decl)) ∧
    node s' (sym_type dP) = Some
      (DIPointerType (sym_type dA) (meta_size ptr) (meta_align ptr)) ∧
    (∀ i n, s_builder s' !! i = Some n → MDNode placeholder ∉ operands n).
Proof.
  intros s decl ptr g fields comp.
  assert (Hwf : wf s) by apply wf_init.
  assert (Hne : meta_name ptr ≠ meta_name decl) by (vm_compute; lia).
  split; [split_and!; [exact Hwf|reflexivity..|exact Hne]|].
  apply (forward_declare_resolve s decl ptr g fields comp Hwf);
    [reflexivity..|exact Hne].
Defined.

Lemma get_entry_witness :
  (∃ p s', get_entry name_A after_method = Ok (p, s') ∧
           s_map s' !! name_A = Some p) ∧
  get_entry name_A after_method = Ok (1%nat, after_method) ∧
  (∃ p s', get_entry name_Pair after_method = Ok (p, s') ∧
           s_pool s' !! p = Some (blank_sym name_Pair)) ∧
  (∀ cs s2, run cs after_method = Ok (tt, s2) →
     get_entry name_A s2 = Ok (1%nat, s2)).
Proof.
  destruct (get_entry_get_or_create name_A after_method) as (H1 & H2 & _ & H4).
  destruct (get_entry_get_or_create name_Pair after_method) as (_ & _ & H3 & _).
  split; [exact H1|]. split; [apply H2; vm_compute; reflexivity|].
  split.
  - destruct H3 as (p & s' & E & _ & _ & Hp & _); [vm_compute; reflexivity|].
    exists p, s'. split; [exact E|exact Hp].
  - apply H4. apply H2. vm_compute. reflexivity.
Defined.

Lemma symbols_declare_use_type_witness :
  let s := pair_declared in
  let meta := decl_Pair in
  wf s ∧
  (∃ s' d file,
     symbols_declare meta s = Ok (tt, s') ∧
     entry s' (meta_name meta) = Some d ∧
     node s' (sym_prelim d) = Some
       (DIReplaceableComposite DW_TAG_structure_type
          (meta_name meta) (s_unit s) file (cast_int (meta_line meta))) ∧
     node s' (sym_qualified d) = Some
       (DIQualifiedType DW_TAG_const_type (sym_type d)) ∧
     sym_type d = sym_prelim d) ∧
  (∃ s' d' scope file,
     symbols_composite meta s = Ok (tt, s') ∧
     entry s' (meta_name meta) = Some d' ∧
     sym_type d' = sym_actual d' ∧
     node s' (sym_actual d') = Some
       (DIStructType scope (meta_name meta) file (cast_int (meta_line meta))
          (meta_size meta) (meta_align meta)
          (MDNode (length (s_builder s) + 1))) ∧
     s_builder s' !! (length (s_builder s) + 1)%nat = Some (MDTuple [])).
Proof.
  intros s meta. assert (Hwf : wf s) by apply wf_pair_declared.
  destruct (symbols_declare_use_type meta s Hwf) as [H1 H2].
  split; [exact Hwf|]. split; [exact H1|].
  apply (H2 (hd zero_frame (s_frame s)) (tail (s_frame s))
           (default (blank_sym 0) (entry s (meta_name meta))) 1%nat).
  - vm_compute. reflexivity.
  - vm_compute. reflexivity.
  - vm_compute. reflexivity.
  - vm_compute. eexists. reflexivity.
  - vm_compute. reflexivity.
Defined.

Lemma symbols_method_signature_witness :
  let s := after_method in
  let meta := method_apply in
  let ir := LLVMFunction 2 in
  let f := hd zero_frame (s_frame s) in
  let prev := tail (s_frame s) in
  let R := name_A in
  let Ps := [name_I32; name_APtr] in
  (wf s ∧ s_frame s = f :: prev ∧ meta_params meta = R :: Ps ∧
   meta_size meta = N.of_nat (S (length Ps))) ∧
  ∃ s' scope sig types file entries,
    symbols_method meta ir s = Ok (tt, s') ∧
    s_frame s' = set_scope scope f :: prev ∧
    node s' scope = Some
      (DIMethod (sym_actual (view s (frame_type_name f))) (meta_name meta)
         (meta_mangled meta) file (cast_int (meta_line meta)) sig
         (s_release s) (dyn_cast_Function ir)) ∧
    node s' sig = Some (DISubroutineType file types) ∧
    node s' types = Some (MDTuple entries) ∧
    length entries = S (length Ps) ∧
    entries !! 0%nat = Some (sym_type (view s R)) ∧
    (∀ i P, Ps !! i = Some P →
       entries !! S i = Some (sym_qualified (view s P))).
Proof.
  intros s meta ir f prev R Ps.
  assert (Hwf : wf s) by apply wf_after_method.
  assert (Hf : s_frame s = f :: prev) by (vm_compute; reflexivity).
  split; [split_and!; [exact Hwf|exact Hf|reflexivity..]|].
  apply (symbols_method_signature meta ir s f prev R Ps Hwf Hf); reflexivity.
Defined.

(** C6, as the spec states it, fails on the code: the fourth pop, on the
    empty stack, is a read through a null pointer and not the failure of an
    assertion. *)
Lemma over_pop_counterexample :
  run [Push_frame None; Push_frame None; Push_frame None;
       Pop_frame; Pop_frame; Pop_frame] initial = Ok (tt, initial) ∧
  s_frame initial = [] ∧
  symbols_pop_frame initial = Fault NullDereference ∧
  symbols_pop_frame initial ≠ Fault AssertionFailure.
Proof. split_and!; try reflexivity. discriminate. Qed.

Lemma frame_stack_lifo_witness :
  let s := initial in
  let g1 := Some {| type_name := name_A; field_count := 0 |} in
  let g2 : option gentype_t := None in
  let g3 := Some {| type_name := name_Pair; field_count := 2 |} in
  s_frame s = [] ∧
  ∃ s1 s2 s3 s4 s5 s6 f1 f2 f3,
    symbols_push_frame g1 s = Ok (tt, s1) ∧ s_frame s1 = [f1] ∧
    symbols_push_frame g2 s1 = Ok (tt, s2) ∧ s_frame s2 = [f2; f1] ∧
    symbols_push_frame g3 s2 = Ok (tt, s3) ∧ s_frame s3 = [f3; f2; f1] ∧
    frame_type_name f1 = default 0 (type_name <$> g1) ∧
    frame_type_name f2 = default 0 (type_name <$> g2) ∧
    frame_type_name f3 = default 0 (type_name <$> g3) ∧
    symbols_pop_frame s3 = Ok (tt, s4) ∧ s_frame s4 = [f2; f1] ∧
    symbols_pop_frame s4 = Ok (tt, s5) ∧ s_frame s5 = [f1] ∧
    symbols_pop_frame s5 = Ok (tt, s6) ∧ s_frame s6 = [] ∧
    symbols_pop_frame s6 = Fault NullDereference ∧
    symbols_pop_frame s = Fault NullDereference.
Proof.
  intros s g1 g2 g3. split; [reflexivity|].
  apply (frame_stack_lifo s g1 g2 g3). reflexivity.
Defined.

Lemma symbols_lexicalscope_witness :
  let meta := mk_meta 0 0 [] 0 0 in
  let top := zero_frame in
  let parent := hd zero_frame (s_frame after_method) in
  let rest := tail (s_frame after_method) in
  (s_frame no_scope = [zero_frame; zero_frame] ∧
   symbols_lexicalscope meta no_scope = Fault AssertionFailure) ∧
  (s_frame in_block = top :: parent :: rest ∧
   frame_scope parent = MDNode 13 ∧
   ∃ s' block file,
     symbols_lexicalscope meta in_block = Ok (tt, s') ∧
     s_frame s' = set_scope block top :: parent :: rest ∧
     node s' block = Some (DILexicalBlock (MDNode 13) file
       (cast_unsigned (meta_line meta)) (cast_unsigned (meta_pos meta))) ∧
     node s' file = Some (DIFile (meta_file meta)) ∧
     s_builder s' = s_builder in_block ++
       [DIFile (meta_file meta);
        DILexicalBlock (MDNode 13) file (cast_unsigned (meta_line meta))
          (cast_unsigned (meta_pos meta))]).
Proof.
  intros meta top parent rest. split.
  - assert (E : s_frame no_scope = [zero_frame; zero_frame]) by reflexivity.
    split; [exact E|].
    apply (proj1 (symbols_lexicalscope_parent no_scope meta _ _ _ E)).
    reflexivity.
  - assert (E : s_frame in_block = top :: parent :: rest)
      by (vm_compute; reflexivity).
    assert (Hk : frame_scope parent = MDNode 13) by (vm_compute; reflexivity).
    split; [exact E|]. split; [exact Hk|].
    exact (proj2 (symbols_lexicalscope_parent in_block meta top parent rest E)
             13%nat Hk).
Defined.

Lemma symbols_field_appends_witness :
  let metas := [field_f; field_g] in
  let s := after_method in
  let f := hd zero_frame (s_frame s) in
  let prev := tail (s_frame s) in
  (wf s ∧ s_frame s = f :: prev) ∧
  ∃ s' added,
    run (Field <$> metas) s = Ok (tt, s') ∧
    s_frame s' = set_members (frame_members f ++ added) f :: prev ∧
    length added = length metas ∧
    (∀ i meta, metas !! i = Some meta →
       ∃ member file,
         added !! i = Some member ∧
         node s' member = Some
           (DIMemberType (s_unit s) (meta_name meta) file
              (cast_int (meta_line meta)) (meta_size meta) (meta_align meta)
              (meta_offset meta)
              (if is_set (meta_flags meta) DWARF_PRIVATE then DW_ACCESS_private
               else DW_ACCESS_public)
              (if is_set (meta_flags meta) DWARF_CONSTANT
               then sym_qualified (view s (meta_typearg meta))
               else sym_type (view s (meta_typearg meta)))) ∧
         node s' file = Some (DIFile (meta_file meta))) ∧
    (∀ comp placeholder,
       sym_prelim (view s' (meta_name comp)) = MDNode placeholder →
       is_Some (s_builder s' !! placeholder) →
       ∃ s'' d agg elems,
         symbols_composite comp s' = Ok (tt, s'') ∧
         entry s'' (meta_name comp) = Some d ∧
         node s'' (sym_actual d) = Some agg ∧
         elements_of agg = Some elems ∧
         node s'' elems = Some
           (MDTuple (replace_use placeholder (sym_actual d)
                       <$> (frame_members f ++ added)))).
Proof.
  intros metas s f prev.
  assert (Hwf : wf s) by apply wf_after_method.
  assert (Hf : s_frame s = f :: prev) by (vm_compute; reflexivity).
  split; [split; [exact Hwf|exact Hf]|].
  apply (symbols_field_appends metas s f prev Hwf Hf).
Defined.

Lemma symbols_location_frame_effect_witness :
  let s := after_method in
  let f := hd zero_frame (s_frame s) in
  let prev := tail (s_frame s) in
  let line := 10 in
  let pos := 4 in
  s_frame s = f :: prev ∧
  ∃ s' f',
    symbols_location line pos s = Ok (tt, s') ∧
    s_frame s' = f' :: prev ∧
    frame_location f' =
      DebugLoc_get (cast_unsigned line) (cast_unsigned pos) (frame_scope f) ∧
    s_ir s' = frame_location f' ∧
    frame_type_name f' = frame_type_name f ∧
    frame_size f' = frame_size f ∧
    frame_members f' = frame_members f ∧
    frame_scope f' = frame_scope f ∧
    s_pool s' = s_pool s ∧ s_map s' = s_map s ∧
    s_builder s' = s_builder s ∧ s_declares s' = s_declares s ∧
    s_unit s' = s_unit s ∧ s_release s' = s_release s.
Proof.
  intros s f prev line pos.
  assert (Hf : s_frame s = f :: prev) by (vm_compute; reflexivity).
  split; [exact Hf|].
  apply (symbols_location_frame_effect s f prev line pos Hf).
Defined.

Lemma symbols_reset_empty_witness :
  s_frame initial = [] ∧
  symbols_reset true initial = Ok (tt, initial) ∧
  symbols_reset false initial = Ok (tt, initial).
Proof.
  assert (E : s_frame initial = []) by reflexivity.
  split; [exact E|].
  split; apply (symbols_reset_empty_noop initial _ E).
Defined.

(** ** The further properties on the scenario *)

Lemma wf_initial : wf initial.
Proof. apply wf_init. Qed.

Lemma symbols_basic_descriptor_witness :
  let meta := mk_meta name_I32 0 [] 32 2 in
  let s := after_method in
  wf s ∧
  ∃ s' d encoding,
    symbols_basic meta s = Ok (tt, s') ∧ wf s' ∧
    entry s' (meta_name meta) = Some d ∧
    sym_actual d = sym_type d ∧
    sym_prelim d = sym_prelim (view s (meta_name meta)) ∧
    node s' (sym_type d) = Some
      (DIBasicType (meta_name meta) (meta_size meta) (meta_align meta) encoding) ∧
    node s' (sym_qualified d) = Some
      (DIQualifiedType DW_TAG_const_type (sym_type d)) ∧
    (meta_flags meta = DWARF_SIGNED → encoding = DW_ATE_signed) ∧
    (meta_flags meta ≠ DWARF_SIGNED → meta_flags meta = DWARF_FLOAT →
       encoding = DW_ATE_float) ∧
    (meta_flags meta ≠ DWARF_SIGNED → meta_flags meta ≠ DWARF_FLOAT →
       meta_flags meta = DWARF_BOOLEAN → encoding = DW_ATE_boolean) ∧
    (meta_flags meta ≠ DWARF_SIGNED → meta_flags meta ≠ DWARF_FLOAT →
       meta_flags meta ≠ DWARF_BOOLEAN → encoding = DW_ATE_unsigned) ∧
    (∀ m, m ≠ meta_name meta → grows s s' m) ∧
    s_frame s' = s_frame s ∧
    length (s_builder s') = (length (s_builder s) + 2)%nat.
Proof.
  intros meta s. assert (Hwf : wf s) by apply wf_after_method.
  split; [exact Hwf|]. apply (symbols_basic_descriptor meta s Hwf).
Defined.

Lemma symbols_pointer_descriptor_witness :
  let meta := decl_APtr in
  let s := initial in
  wf s ∧
  ∃ s' d,
    symbols_pointer meta s = Ok (tt, s') ∧ wf s' ∧
    entry s' (meta_name meta) = Some d ∧
    sym_actual d = sym_type d ∧
    node s' (sym_type d) = Some
      (DIPointerType (sym_type (view s (meta_typearg meta))) (meta_size meta)
         (meta_align meta)) ∧
    node s' (sym_qualified d) = Some
      (DIQualifiedType DW_TAG_const_type (sym_type d)) ∧
    (meta_typearg meta ≠ meta_name meta →
       entry s' (meta_typearg meta) = Some (view s (meta_typearg meta))) ∧
    (entry s (meta_typearg meta) = None →
       sym_type (view s (meta_typearg meta)) = blank) ∧
    (∀ m, m ≠ meta_name meta → grows s s' m).
Proof.
  intros meta s. assert (Hwf : wf s) by apply wf_initial.
  split; [exact Hwf|]. apply (symbols_pointer_descriptor meta s Hwf).
Defined.

Lemma symbols_trait_descriptor_witness :
  let meta := mk_meta 8256 0 [] 64 0 in
  let s := after_method in
  wf s ∧
  ∃ s' d composite file,
    symbols_trait meta s = Ok (tt, s') ∧ wf s' ∧
    entry s' (meta_name meta) = Some d ∧
    sym_actual d = sym_type d ∧
    node s' (sym_type d) = Some
      (DIPointerType composite (meta_size meta) (meta_align meta)) ∧
    node s' composite = Some
      (DIClassType (s_unit s) (meta_name meta) file (cast_int (meta_line meta))
         (meta_size meta) (meta_align meta) (meta_offset meta) MDNull) ∧
    node s' file = Some (DIFile (meta_file meta)) ∧
    node s' (sym_qualified d) = Some
      (DIQualifiedType DW_TAG_const_type (sym_type d)) ∧
    (∀ m, m ≠ meta_name meta → grows s s' m) ∧
    s_frame s' = s_frame s ∧
    file = MDNode (length (s_builder s)) ∧
    composite = MDNode (length (s_builder s) + 1) ∧
    sym_type d = MDNode (length (s_builder s) + 2) ∧
    sym_qualified d = MDNode (length (s_builder s) + 3) ∧
    s_builder s' = s_builder s ++
      [DIFile (meta_file meta);
       DIClassType (s_unit s) (meta_name meta) file (cast_int (meta_line meta))
         (meta_size meta) (meta_align meta) (meta_offset meta) MDNull;
       DIPointerType composite (meta_size meta) (meta_align meta);
       DIQualifiedType DW_TAG_const_type (sym_type d)].
Proof.
  intros meta s. assert (Hwf : wf s) by apply wf_after_method.
  split; [exact Hwf|]. apply (symbols_trait_descriptor meta s Hwf).
Defined.

Lemma symbols_unspecified_descriptor_witness :
  let name := 8264 in
  let s := after_method in
  wf s ∧
  ∃ s' d composite,
    symbols_unspecified name s = Ok (tt, s') ∧ wf s' ∧
    entry s' name = Some d ∧
    sym_actual d = sym_type d ∧
    node s' (sym_type d) = Some (DIPointerType composite 0 0) ∧
    node s' composite = Some
      (DIClassType (s_unit s) name MDNull 0 0 0 0 MDNull) ∧
    node s' (sym_qualified d) = Some
      (DIQualifiedType DW_TAG_const_type (sym_type d)) ∧
    (∀ m, m ≠ name → grows s s' m) ∧
    s_frame s' = s_frame s ∧
    composite = MDNode (length (s_builder s)) ∧
    sym_type d = MDNode (length (s_builder s) + 1) ∧
    sym_qualified d = MDNode (length (s_builder s) + 2) ∧
    s_builder s' = s_builder s ++
      [DIClassType (s_unit s) name MDNull 0 0 0 0 MDNull;
       DIPointerType composite 0 0;
       DIQualifiedType DW_TAG_const_type (sym_type d)].
Proof.
  intros name s. assert (Hwf : wf s) by apply wf_after_method.
  split; [exact Hwf|]. apply (symbols_unspecified_descriptor name s Hwf).
Defined.

Lemma symbols_local_binding_witness :
  let meta := mk_meta name_I32 0 [] 32 32 in
  let is_arg := true in
  let s := after_method in
  let f := hd zero_frame (s_frame s) in
  let prev := tail (s_frame s) in
  (wf s ∧ s_frame s = f :: prev) ∧
  let d := view s (meta_mangled meta) in
  let base :=
    if is_set (meta_flags meta) DWARF_CONSTANT then sym_qualified d
    else sym_type d in
  ∃ s' decl file ty,
    symbols_local meta is_arg s = Ok (tt, s') ∧ wf s' ∧
    s_declares s' = s_declares s ++ [decl] ∧
    decl_storage decl = meta_storage meta ∧
    node s' (decl_variable decl) = Some
      (DILocalVariable
         (if is_arg then DW_TAG_arg_variable else DW_TAG_auto_variable)
         (frame_scope f) (meta_name meta) file (cast_unsigned (meta_line meta))
         ty (if is_arg then cast_unsigned (meta_offset meta) else 0)) ∧
    node s' file = Some (DIFile (meta_file meta)) ∧
    (if is_set (meta_flags meta) DWARF_ARTIFICIAL
     then node s' ty = Some (DIArtificialType base) else ty = base) ∧
    node s' (decl_expression decl) = Some DIExpression ∧
    decl_location decl =
      DebugLoc_get (cast_unsigned (meta_line meta))
        (cast_unsigned (meta_pos meta)) (frame_scope f) ∧
    decl_anchor decl =
      match meta_inst meta with
      | LLVMNull => InsertAtEnd (meta_entry meta)
      | inst => InsertBefore (dyn_cast_Instruction inst)
      end ∧
    (∀ m, grows s s' m) ∧
    s_frame s' = s_frame s ∧ s_ir s' = s_ir s.
Proof.
  intros meta is_arg s f prev.
  assert (Hwf : wf s) by apply wf_after_method.
  assert (Hf : s_frame s = f :: prev) by (vm_compute; reflexivity).
  split; [split; [exact Hwf|exact Hf]|].
  apply (symbols_local_binding meta is_arg s f prev Hwf Hf).
Defined.


Lemma exec_cursor_effect_witness :
  let c := Package 4096 4104 in
  let s := after_method in
  let s' := match exec c s with Ok (_, s') => s' | Fault _ => s end in
  exec c s = Ok (tt, s') ∧
  s_release s' = s_release s ∧
  (s_unit s' ≠ s_unit s → ∃ path name, c = Package path name) ∧
  (s_declares s' ≠ s_declares s → ∃ meta is_arg, c = Local meta is_arg) ∧
  (s_ir s' ≠ s_ir s →
     (∃ line pos, c = Location line pos) ∨ ∃ disable, c = Reset_location disable).
Proof.
  intros c s s'.
  assert (E : exec c s = Ok (tt, s')) by (vm_compute; reflexivity).
  split; [exact E|]. exact (exec_cursor_effect c s s' E).
Defined.

Lemma exec_graph_extends_witness :
  let c := Field field_f in
  let s := after_method in
  let s' := match exec c s with Ok (_, s') => s' | Fault _ => s end in
  exec c s = Ok (tt, s') ∧
  (length (s_builder s) ≤ length (s_builder s'))%nat ∧
  ((∀ meta, c ≠ Composite meta) → ∃ new, s_builder s' = s_builder s ++ new).
Proof.
  intros c s s'.
  assert (E : exec c s = Ok (tt, s')) by (vm_compute; reflexivity).
  split; [exact E|]. exact (exec_graph_extends c s s' E).
Defined.

Lemma run_descriptors_stay_witness :
  let cs := [Basic (mk_meta name_I32 0 [] 32 2); Pointer decl_APtr] in
  let s := after_method in
  let s' := match run cs s with Ok (_, s') => s' | Fault _ => s end in
  let p := 0%nat in
  let d := default (blank_sym 0) (s_pool s !! p) in
  (run cs s = Ok (tt, s') ∧ s_pool s !! p = Some d) ∧
  ∃ d', s_pool s' !! p = Some d' ∧ sym_name d' = sym_name d.
Proof.
  intros cs s s' p d.
  assert (E : run cs s = Ok (tt, s')) by (vm_compute; reflexivity).
  assert (Hp : s_pool s !! p = Some d) by (vm_compute; reflexivity).
  split; [split; [exact E|exact Hp]|].
  exact (run_descriptors_stay cs s s' p d E Hp).
Defined.

Lemma run_frame_depth_witness :
  run in_method initial = Ok (tt, after_method) ∧
  (length (s_frame after_method) + pops in_method =
   length (s_frame initial) + pushes in_method)%nat.
Proof.
  split; [exact in_method_runs|].
  exact (run_frame_depth in_method initial after_method in_method_runs).
Defined.

Lemma exec_without_frame_witness :
  let c := Field field_f in
  (needs_frame c = true ∧ s_frame initial = []) ∧
  ∃ e, exec c initial = Fault e.
Proof.
  intros c. split; [split; reflexivity|].
  exact (exec_without_frame c initial eq_refl eq_refl).
Defined.

Lemma exec_outcome_witness :
  let block := Lexicalscope (mk_meta 0 0 [] 0 0) in
  let method := Method method_apply LLVMNull in
  (wf no_scope ∧ wf after_method) ∧
  exec block no_scope = Fault AssertionFailure ∧
  (∃ s', exec block in_block = Ok (tt, s') ∧ wf s') ∧
  (∃ s', exec method after_method = Ok (tt, s') ∧ wf s').
Proof.
  intros block method.
  assert (Hno : wf no_scope).
  { apply (reachable_wf (DebugLoc_get 0 0 MDNull) false
             [Push_frame None; Push_frame None]).
    vm_compute. reflexivity. }
  assert (Hin : wf in_block).
  { apply (reachable_wf (DebugLoc_get 0 0 MDNull) false
             (in_method ++ [Push_frame None])).
    vm_compute. reflexivity. }
  split; [split; [exact Hno|exact wf_after_method]|].
  split; [|split].
  - assert (Hf : failure block no_scope = Some AssertionFailure) by reflexivity.
    pose proof (exec_outcome block no_scope Hno) as Ho.
    rewrite Hf in Ho. exact Ho.
  - assert (Hf : failure block in_block = None) by (vm_compute; reflexivity).
    pose proof (exec_outcome block in_block Hin) as Ho.
    rewrite Hf in Ho. exact Ho.
  - assert (Hf : failure method after_method = None) by (vm_compute; reflexivity).
    pose proof (exec_outcome method after_method wf_after_method) as Ho.
    rewrite Hf in Ho. exact Ho.
Defined.

Lemma run_isolation_witness :
  let cs := [Basic (mk_meta name_I32 0 [] 32 2); Forward decl_A] in
  let s := after_method in
  let s' := match run cs s with Ok (_, s') => s' | Fault _ => s end in
  let m := name_APtr in
  (wf s ∧ run cs s = Ok (tt, s') ∧ (∀ c, c ∈ cs → defines c ≠ Some m)) ∧
  grows s s' m.
Proof.
  intros cs s s' m.
  assert (E : run cs s = Ok (tt, s')) by (vm_compute; reflexivity).
  assert (Hcs : ∀ c, c ∈ cs → defines c ≠ Some m).
  { intros c Hc. unfold cs in Hc.
    apply elem_of_cons in Hc as [->|Hc]; [vm_compute; discriminate|].
    apply elem_of_cons in Hc as [->|Hc]; [vm_compute; discriminate|].
    apply elem_of_nil in Hc. destruct Hc. }
  split; [split_and!; [exact wf_after_method|exact E|exact Hcs]|].
  exact (run_isolation cs s s' m wf_after_method E Hcs).
Defined.

Lemma reachable_registry_witness :
  let s := after_method in
  run in_method (symbols_init (DebugLoc_get 0 0 MDNull) false) = Ok (tt, s) ∧
  (∀ name p, s_map s !! name = Some p →
     ∃ d, s_pool s !! p = Some d ∧ sym_name d = name) ∧
  (∀ n1 n2 p, s_map s !! n1 = Some p → s_map s !! n2 = Some p → n1 = n2) ∧
  (∀ p d, s_pool s !! p = Some d → s_map s !! sym_name d = Some p).
Proof.
  intros s. split; [exact in_method_runs|].
  exact (reachable_registry (DebugLoc_get 0 0 MDNull) false in_method s
           in_method_runs).
Defined.

Lemma run_frames_nest_witness :
  let g := frame_A in
  let cs :=
    [Field field_f; Push_frame None; Location 3 1; Pop_frame; Location 4 1] in
  let s := after_method in
  let s' :=
    match run (Push_frame g :: cs ++ [Pop_frame]) s with
    | Ok (_, s') => s'
    | Fault _ => initial
    end in
  (balanced 0 cs = true ∧
   run (Push_frame g :: cs ++ [Pop_frame]) s = Ok (tt, s')) ∧
  s_frame s' = s_frame s.
Proof.
  intros g cs s s'.
  assert (E : run (Push_frame g :: cs ++ [Pop_frame]) s = Ok (tt, s'))
    by (vm_compute; reflexivity).
  split; [split; [reflexivity|exact E]|].
  exact (run_frames_nest g cs s s' eq_refl E).
Defined.

(** * Properties of error.c *)

Import error.

Section error_properties.

Lemma eqb_nl c : Byte.eqb c nl = true ↔ c = nl.
Proof. split; [apply byte_dec_bl | apply byte_dec_lb]. Qed.

Lemma nth_line_skip j text : nth_line j text = nth_line 0 (skip j text).
Proof.
  revert j. induction text as [|c text IH]; intros j; [done|].
  destruct j as [|j]; [done|]. cbn [nth_line skip].
  destruct (Byte.eqb c nl); apply IH.
Qed.

Lemma newlines_skip j text : newlines (skip j text) = (newlines text - j)%nat.
Proof.
  revert j. induction text as [|c text IH]; intros j; [done|].
  destruct j as [|j]; [cbn [skip]; lia|]. cbn [skip newlines].
  destruct (Byte.eqb c nl); rewrite IH; lia.
Qed.

Lemma skip_length j text : (length (skip j text) ≤ length text)%nat.
Proof.
  revert j. induction text as [|c text IH]; intros j; [done|].
  destruct j as [|j]; [done|]. cbn [skip length].
  destruct (Byte.eqb c nl); etrans; [apply IH|lia|apply IH|lia].
Qed.

Lemma skip_drop j text :
  skip j text = drop (length text - length (skip j text)) text.
Proof.
  revert j. induction text as [|c text IH]; intros j; [done|].
  destruct j as [|j].
  { cbn [skip]. by rewrite Nat.sub_diag. }
  cbn [skip length].
  destruct (Byte.eqb c nl).
  - pose proof (skip_length j text).
    replace (S (length text) - length (skip j text))%nat
      with (S (length text - length (skip j text))) by lia.
    apply IH.
  - pose proof (skip_length (S j) text).
    replace (S (length text) - length (skip (S j) text))%nat
      with (S (length text - length (skip (S j) text))) by lia.
    apply IH.
Qed.

Lemma first_line_prefix text :
  take (length (nth_line 0 text)) text = nth_line 0 text.
Proof.
  induction text as [|c text IH]; [done|]. cbn [nth_line].
  destruct (Byte.eqb c nl); [done|]. cbn. by rewrite IH.
Qed.

Lemma first_line_length text :
  (length (nth_line 0 text) ≤ length text)%nat.
Proof.
  induction text as [|c text IH]; [done|]. cbn [nth_line].
  destruct (Byte.eqb c nl); cbn; lia.
Qed.

Section source.
Variables (m : list byte) (len : nat) (line : N).
Hypothesis Hlen : (len ≤ length m)%nat.

Lemma text_lookup tpos c text :
  drop tpos (take len m) = c :: text →
  m !! tpos = Some c ∧ drop (S tpos) (take len m) = text ∧ (tpos < len)%nat.
Proof.
  intros Hd.
  assert (take len m !! tpos = Some c) as Hl.
  { rewrite <- (Nat.add_0_r tpos), <- lookup_drop, Hd. done. }
  split_and!.
  - rewrite lookup_take_Some in Hl. tauto.
  - rewrite (drop_S _ _ _ Hl) in Hd. by injection Hd.
  - apply lookup_lt_Some in Hl. rewrite length_take in Hl. lia.
Qed.

Lemma seek_line_skip n : ∀ tpos tline text,
  drop tpos (take len m) = text → (tpos + n = len)%nat →
  tline + N.of_nat n < 2 ^ 64 →
  seek_line m line tline tpos n =
    Ok (len - length (skip (N.to_nat (line - tline)) text))%nat.
Proof.
  induction n as [|n IH]; intros tpos tline text Hd Hn Hw.
  - rewrite drop_ge in Hd by (rewrite length_take; lia). subst text.
    cbn. f_equal. lia.
  - destruct text as [|c text].
    { apply (f_equal length) in Hd.
      rewrite length_drop, length_take in Hd. cbn in Hd. lia. }
    destruct (text_lookup _ _ _ Hd) as (Hc & Hd' & Hlt).
    assert (length (c :: text) = S n) as Hl.
    { rewrite <- Hd, length_drop, length_take. lia. }
    injection Hl as Hl.
    cbn [seek_line]. destruct (tline <? line) eqn:Ht.
    + apply N.ltb_lt in Ht. rewrite Hc.
      destruct (N.to_nat (line - tline)) as [|j] eqn:Ej; [lia|].
      cbn [skip]. destruct (Byte.eqb c nl).
      * assert (size_succ tline = tline + 1) as ->.
        { unfold size_succ. apply N.mod_small. lia. }
        rewrite (IH (S tpos) (tline + 1) text Hd') by lia.
        by replace (N.to_nat (line - (tline + 1))) with j by lia.
      * rewrite (IH (S tpos) tline text Hd') by lia.
        by rewrite Ej.
    + apply N.ltb_ge in Ht.
      replace (N.to_nat (line - tline)) with 0%nat by lia.
      cbn [skip length]. f_equal. lia.
Qed.

Lemma seek_eol_first_line n : ∀ tpos text,
  drop tpos (take len m) = text → (tpos + n = len)%nat →
  seek_eol m tpos n =
    if decide (0 < newlines text ∨ len < length m)%nat
    then Ok (tpos + length (nth_line 0 text))%nat
    else Fault OutOfBounds.
Proof.
  induction n as [|n IH]; intros tpos text Hd Hn.
  - rewrite drop_ge in Hd by (rewrite length_take; lia). subst text.
    cbn [newlines nth_line length].
    assert (tpos = len) as -> by lia.
    cbn [seek_eol]. case_decide as Hm.
    + destruct (lookup_lt_is_Some_2 m len) as [c Hc]; [lia|].
      rewrite Hc. rewrite Nat.add_0_r. by destruct (Byte.eqb c nl).
    + rewrite lookup_ge_None_2; [done|lia].
  - destruct text as [|c text].
    { apply (f_equal length) in Hd.
      rewrite length_drop, length_take in Hd. cbn in Hd. lia. }
    destruct (text_lookup _ _ _ Hd) as (Hc & Hd' & Hlt).
    cbn [seek_eol newlines nth_line]. rewrite Hc.
    destruct (Byte.eqb c nl).
    + rewrite decide_True by lia. cbn. by rewrite Nat.add_0_r.
    + rewrite (IH (S tpos) text Hd') by lia.
      destruct (decide _); [|done]. f_equal. cbn [length]. lia.
Qed.

End source.

(** X16: The line [make_errorv] quotes. With the text of [len] bytes inside the
    buffer and fewer than [2^64 - 1] bytes long, the quoted text for line
    [line >= 1] is line [line] of the text, cut to [LINE_LEN - 1] bytes
    and at the first terminator; a line after the last one is quoted as
    the empty string. The byte behind the text is read whenever the quoted
    line is not ended by a line end: when the buffer stops with the text,
    the read leaves the buffer. *)
Theorem source_line_outcome source line :
  let m := src_m source in
  let len := N.to_nat (src_len source) in
  let text := take len m in
  let k := (N.to_nat line - 1)%nat in
  (len ≤ length m)%nat → src_len source < 2 ^ 64 - 1 → line ≠ 0 →
  source_line source line =
    if decide (k < newlines text ∨ len < length m)%nat
    then Ok (c_str (take (LINE_LEN - 1) (nth_line k text)))
    else Fault OutOfBounds.
Proof.
  intros m len text k Hlen Hsize Hline. unfold source_line.
  fold m len.
  assert (Htext : length text = len).
  { unfold text. rewrite length_take. lia. }
  rewrite (seek_line_skip m len line Hlen len 0 1 text);
    [|done|done|lia].
  replace (N.to_nat (line - 1)) with k by lia.
  pose proof (skip_length k text) as Hk.
  set (rest := skip k text) in *.
  set (start := (len - length rest)%nat).
  assert (Hrest : drop start text = rest).
  { unfold start, rest. rewrite <- Htext. symmetry. apply skip_drop. }
  rewrite (seek_eol_first_line m len Hlen (len - start) start rest Hrest);
    [|unfold start; lia].
  pose proof (newlines_skip k text) as Hns. fold rest in Hns.
  destruct (decide (k < newlines text ∨ len < length m)%nat) as [Hd|Hd].
  2: { rewrite decide_False by lia. done. }
  rewrite decide_True by lia.
  cbv zeta. f_equal. f_equal.
  rewrite (nth_line_skip k text). fold rest.
  replace (start + length (nth_line 0 rest) - start)%nat
    with (length (nth_line 0 rest)) by lia.
  pose proof (first_line_length rest) as Hfl.
  assert (Hpre : ∀ l, (l ≤ length (nth_line 0 rest))%nat →
            take l (drop start m) = take l (nth_line 0 rest)).
  { intros l Hl. rewrite <- (first_line_prefix rest), take_take.
    rewrite Nat.min_l by done. rewrite <- Hrest. unfold text.
    assert (length rest = len - start)%nat as Hlr.
    { rewrite <- Hrest, length_drop. lia. }
    assert (drop start (take len m) = take (len - start) (drop start m)) as ->.
    { rewrite take_drop_commute. do 2 f_equal. unfold start. lia. }
    rewrite take_take, Nat.min_l by lia. done. }
  case_decide as Hcap.
  - apply Hpre. unfold LINE_LEN in *. lia.
  - rewrite Hpre by lia. rewrite !take_ge; [done|unfold LINE_LEN in *; lia|lia].
Qed.


Lemma c_str_length buf : (length (c_str buf) ≤ length buf)%nat.
Proof.
  induction buf as [|c buf IH]; [done|]. cbn [c_str].
  destruct (Byte.eqb c nul); cbn; lia.
Qed.

Lemma c_str_elem c buf : c ∈ c_str buf → c ∈ buf ∧ c ≠ nul.
Proof.
  induction buf as [|c0 buf IH]; [by intros ?%elem_of_nil|]. cbn [c_str].
  destruct (Byte.eqb c0 nul) eqn:E; [by intros ?%elem_of_nil|].
  apply eqb_false in E.
  intros [->|Hc]%elem_of_cons.
  - split; [by left|done].
  - destruct (IH Hc). split; [by right|done].
Qed.

Lemma vsnprintf_length size text :
  (0 < size)%nat → (length (vsnprintf size text) < size)%nat.
Proof.
  intros Hs. unfold vsnprintf.
  pose proof (c_str_length (take (size - 1) text)) as Hl.
  rewrite length_take in Hl. lia.
Qed.

Lemma seek_eol_inside m n : ∀ tpos e,
  seek_eol m tpos n = Ok e →
  (tpos ≤ e)%nat ∧ ∀ i, (tpos ≤ i < e)%nat → m !! i ≠ Some nl.
Proof.
  induction n as [|n IH]; intros tpos e; cbn [seek_eol].
  - destruct (m !! tpos) as [c|]; [|done].
    destruct (Byte.eqb c nl); intros [= <-]; split; (lia || intros; lia).
  - destruct (m !! tpos) as [c|] eqn:Hc; [|done].
    destruct (Byte.eqb c nl) eqn:E.
    + intros [= <-]. split; [lia|]. intros; lia.
    + intros [Hle Hin]%IH. split; [lia|]. intros i Hi.
      destruct (decide (i = tpos)) as [->|Hne].
      * rewrite Hc. intros [= ->]. by rewrite (byte_dec_lb eq_refl) in E.
      * apply Hin. lia.
Qed.

Lemma source_line_inside source line quoted :
  source_line source line = Ok quoted →
  (length quoted < LINE_LEN)%nat ∧ (nl ∉ quoted) ∧ (nul ∉ quoted).
Proof.
  unfold source_line.
  destruct (seek_line _ _ _ _ _) as [start|]; [|done].
  destruct (seek_eol _ _ _) as [tpos|] eqn:Heol; [|done].
  apply seek_eol_inside in Heol as [Hle Hin]. cbv zeta.
  intros [= <-].
  set (len := if decide _ then _ else _).
  assert (len < LINE_LEN ∧ len ≤ tpos - start)%nat as [Hcap Hlen].
  { unfold len, LINE_LEN. case_decide; lia. }
  split_and!.
  - pose proof (c_str_length (take len (drop start (src_m source)))) as Hl.
    rewrite length_take in Hl. lia.
  - intros [Hnl _]%c_str_elem.
    apply list_elem_of_lookup_1 in Hnl as [i Hi].
    apply lookup_take_Some in Hi as [Hi Hlt].
    rewrite lookup_drop in Hi. by apply (Hin (start + i)%nat); [lia|].
  - by intros [_ ?]%c_str_elem.
Qed.

Lemma make_errorv_quoted source line pos text e :
  make_errorv (Some source) line pos text = Ok e → line ≠ 0 →
  ∃ quoted,
    e_file e = src_file source ∧ e_line e = line ∧ e_pos e = pos ∧
    e_source e = Some quoted ∧ (length quoted < LINE_LEN)%nat.
Proof.
  unfold make_errorv. intros He Hline.
  apply N.eqb_neq in Hline. rewrite Hline in He. cbn [negb] in He.
  destruct (source_line source line) as [quoted|] eqn:Hq; [|done].
  injection He as <-. exists quoted. cbn. split_and!; try done.
  apply source_line_inside in Hq. tauto.
Qed.

(** X17: What [make_errorv] records: the position as given; the message cut to
    fewer than [LINE_LEN] bytes, without a terminator inside; a quoted line
    exactly when there is a source and the line is not 0, and then one of
    fewer than [LINE_LEN] bytes that holds neither a line end nor a
    terminator. *)
Theorem make_errorv_message source line pos text e :
  make_errorv source line pos text = Ok e →
  e_file e = source ≫= src_file ∧ e_line e = line ∧ e_pos e = pos ∧
  e_msg e = c_str (take (LINE_LEN - 1) text) ∧
  (length (e_msg e) < LINE_LEN)%nat ∧ (nul ∉ e_msg e) ∧
  (is_Some (e_source e) ↔ is_Some source ∧ line ≠ 0) ∧
  ∀ quoted, e_source e = Some quoted →
    (length quoted < LINE_LEN)%nat ∧ (nl ∉ quoted) ∧ (nul ∉ quoted).
Proof.
  unfold make_errorv. intros He.
  assert (Hmsg : (length (vsnprintf LINE_LEN text) < LINE_LEN)%nat)
    by (apply vsnprintf_length; unfold LINE_LEN; lia).
  assert (Hnul : nul ∉ vsnprintf LINE_LEN text)
    by (by intros [_ ?]%c_str_elem).
  destruct source as [source|]; cbn [mbind option_bind].
  - destruct (line =? 0) eqn:Hline; cbn [negb] in He.
    + apply N.eqb_eq in Hline. injection He as <-. cbn.
      split_and!; try done.
      split; [by intros [? [=]]|]. by intros [_ ?].
    + apply N.eqb_neq in Hline.
      destruct (source_line source line) as [quoted|] eqn:Hq; [|done].
      injection He as <-. cbn. split_and!; try done.
      intros ? [= <-]. by apply source_line_inside in Hq.
  - injection He as <-. cbn. split_and!; try done.
    split; [by intros [? [=]]|]. by intros [[? [=]] _].
Qed.

(** *** Printing *)

Lemma ebind_unfold {A B} (m : E A) (k : A → E B) s :
  (m ≫= k) s = match m s with Ok (a, s') => k a s' | Fault f => Fault f end.
Proof. reflexivity. Qed.

Lemma caret_pad_spec cells : ∀ n,
  caret_pad cells n =
    if decide (n ≤ N.of_nat (length cells))
    then Ok ((λ c, if Byte.eqb c tab then tab else space)
               <$> take (N.to_nat n) cells)
    else Fault OutOfBounds.
Proof.
  induction cells as [|c cells IH]; intros n; cbn [caret_pad].
  - destruct (n =? 0) eqn:Hn.
    + apply N.eqb_eq in Hn as ->. by rewrite decide_True by done.
    + apply N.eqb_neq in Hn. rewrite decide_False; [done|]. cbn. lia.
  - destruct (n =? 0) eqn:Hn.
    + apply N.eqb_eq in Hn as ->. by rewrite decide_True by lia.
    + apply N.eqb_neq in Hn. rewrite IH.
      destruct (N.to_nat n) as [|k] eqn:Ek; [lia|].
      replace (N.to_nat (n - 1)) with k by lia.
      destruct (decide (n - 1 ≤ N.of_nat (length cells))).
      * rewrite decide_True by (cbn [length]; lia). done.
      * rewrite decide_False by (cbn [length]; lia). done.
Qed.

Lemma with_stdout_twice a b s : with_stdout a (with_stdout b s) = with_stdout a s.
Proof. reflexivity. Qed.

Lemma prints_printf text : prints (printf text) text.
Proof. intros s. reflexivity. Qed.

Lemma prints_ret : prints (mret tt) [].
Proof. intros [? ? ? ? ?]. unfold mret, E_ret, with_stdout. cbn. by rewrite app_nil_r. Qed.

Lemma prints_bind m1 m2 o1 o2 :
  prints m1 o1 → prints m2 o2 → prints (m1;; m2) (o1 ++ o2).
Proof.
  intros H1 H2 s. rewrite ebind_unfold, H1, H2. cbn. by rewrite app_assoc.
Qed.

Lemma prints_lift {A} (r : result A) (k : A → E unit) a o :
  r = Ok a → prints (k a) o → prints (lift r ≫= k) o.
Proof. intros -> Hk s. rewrite ebind_unfold. cbn. apply Hk. Qed.

Lemma prints_then m o (k : E unit) s :
  prints m o → (m;; k) s = k (with_stdout (e_stdout s ++ o) s).
Proof. intros Hm. by rewrite ebind_unfold, Hm. Qed.

(** X18: The caret line. For a message that [make_errorv] made for line
    [line >= 1] of a source, [print_errormsg] writes the location and the
    message, the quoted line, and a third line that puts the caret in
    column [pos]: [pos - 1] blanks, a tab wherever the quoted line has one.
    This holds for [1 <= pos <= length + 2]; for [pos = 0], where [pos - 1]
    wraps around, and for a column further right, the loop reads past the
    terminator of the quoted line. *)
Theorem print_errormsg_caret source line pos text e indent s :
  make_errorv (Some source) line pos text = Ok e →
  line ≠ 0 → pos < 2 ^ 64 →
  ∃ quoted,
    e_source e = Some quoted ∧
    (1 ≤ pos ≤ N.of_nat (length quoted) + 2 →
     ∃ pad,
       print_errormsg e indent s = Ok (tt, with_stdout
         (e_stdout s ++
          match src_file source with
          | Some file =>
              indent ++ file ++ [":"]%byte ++ zu line ++ [":"]%byte ++ zu pos
                ++ [":"; " "]%byte
          | None => []
          end ++ e_msg e ++ [nl] ++
          indent ++ quoted ++ [nl] ++
          indent ++ pad ++ ["^"]%byte ++ [nl]) s) ∧
       length pad = (N.to_nat pos - 1)%nat ∧
       ∀ i c, pad !! i = Some c →
         (quoted !! i = Some tab → c = tab) ∧
         (quoted !! i ≠ Some tab → c = space)) ∧
    (pos = 0 ∨ N.of_nat (length quoted) + 2 < pos →
     print_errormsg e indent s = Fault OutOfBounds).
Proof.
  intros He Hline Hpos.
  destruct (make_errorv_quoted _ _ _ _ _ He Hline)
    as (quoted & Hfile & Hl & Hp & Hquoted & Hlen).
  exists quoted. split; [done|].
  unfold print_errormsg. rewrite Hfile, Hl, Hp, Hquoted.
  assert (negb (line =? 0) = true) as ->
    by (by apply negb_true_iff, N.eqb_neq).
  set (heading := match src_file source with Some _ => _ | None => [] end).
  assert (Hhead : prints
    (match src_file source with
     | Some file =>
         printf (indent ++ file ++ [":"]%byte);;
         printf (zu line ++ [":"]%byte ++ zu pos ++ [":"; " "]%byte)
     | None => mret tt
     end) heading).
  { unfold heading. destruct (src_file source) as [file|].
    - pose proof (prints_bind _ _ _ _
        (prints_printf (indent ++ file ++ [":"]%byte))
        (prints_printf (zu line ++ [":"]%byte ++ zu pos ++ [":"; " "]%byte)))
        as Hb.
      rewrite <- !app_assoc in Hb. exact Hb.
    - apply prints_ret. }
  unfold LINE_LEN in Hlen.
  split.
  - intros Hrange.
    assert (size_pred pos = pos - 1) as Hpred.
    { unfold size_pred.
      replace (pos + (2 ^ 64 - 1)) with (pos - 1 + 1 * 2 ^ 64) by lia.
      rewrite N.Div0.mod_add. apply N.mod_small. lia. }
    exists ((λ c, if Byte.eqb c tab then tab else space)
              <$> take (N.to_nat (pos - 1)) (quoted ++ [nul])).
    set (pad := _ <$> _).
    split_and!.
    + assert (Hall : prints
        (match src_file source with
         | Some file =>
             printf (indent ++ file ++ [":"]%byte);;
             printf (zu line ++ [":"]%byte ++ zu pos ++ [":"; " "]%byte)
         | None => mret tt
         end;;
         printf (e_msg e ++ [nl]);;
         printf (indent ++ quoted ++ [nl]);;
         printf indent;;
         pad ← lift (caret_pad (quoted ++ [nul]) (size_pred pos));
         printf pad;;
         printf (["^"]%byte ++ [nl]))
        (heading ++ (e_msg e ++ [nl]) ++ (indent ++ quoted ++ [nl]) ++ indent
           ++ pad ++ ["^"]%byte ++ [nl])).
      { repeat (apply prints_bind; [first [exact Hhead|apply prints_printf]|]).
        eapply prints_lift.
        - rewrite caret_pad_spec, length_app, Hpred. cbn [length].
          rewrite decide_True by lia. reflexivity.
        - apply prints_bind; apply prints_printf. }
      rewrite Hall. rewrite <- !app_assoc. reflexivity.
    + unfold pad. rewrite length_fmap, length_take, length_app. cbn [length].
      lia.
    + intros i c. unfold pad. rewrite list_lookup_fmap, lookup_take.
      case_decide as Hi; [|done].
      destruct (decide (i < length quoted)%nat) as [Hlt|Hge].
      * rewrite lookup_app_l by done.
        destruct (quoted !! i) as [q|] eqn:Eq; [|done]. cbn.
        intros [= <-]. destruct (Byte.eqb q tab) eqn:Et.
        -- apply byte_dec_bl in Et as ->. done.
        -- apply eqb_false in Et. split; [congruence|done].
      * rewrite lookup_app_r by lia.
        rewrite (lookup_ge_None_2 quoted) by lia.
        destruct (i - length quoted)%nat as [|k]; [|by destruct k]. cbn.
        by intros [= <-].
  - intros Hout.
    rewrite (prints_then _ _ _ _ Hhead).
    rewrite (prints_then _ _ _ _ (prints_printf _)).
    rewrite (prints_then _ _ _ _ (prints_printf _)).
    rewrite (prints_then _ _ _ _ (prints_printf _)).
    rewrite ebind_unfold. unfold lift.
    rewrite caret_pad_spec, length_app. cbn [length].
    rewrite decide_False; [done|].
    unfold size_pred. destruct Hout as [->|Hout].
    + rewrite N.add_0_l, N.mod_small by lia. lia.
    + replace (pos + (2 ^ 64 - 1)) with (pos - 1 + 1 * 2 ^ 64) by lia.
      rewrite N.Div0.mod_add, N.mod_small by lia. lia.
Qed.

(** *** Writers *)

Lemma with_stdout_id s : with_stdout (e_stdout s) s = s.
Proof. by destruct s. Qed.

Lemma writer_ret {A} (a : A) : writer (mret a).
Proof.
  intros s. unfold mret, E_ret. cbn. by rewrite app_nil_r, with_stdout_id.
Qed.

Lemma writer_printf text : writer (printf text).
Proof. intros s. reflexivity. Qed.

Lemma writer_crash {A} f : writer (crash f : E A).
Proof. intros s. reflexivity. Qed.

Lemma writer_lift {A} (r : result A) : writer (lift r).
Proof.
  intros s. unfold lift. destruct r; [|done]. cbn.
  by rewrite app_nil_r, with_stdout_id.
Qed.

Lemma writer_bind {A B} (m : E A) (k : A → E B) :
  writer m → (∀ a, writer (k a)) → writer (m ≫= k).
Proof.
  intros Hm Hk s. rewrite !ebind_unfold, (Hm s).
  destruct (m start) as [[a s0]|] eqn:E0; [|done].
  rewrite (Hk a (with_stdout _ s)), (Hk a s0).
  destruct (k a start) as [[b s1]|]; [|done]. cbn.
  pose proof (Hm start) as H0. rewrite E0 in H0. injection H0 as H0.
  rewrite H0. cbn. by rewrite app_assoc.
Qed.

Ltac writer_tac :=
  repeat first
    [ apply writer_printf | apply writer_ret | apply writer_crash
    | apply writer_lift
    | apply writer_bind; [|intros ?]
    | match goal with
      | |- writer (match ?x with _ => _ end) => destruct x
      | |- writer (if ?b then _ else _) => destruct b
      end ].

Lemma writer_print_errormsg e indent : writer (print_errormsg e indent).
Proof. unfold print_errormsg. writer_tac. Qed.

Lemma writer_print_frame frame : writer (print_frame frame).
Proof.
  induction frame as [|p frame IH]; cbn [print_frame]; [apply writer_ret|].
  apply writer_bind; [apply writer_print_errormsg|by intros _].
Qed.

Lemma writer_print_error e : writer (print_error e).
Proof.
  unfold print_error. destruct e as [|e frame]; [apply writer_crash|].
  apply writer_bind; [apply writer_printf|intros _].
  apply writer_bind; [apply writer_print_errormsg|intros _].
  destruct frame; [apply writer_ret|].
  apply writer_bind; [apply writer_printf|intros _]. apply writer_print_frame.
Qed.

Lemma writer_print_each es : writer (print_each es).
Proof.
  induction es as [|e es IH]; cbn [print_each]; [apply writer_ret|].
  apply writer_bind; [apply writer_print_error|by intros _].
Qed.

Lemma print_error_render e s :
  print_error e s =
    match render e with
    | Ok out => Ok (tt, with_stdout (e_stdout s ++ out) s)
    | Fault f => Fault f
    end.
Proof.
  rewrite (writer_print_error e s). unfold render.
  by destruct (print_error e start) as [[[] s0]|].
Qed.

Lemma print_each_render es s :
  print_each es s =
    match render_all es with
    | Ok out => Ok (tt, with_stdout (e_stdout s ++ out) s)
    | Fault f => Fault f
    end.
Proof.
  rewrite (writer_print_each es s). unfold render_all.
  by destruct (print_each es start) as [[[] s0]|].
Qed.

Lemma render_all_nil : render_all [] = Ok [].
Proof. reflexivity. Qed.

Lemma render_all_app es e :
  render_all (es ++ [e]) =
    match render_all es, render e with
    | Ok out, Ok out' => Ok (out ++ out')
    | Fault f, _ => Fault f
    | Ok _, Fault f => Fault f
    end.
Proof.
  unfold render_all at 1.
  assert (∀ s, print_each (es ++ [e]) s =
    match print_each es s with
    | Ok (_, s1) => print_error e s1
    | Fault f => Fault f
    end) as ->.
  { induction es as [|e0 es IH]; intros s; cbn [app print_each].
    - rewrite ebind_unfold. unfold mret, E_ret.
      destruct (print_error e s) as [[[] s1]|]; done.
    - rewrite !ebind_unfold. destruct (print_error e0 s) as [[[] s1]|]; [|done].
      apply IH. }
  rewrite print_each_render. destruct (render_all es) as [out|]; [|done].
  rewrite print_error_render. destruct (render e) as [out'|]; [|done].
  cbn. done.
Qed.

(** *** The reporting calls in both modes *)

Lemma render_all_single e : render_all [e] = render e.
Proof.
  change [e] with ([] ++ [e]). rewrite (render_all_app [] e), render_all_nil.
  by destruct (render e).
Qed.

Lemma size_succ_length {A} (l : list A) (x : A) :
  size_succ (N.of_nat (length l) mod 2 ^ 64) =
  N.of_nat (length (l ++ [x])) mod 2 ^ 64.
Proof.
  unfold size_succ. rewrite length_app. cbn [length].
  replace (N.of_nat (length l + 1)) with (N.of_nat (length l) + 1) by lia.
  by rewrite N.Div0.add_mod_idemp_l.
Qed.

(** The state after a reporting call that added the errors [new], wrote
    [out] and left the frames as [frames]. *)
Lemma add_error_eq e s :
  e ≠ [] →
  add_error e s =
    match (if e_immediate s then render e else Ok []) with
    | Ok out =>
        Ok (tt, with_count (size_succ (e_count s))
                  (with_errors (e_errors s ++ [e])
                     (with_stdout (e_stdout s ++ out) s)))
    | Fault f => Fault f
    end.
Proof.
  intros He. unfold add_error. rewrite ebind_unfold. unfold gets at 1.
  cbv beta iota. rewrite ebind_unfold.
  destruct (e_immediate s) eqn:Hi.
  - rewrite print_error_render. destruct (render e) as [out|]; [|done].
    destruct e; [done|]. reflexivity.
  - destruct e; [done|]. unfold mret, E_ret. cbn.
    by rewrite app_nil_r, with_stdout_id.
Qed.

Lemma load_eq a v s : e_frames s !! a = Some v → load a s = Ok (v, s).
Proof. intros E. unfold load. by rewrite E. Qed.

Lemma load_None a s : e_frames s !! a = None → load a s = Fault InvalidPointer.
Proof. intros E. unfold load. by rewrite E. Qed.

Lemma store_eq a v v0 s :
  e_frames s !! a = Some v0 →
  store a v s = Ok (tt, with_frames (<[a := v]> (e_frames s)) s).
Proof. intros E. unfold store. by rewrite E. Qed.

Lemma append_to_frame_eq a head e s :
  e_frames s !! a = Some head →
  append_to_frame (Some a) e s =
    Ok (tt, with_frames (<[a := head ++ e]> (e_frames s)) s).
Proof.
  intros E. unfold append_to_frame. rewrite ebind_unfold. cbn [assert_frame].
  unfold mret at 1, E_ret at 1. cbv beta iota.
  rewrite ebind_unfold, (load_eq _ _ _ E).
  destruct head; by rewrite (store_eq _ _ _ _ E).
Qed.

Lemma append_to_frame_None a e s :
  e_frames s !! a = None →
  append_to_frame (Some a) e s = Fault InvalidPointer.
Proof.
  intros E. unfold append_to_frame. rewrite ebind_unfold. cbn [assert_frame].
  unfold mret at 1, E_ret at 1. cbv beta iota.
  by rewrite ebind_unfold, (load_None _ _ E).
Qed.

Lemma add_error_after e s :
  e ≠ [] →
  add_error e s =
    match (if e_immediate s then render_all [e] else Ok []) with
    | Ok out => Ok (tt, after [e] out (e_frames s) s)
    | Fault f => Fault f
    end.
Proof.
  intros He. rewrite add_error_eq by done. by rewrite render_all_single.
Qed.

Lemma quiet_after s frames :
  Ok (tt, with_frames frames s) =
    match (if e_immediate s then render_all [] else Ok []) with
    | Ok out => Ok (tt, after [] out frames s)
    | Fault f => Fault f
    end.
Proof.
  rewrite render_all_nil. unfold after, with_frames.
  destruct (e_immediate s); destruct s; cbn; by rewrite !app_nil_r.
Qed.

Lemma exec_reports c s :
  reports c = true →
  (∃ f, ∀ s1, e_frames s1 = e_frames s → exec c s1 = Fault f) ∨
  (∃ new frames, (length new ≤ 1)%nat ∧
     ∀ s1, e_frames s1 = e_frames s →
       exec c s1 =
         match (if e_immediate s1 then render_all new else Ok []) with
         | Ok out => Ok (tt, after new out frames s1)
         | Fault f => Fault f
         end).
Proof.
  intros Hc. destruct c; try discriminate Hc; cbn [exec].
  - (* errorv *)
    unfold errorv. destruct (make_errorv source line pos text) as [e|f].
    + right. exists [[e]], (e_frames s). split; [done|]. intros s1 Hfr.
      rewrite ebind_unfold. cbn [lift]. rewrite add_error_after by done.
      by rewrite Hfr.
    + left. exists f. intros s1 _. reflexivity.
  - (* errorfv *)
    right. exists [[make_errorfv file text]], (e_frames s). split; [done|].
    intros s1 Hfr. unfold errorfv. rewrite add_error_after by done.
    by rewrite Hfr.
  - (* a frame is declared *)
    right. exists [], (<[a := []]> (e_frames s)). split; [cbn; lia|].
    intros s1 Hfr. unfold modify. rewrite Hfr. apply quiet_after.
  - (* errorframev *)
    unfold errorframev. destruct frame as [a|].
    2: { left. exists AssertionFailure. intros s1 _. reflexivity. }
    destruct (make_errorv source line pos text) as [e|f].
    2: { left. exists f. intros s1 _. reflexivity. }
    destruct (e_frames s !! a) as [head|] eqn:Ea.
    + right. exists [], (<[a := head ++ [e]]> (e_frames s)).
      split; [cbn; lia|]. intros s1 Hfr.
      rewrite ebind_unfold. cbn [assert_frame]. unfold mret at 1, E_ret at 1.
      cbv beta iota. rewrite ebind_unfold. cbn [lift].
      rewrite (append_to_frame_eq a head) by (by rewrite Hfr).
      rewrite Hfr. apply quiet_after.
    + left. exists InvalidPointer. intros s1 Hfr.
      rewrite ebind_unfold. cbn [assert_frame]. unfold mret at 1, E_ret at 1.
      cbv beta iota. rewrite ebind_unfold. cbn [lift].
      apply append_to_frame_None. by rewrite Hfr.
  - (* errorframefv *)
    unfold errorframefv. destruct frame as [a|].
    2: { left. exists AssertionFailure. intros s1 _. reflexivity. }
    destruct (e_frames s !! a) as [head|] eqn:Ea.
    + right. exists [], (<[a := head ++ [make_errorfv file text]]> (e_frames s)).
      split; [cbn; lia|]. intros s1 Hfr.
      rewrite ebind_unfold. cbn [assert_frame]. unfold mret at 1, E_ret at 1.
      cbv beta iota.
      rewrite (append_to_frame_eq a head) by (by rewrite Hfr).
      rewrite Hfr. apply quiet_after.
    + left. exists InvalidPointer. intros s1 Hfr.
      rewrite ebind_unfold. cbn [assert_frame]. unfold mret at 1, E_ret at 1.
      cbv beta iota. apply append_to_frame_None. by rewrite Hfr.
  - (* errorframe_append *)
    unfold errorframe_append. destruct first as [a|].
    2: { left. exists AssertionFailure. intros s1 _. reflexivity. }
    destruct second as [b|].
    2: { left. exists AssertionFailure. intros s1 _. reflexivity. }
    destruct (e_frames s !! b) as [e|] eqn:Eb.
    2: { left. exists InvalidPointer. intros s1 Hfr.
         rewrite ebind_unfold. cbn [assert_frame]. unfold mret at 1, E_ret at 1.
         cbv beta iota. rewrite ebind_unfold. cbn [assert_frame].
         unfold mret at 1, E_ret at 1. cbv beta iota.
         rewrite ebind_unfold, load_None; [done|by rewrite Hfr]. }
    destruct (e_frames s !! a) as [head|] eqn:Ea.
    + right. exists [], (<[b := []]> (<[a := head ++ e]> (e_frames s))).
      split; [cbn; lia|]. intros s1 Hfr.
      rewrite ebind_unfold. cbn [assert_frame]. unfold mret at 1, E_ret at 1.
      cbv beta iota. rewrite ebind_unfold. cbn [assert_frame].
      unfold mret at 1, E_ret at 1. cbv beta iota.
      rewrite ebind_unfold, (load_eq b e) by (by rewrite Hfr).
      rewrite ebind_unfold, (append_to_frame_eq a head) by (by rewrite Hfr).
      assert (is_Some (<[a := head ++ e]> (e_frames s1) !! b)) as [v0 Hb].
      { rewrite Hfr. destruct (decide (a = b)) as [->|Hne].
        - rewrite lookup_insert_eq. by eexists.
        - rewrite lookup_insert_ne by done. by eexists. }
      rewrite (store_eq b [] v0) by exact Hb.
      cbn [e_frames with_frames]. rewrite Hfr.
      apply (quiet_after s1).
    + left. exists InvalidPointer. intros s1 Hfr.
      rewrite ebind_unfold. cbn [assert_frame]. unfold mret at 1, E_ret at 1.
      cbv beta iota. rewrite ebind_unfold. cbn [assert_frame].
      unfold mret at 1, E_ret at 1. cbv beta iota.
      rewrite ebind_unfold, (load_eq b e) by (by rewrite Hfr).
      rewrite ebind_unfold, append_to_frame_None; [done|by rewrite Hfr].
  - (* errorframe_report *)
    unfold errorframe_report. destruct frame as [a|].
    2: { left. exists AssertionFailure. intros s1 _. reflexivity. }
    destruct (e_frames s !! a) as [e|] eqn:Ea.
    2: { left. exists InvalidPointer. intros s1 Hfr.
         rewrite ebind_unfold. cbn [assert_frame]. unfold mret at 1, E_ret at 1.
         cbv beta iota. rewrite ebind_unfold, load_None; [done|by rewrite Hfr]. }
    right. destruct e as [|e0 e].
    + exists [], (<[a := []]> (e_frames s)). split; [cbn; lia|].
      intros s1 Hfr.
      rewrite ebind_unfold. cbn [assert_frame]. unfold mret at 1, E_ret at 1.
      cbv beta iota. rewrite ebind_unfold, (load_eq a []) by (by rewrite Hfr).
      rewrite ebind_unfold. unfold mret at 1, E_ret at 1. cbv beta iota.
      rewrite (store_eq a [] []) by (by rewrite Hfr).
      rewrite Hfr. apply quiet_after.
    + exists [e0 :: e], (<[a := []]> (e_frames s)). split; [done|].
      intros s1 Hfr.
      rewrite ebind_unfold. cbn [assert_frame]. unfold mret at 1, E_ret at 1.
      cbv beta iota. rewrite ebind_unfold, (load_eq a (e0 :: e)) by (by rewrite Hfr).
      rewrite ebind_unfold, add_error_after by done.
      destruct (if e_immediate s1 then render_all [e0 :: e] else Ok []) as [out|];
        [|done].
      rewrite (store_eq a [] (e0 :: e)) by (cbn; by rewrite Hfr).
      cbn. by rewrite Hfr.
  - (* errorframe_discard *)
    unfold errorframe_discard. destruct frame as [a|].
    2: { left. exists AssertionFailure. intros s1 _. reflexivity. }
    destruct (e_frames s !! a) as [e|] eqn:Ea.
    2: { left. exists InvalidPointer. intros s1 Hfr.
         rewrite ebind_unfold. cbn [assert_frame]. unfold mret at 1, E_ret at 1.
         cbv beta iota. rewrite ebind_unfold, load_None; [done|by rewrite Hfr]. }
    right. exists [], (<[a := []]> (e_frames s)). split; [cbn; lia|].
    intros s1 Hfr.
    rewrite ebind_unfold. cbn [assert_frame]. unfold mret at 1, E_ret at 1.
    cbv beta iota. rewrite ebind_unfold, (load_eq a e) by (by rewrite Hfr).
    rewrite (store_eq a [] e) by (by rewrite Hfr).
    rewrite Hfr. apply quiet_after.
Qed.

Lemma print_errors_eq s :
  print_errors s =
    if e_immediate s then Ok (tt, s)
    else
      match render_all (e_errors s) with
      | Ok out => Ok (tt, with_stdout (e_stdout s ++ out) s)
      | Fault f => Fault f
      end.
Proof.
  unfold print_errors. rewrite ebind_unfold. unfold gets at 1. cbv beta iota.
  destruct (e_immediate s); [done|].
  rewrite ebind_unfold. unfold gets. cbv beta iota. apply print_each_render.
Qed.

Lemma erun_cons c cs s :
  run (c :: cs) s =
    match exec c s with
    | Ok (_, s1) => run cs s1
    | Fault f => Fault f
    end.
Proof. cbn [run]. rewrite ebind_unfold. by destruct (exec c s) as [[[] s1]|]. Qed.

Lemma exec_count c s s' :
  exec c s = Ok (tt, s') →
  e_count s = N.of_nat (length (e_errors s)) mod 2 ^ 64 →
  e_count s' = N.of_nat (length (e_errors s')) mod 2 ^ 64.
Proof.
  intros He Hs. destruct (reports c) eqn:Hc.
  - destruct (exec_reports c s Hc) as [[f Hf]|(new & frames & Hn & Hx)].
    + rewrite Hf in He; done.
    + rewrite Hx in He by done.
      destruct (if e_immediate s then render_all new else Ok []) as [out|];
        [|done].
      injection He as <-. cbn.
      destruct new as [|e [|? ?]]; [|cbn in Hn|cbn in Hn; lia].
      * by rewrite app_nil_r.
      * rewrite Hs. apply size_succ_length.
  - destruct c; try discriminate Hc; cbn [exec] in He.
    + injection He as <-. done.
    + rewrite print_errors_eq in He. destruct (e_immediate s).
      * by injection He as <-.
      * destruct (render_all (e_errors s)); [|done]. by injection He as <-.
    + injection He as <-. done.
Qed.

(** X19: The counter and the list never disagree: after every run of calls
    from the state the program starts in, [get_error_count] answers with
    the length of the list of errors, as a [size_t]. *)
Theorem error_count cs s :
  run cs start = Ok (tt, s) →
  get_error_count s = Ok (N.of_nat (length (e_errors s)) mod 2 ^ 64, s).
Proof.
  intros Hrun. unfold get_error_count, gets. do 2 f_equal.
  assert (∀ s0, e_count s0 = N.of_nat (length (e_errors s0)) mod 2 ^ 64 →
            run cs s0 = Ok (tt, s) →
            e_count s = N.of_nat (length (e_errors s)) mod 2 ^ 64) as Hall.
  { clear Hrun. induction cs as [|c cs IH]; intros s0 H0.
    - by intros [= <-].
    - rewrite erun_cons. destruct (exec c s0) as [[[] s1]|] eqn:Hc; [|done].
      apply IH. by eapply exec_count. }
  by apply (Hall start).
Qed.

(** *** Immediate and deferred reporting *)

Lemma render_all_grow es new f :
  (length new ≤ 1)%nat → render_all es = Fault f →
  ∃ f', render_all (es ++ new) = Fault f'.
Proof.
  intros Hn Hes. destruct new as [|e [|? ?]]; [|cbn in Hn|cbn in Hn; lia].
  - rewrite app_nil_r. eauto.
  - rewrite render_all_app, Hes. eauto.
Qed.

Lemma run_unprintable cs : ∀ s f,
  forallb reports cs = true → e_immediate s = false →
  render_all (e_errors s) = Fault f →
  ∃ f', (run cs;; print_errors) s = Fault f'.
Proof.
  induction cs as [|c cs IH]; intros s f Hcs Hi Hr.
  - rewrite ebind_unfold. cbn [run]. unfold mret, E_ret.
    rewrite print_errors_eq, Hi, Hr. eauto.
  - cbn [forallb] in Hcs. apply andb_true_iff in Hcs as [Hc Hcs].
    rewrite ebind_unfold, erun_cons.
    destruct (exec_reports c s Hc) as [[f0 Hf]|(new & frames & Hn & Hx)].
    + rewrite Hf by done. eauto.
    + rewrite Hx, Hi by done.
      destruct (render_all_grow _ new _ Hn Hr) as [f' Hr'].
      destruct (IH (after new [] frames s) f' Hcs Hi Hr') as [f'' Hf''].
      rewrite ebind_unfold in Hf''. eauto.
Qed.

Lemma run_modes cs : ∀ si sd out,
  forallb reports cs = true →
  e_immediate si = true → e_immediate sd = false →
  e_errors si = e_errors sd → e_count si = e_count sd →
  e_frames si = e_frames sd →
  render_all (e_errors sd) = Ok out → e_stdout si = e_stdout sd ++ out →
  match run cs si, (run cs;; print_errors) sd with
  | Ok (_, s1), Ok (_, s2) =>
      e_stdout s1 = e_stdout s2 ∧ e_errors s1 = e_errors s2 ∧
      e_count s1 = e_count s2 ∧ e_frames s1 = e_frames s2
  | Fault _, Fault _ => True
  | _, _ => False
  end.
Proof.
  induction cs as [|c cs IH]; intros si sd out Hcs Hi Hd He Hn Hf Hr Ho.
  - rewrite ebind_unfold. cbn [run]. unfold mret, E_ret.
    rewrite print_errors_eq, Hd, Hr. cbn. done.
  - cbn [forallb] in Hcs. apply andb_true_iff in Hcs as [Hc Hcs].
    rewrite ebind_unfold, !erun_cons.
    destruct (exec_reports c sd Hc) as [[f0 Hx]|(new & frames & Hlen & Hx)].
    + rewrite (Hx si Hf), (Hx sd eq_refl). done.
    + rewrite (Hx si Hf), (Hx sd eq_refl), Hi, Hd.
      destruct (render_all new) as [o|f] eqn:Hnew.
      * specialize (IH (after new o frames si) (after new [] frames sd)
                      (out ++ o) Hcs Hi Hd).
        rewrite ebind_unfold in IH. apply IH; cbn.
        -- by rewrite He.
        -- by rewrite Hn.
        -- done.
        -- destruct new as [|e [|? ?]]; [|cbn in Hlen|cbn in Hlen; lia].
           ++ rewrite app_nil_r, Hr. rewrite render_all_nil in Hnew.
              injection Hnew as <-. by rewrite app_nil_r.
           ++ rewrite render_all_app, Hr. rewrite render_all_single in Hnew.
              by rewrite Hnew.
        -- by rewrite Ho, app_nil_r, app_assoc.
      * assert (∃ f', render_all (e_errors (after new [] frames sd)) = Fault f')
          as [f' Hf'].
        { cbn. destruct new as [|e [|? ?]]; [|cbn in Hlen|cbn in Hlen; lia].
          - by rewrite render_all_nil in Hnew.
          - rewrite render_all_app, Hr. rewrite render_all_single in Hnew.
            rewrite Hnew. eauto. }
        destruct (run_unprintable cs (after new [] frames sd) f' Hcs Hd Hf')
          as [f'' Hf''].
        rewrite ebind_unfold in Hf''. by rewrite Hf''.
Qed.

(** X20: Immediate reporting writes what deferred reporting writes at the end.
    For a run of reporting calls from a state without errors, run once
    after [error_set_immediate(true)] and once after
    [error_set_immediate(false)] and followed by [print_errors]: both fail,
    or both return with the same output, the same list of errors, the same
    count and the same frames. *)
Theorem immediate_deferred cs s :
  forallb reports cs = true → e_errors s = [] →
  match (error_set_immediate true;; run cs) s,
        (error_set_immediate false;; run cs;; print_errors) s with
  | Ok (_, s1), Ok (_, s2) =>
      e_stdout s1 = e_stdout s2 ∧ e_errors s1 = e_errors s2 ∧
      e_count s1 = e_count s2 ∧ e_frames s1 = e_frames s2
  | Fault _, Fault _ => True
  | _, _ => False
  end.
Proof.
  intros Hcs He.
  change ((error_set_immediate true;; run cs) s)
    with (run cs (with_immediate true s)).
  change ((error_set_immediate false;; run cs;; print_errors) s)
    with ((run cs;; print_errors) (with_immediate false s)).
  apply (run_modes cs _ _ []); try done.
  - cbn. by rewrite He.
  - cbn. by rewrite app_nil_r.
Qed.

(** *** Frames *)

Lemma assert_bind {A} a (k : N → E A) s :
  (assert_frame (Some a) ≫= k) s = k a s.
Proof. reflexivity. Qed.

Lemma errorframe_report_eq a e s :
  e_frames s !! a = Some e →
  errorframe_report (Some a) s =
    match e with
    | [] => Ok (tt, with_frames (<[a := []]> (e_frames s)) s)
    | _ =>
        match (if e_immediate s then render e else Ok []) with
        | Ok out =>
            Ok (tt, with_frames (<[a := []]> (e_frames s))
                      (with_count (size_succ (e_count s))
                         (with_errors (e_errors s ++ [e])
                            (with_stdout (e_stdout s ++ out) s))))
        | Fault f => Fault f
        end
    end.
Proof.
  intros Ha. unfold errorframe_report.
  rewrite assert_bind, ebind_unfold, (load_eq a e) by done.
  destruct e as [|e0 e].
  - rewrite ebind_unfold. unfold mret at 1, E_ret at 1. cbv beta iota.
    by rewrite (store_eq a [] []).
  - rewrite ebind_unfold, add_error_eq by done.
    destruct (if e_immediate s then render (e0 :: e) else Ok []) as [out|];
      [|done].
    by rewrite (store_eq a [] (e0 :: e)).
Qed.

(** X21: [errorframe_report] moves a frame into the list of errors, in
    either mode of reporting: a frame with messages becomes one error, made
    of all its messages in order, and the frame is left empty; an empty
    frame adds nothing and writes nothing. With immediate reporting the
    new error is written as [print_error] writes it, and when that fails
    the call fails. Reporting the same frame again is without effect. *)
Theorem errorframe_report_once a e s :
  e_frames s !! a = Some e →
  match (if e_immediate s && negb (bool_decide (e = [])) then render e
         else Ok []) with
  | Ok out =>
      ∃ s',
        errorframe_report (Some a) s = Ok (tt, s') ∧
        e_errors s' = e_errors s ++ (if decide (e = []) then [] else [e]) ∧
        e_count s' =
          (if decide (e = []) then e_count s else size_succ (e_count s)) ∧
        e_frames s' = <[a := []]> (e_frames s) ∧
        e_stdout s' = e_stdout s ++ out ∧
        e_immediate s' = e_immediate s ∧
        errorframe_report (Some a) s' = Ok (tt, s')
  | Fault f => errorframe_report (Some a) s = Fault f
  end.
Proof.
  intros Ha. rewrite (errorframe_report_eq a e s Ha).
  assert (∀ s0 : errors_t,
    errorframe_report (Some a) (with_frames (<[a := []]> (e_frames s)) s0) =
      Ok (tt, with_frames (<[a := []]> (e_frames s)) s0)) as Hagain.
  { intros s0. rewrite (errorframe_report_eq a []);
      [|cbn; by rewrite lookup_insert_eq].
    cbn. by rewrite insert_insert_eq. }
  destruct e as [|e0 e].
  - rewrite bool_decide_eq_true_2 by done. rewrite andb_false_r.
    eexists. split; [reflexivity|]. rewrite decide_True by done. cbn.
    rewrite !app_nil_r. split_and!; try done. by apply Hagain.
  - rewrite bool_decide_eq_false_2 by done. rewrite andb_true_r.
    destruct (if e_immediate s then render (e0 :: e) else Ok []) as [out|];
      [|done].
    eexists. split; [reflexivity|]. rewrite decide_False by done. cbn.
    split_and!; try done.
    by apply (Hagain (with_count _ (with_errors _ (with_stdout _ s)))).
Qed.

(** X22: [errorframe_append] moves the messages of the second frame behind
    those of the first and leaves the second empty; nothing is reported or
    written. When both pointers are the same frame, that frame ends up
    empty: its messages are lost. *)
Theorem errorframe_append_moves a b ea eb s :
  e_frames s !! a = Some ea → e_frames s !! b = Some eb →
  ∃ s',
    errorframe_append (Some a) (Some b) s = Ok (tt, s') ∧
    e_frames s' = <[b := []]> (<[a := ea ++ eb]> (e_frames s)) ∧
    e_frames s' !! b = Some [] ∧
    (a ≠ b → e_frames s' !! a = Some (ea ++ eb)) ∧
    e_errors s' = e_errors s ∧ e_count s' = e_count s ∧
    e_stdout s' = e_stdout s ∧ e_immediate s' = e_immediate s.
Proof.
  intros Ha Hb. unfold errorframe_append.
  rewrite assert_bind. cbv beta.
  rewrite assert_bind, ebind_unfold, (load_eq b eb) by done.
  rewrite ebind_unfold, (append_to_frame_eq a ea) by done.
  assert (is_Some (<[a := ea ++ eb]> (e_frames s) !! b)) as [v0 Hv].
  { destruct (decide (a = b)) as [->|Hne].
    - rewrite lookup_insert_eq. by eexists.
    - rewrite lookup_insert_ne by done. by eexists. }
  rewrite (store_eq b [] v0) by exact Hv.
  eexists. split; [reflexivity|]. cbn. split_and!; try done.
  - by rewrite lookup_insert_eq.
  - intros Hne. rewrite lookup_insert_ne by done. by rewrite lookup_insert_eq.
Qed.

Lemma erun_app cs1 cs2 s :
  run (cs1 ++ cs2) s =
    match run cs1 s with
    | Ok (_, s1) => run cs2 s1
    | Fault f => Fault f
    end.
Proof.
  revert s. induction cs1 as [|c cs1 IH]; intros s; [done|].
  cbn [app]. rewrite !erun_cons. destruct (exec c s) as [[[] s1]|]; [|done].
  apply IH.
Qed.

Lemma run_errorframef a file texts : ∀ s e,
  e_frames s !! a = Some e →
  run (Errorframef (Some a) file <$> texts) s =
    Ok (tt, with_frames
              (<[a := e ++ (make_errorfv file <$> texts)]> (e_frames s)) s).
Proof.
  induction texts as [|text texts IH]; intros s e Ha.
  - cbn. rewrite app_nil_r, insert_id by done. by destruct s.
  - cbn [fmap list_fmap]. rewrite erun_cons. cbn [exec]. unfold errorframefv.
    rewrite assert_bind, (append_to_frame_eq a e) by done.
    rewrite (IH _ (e ++ [make_errorfv file text]))
      by (cbn; by rewrite lookup_insert_eq).
    cbn. by rewrite insert_insert_eq, <- app_assoc.
Qed.

Lemma prints_eq m o o' : prints m o → o = o' → prints m o'.
Proof. by intros ? <-. Qed.

Lemma prints_file_line file text indent :
  prints (print_errormsg (make_errorfv file text) indent)
    (file_line indent file text).
Proof.
  eapply prints_eq.
  - unfold print_errormsg, make_errorfv.
    cbn [e_file e_line e_pos e_msg e_source N.eqb negb].
    repeat first [apply prints_bind | apply prints_printf | apply prints_ret].
  - unfold file_line. repeat rewrite app_nil_r. repeat rewrite <- app_assoc.
    reflexivity.
Qed.

Lemma prints_file_lines file texts :
  prints (print_frame (make_errorfv file <$> texts))
    (concat (file_line [" "; " "; " "; " "]%byte file <$> texts)).
Proof.
  induction texts as [|text texts IH]; cbn [fmap list_fmap print_frame concat].
  - apply prints_ret.
  - apply prints_bind; [apply prints_file_line|exact IH].
Qed.

Lemma render_file_report file text texts :
  render (make_errorfv file <$> text :: texts) = Ok (file_report file text texts).
Proof.
  assert (prints (print_error (make_errorfv file <$> text :: texts))
            (file_report file text texts)) as Hp.
  { destruct texts as [|text' texts]; eapply prints_eq.
    - cbn [fmap list_fmap print_error].
      apply prints_bind; [apply prints_printf|].
      apply prints_bind; [apply prints_file_line|apply prints_ret].
    - reflexivity.
    - cbn [fmap list_fmap print_error].
      apply prints_bind; [apply prints_printf|].
      apply prints_bind; [apply prints_file_line|].
      apply prints_bind; [apply prints_printf|].
      apply (prints_file_lines file (text' :: texts)).
    - reflexivity. }
  unfold render. by rewrite (Hp start).
Qed.

(** X23: A frame groups messages into one error, in either mode of
    reporting: a frame that is declared, given messages one by one and
    reported adds exactly one error, whose first message is the error and
    whose other messages, in the order they were given, are its
    informational lines; the frame is empty afterwards. Nothing is written
    before the report; with immediate reporting the report writes the
    error and, under [Info:], its informational lines. Yet
    [errorframe_has_errors] answers [true] for the empty frame, as it does
    for every frame: it compares the pointer, not the frame. *)
Theorem errorframe_groups a file text texts s :
  ∃ s',
    run (Frame a :: (Errorframef (Some a) file <$> text :: texts)
           ++ [Errorframe_report (Some a)]) s = Ok (tt, s') ∧
    e_errors s' = e_errors s ++ [make_errorfv file <$> text :: texts] ∧
    e_count s' = size_succ (e_count s) ∧
    e_frames s' = <[a := []]> (e_frames s) ∧
    e_immediate s' = e_immediate s ∧
    e_stdout s' =
      e_stdout s ++
      (if e_immediate s then file_report file text texts else []) ∧
    errorframe_has_errors (Some a) s' = Ok (true, s').
Proof.
  rewrite erun_cons. cbn [exec]. unfold modify at 1.
  rewrite erun_app.
  rewrite (run_errorframef a file (text :: texts) _ [])
    by (cbn; by rewrite lookup_insert_eq).
  rewrite erun_cons. cbn [exec].
  rewrite (errorframe_report_eq a (make_errorfv file <$> text :: texts))
    by (by cbn; rewrite ?lookup_insert_eq).
  pose proof (render_file_report file text texts) as Hr.
  cbn [fmap list_fmap app e_immediate with_frames] in Hr |- *. rewrite Hr.
  destruct (e_immediate s) eqn:Hi.
  - eexists. split; [reflexivity|]. cbn. rewrite Hi.
    split_and!; try done. by rewrite !insert_insert_eq.
  - eexists. split; [reflexivity|]. cbn. rewrite Hi.
    split_and!; try done. by rewrite !insert_insert_eq.
Qed.

(** *** The order of the report *)

(** X24: Errors are printed in the order they were reported: with deferred
    reporting, [print_errors] after [errorf] writes what it would have
    written before, followed by the new error, which for an error without
    position is [Error:], a line end, the file, a colon, a blank, the
    message and a line end. *)
Theorem errorfv_printed_last file text s out :
  e_immediate s = false → render_all (e_errors s) = Ok out →
  ∃ s',
    (errorfv file text;; print_errors) s = Ok (tt, s') ∧
    e_stdout s' =
      e_stdout s ++ out ++
      (["E"; "r"; "r"; "o"; "r"; ":"]%byte ++ [nl]) ++
      c_str file ++ [":"; " "]%byte ++ c_str (take (LINE_LEN - 1) text) ++ [nl] ∧
    e_errors s' = e_errors s ++ [[make_errorfv file text]] ∧
    e_count s' = size_succ (e_count s).
Proof.
  intros Hi Hout. rewrite ebind_unfold. unfold errorfv.
  rewrite add_error_eq, Hi by done.
  rewrite print_errors_eq. cbn [e_immediate with_count with_errors with_stdout
    e_errors e_stdout]. rewrite Hi.
  rewrite render_all_app, Hout.
  assert (render [make_errorfv file text] =
    Ok ((["E"; "r"; "r"; "o"; "r"; ":"]%byte ++ [nl]) ++
        c_str file ++ [":"; " "]%byte ++ c_str (take (LINE_LEN - 1) text)
          ++ [nl])) as ->.
  { assert (∃ o, prints (print_error [make_errorfv file text]) o ∧
      o = (["E"; "r"; "r"; "o"; "r"; ":"]%byte ++ [nl]) ++
          c_str file ++ [":"; " "]%byte ++ c_str (take (LINE_LEN - 1) text)
            ++ [nl]) as (o & Hp & ->).
    { eexists. split.
      - unfold print_error, print_errormsg, make_errorfv, vsnprintf.
        cbn [e_file e_line e_pos e_msg e_source N.eqb negb].
        repeat first [apply prints_bind | apply prints_printf | apply prints_ret].
      - cbn [app]. repeat rewrite app_nil_r. repeat rewrite <- app_assoc.
        reflexivity. }
    unfold render. rewrite (Hp start). reflexivity. }
  eexists. split; [reflexivity|]. cbn. rewrite app_nil_r.
  split_and!; done.
Qed.

End error_properties.

(** ** The properties of error.c on the scenario *)

Lemma source_line_outcome_witness :
  let source := two_lines in
  let line := 2 in
  ((N.to_nat (src_len source) ≤ length (src_m source))%nat ∧
   src_len source < 2 ^ 64 - 1 ∧ line ≠ 0) ∧
  source_line source line = Ok [x09; "c"; "d"]%byte.
Proof.
  intros source line.
  assert (H1 : (N.to_nat (src_len source) ≤ length (src_m source))%nat)
    by (vm_compute; lia).
  assert (H2 : src_len source < 2 ^ 64 - 1) by (vm_compute; reflexivity).
  assert (H3 : line ≠ 0) by discriminate.
  split; [split_and!; [exact H1|exact H2|exact H3]|].
  rewrite (source_line_outcome source line H1 H2 H3).
  vm_compute. reflexivity.
Defined.

Lemma make_errorv_message_witness :
  let source := Some two_lines in
  let line := 2 in
  let pos := 2 in
  let text := bad in
  let e :=
    match make_errorv source line pos text with
    | Ok e => e
    | Fault _ => no_message
    end in
  make_errorv source line pos text = Ok e ∧
  e_file e = source ≫= src_file ∧ e_line e = line ∧ e_pos e = pos ∧
  e_msg e = c_str (take (LINE_LEN - 1) text) ∧
  (length (e_msg e) < LINE_LEN)%nat ∧ (nul ∉ e_msg e) ∧
  (is_Some (e_source e) ↔ is_Some source ∧ line ≠ 0) ∧
  ∀ quoted, e_source e = Some quoted →
    (length quoted < LINE_LEN)%nat ∧ (nl ∉ quoted) ∧ (nul ∉ quoted).
Proof.
  intros source line pos text e.
  assert (He : make_errorv source line pos text = Ok e)
    by (vm_compute; reflexivity).
  split; [exact He|].
  exact (make_errorv_message source line pos text e He).
Defined.

Lemma print_errormsg_caret_witness :
  let source := two_lines in
  let line := 2 in
  let pos := 2 in
  let text := bad in
  let indent := [] in
  let s := start in
  let e :=
    match make_errorv (Some source) line pos text with
    | Ok e => e
    | Fault _ => no_message
    end in
  (make_errorv (Some source) line pos text = Ok e ∧ line ≠ 0 ∧ pos < 2 ^ 64) ∧
  ∃ quoted,
    e_source e = Some quoted ∧
    (1 ≤ pos ≤ N.of_nat (length quoted) + 2 →
     ∃ pad,
       print_errormsg e indent s = Ok (tt, with_stdout
         (e_stdout s ++
          match src_file source with
          | Some file =>
              indent ++ file ++ [":"]%byte ++ zu line ++ [":"]%byte ++ zu pos
                ++ [":"; " "]%byte
          | None => []
          end ++ e_msg e ++ [nl] ++
          indent ++ quoted ++ [nl] ++
          indent ++ pad ++ ["^"]%byte ++ [nl]) s) ∧
       length pad = (N.to_nat pos - 1)%nat ∧
       ∀ i c, pad !! i = Some c →
         (quoted !! i = Some tab → c = tab) ∧
         (quoted !! i ≠ Some tab → c = space)) ∧
    (pos = 0 ∨ N.of_nat (length quoted) + 2 < pos →
     print_errormsg e indent s = Fault OutOfBounds).
Proof.
  intros source line pos text indent s e.
  assert (He : make_errorv (Some source) line pos text = Ok e)
    by (vm_compute; reflexivity).
  assert (Hl : line ≠ 0) by discriminate.
  assert (Hp : pos < 2 ^ 64) by (vm_compute; reflexivity).
  split; [split_and!; [exact He|exact Hl|exact Hp]|].
  exact (print_errormsg_caret source line pos text e indent s He Hl Hp).
Defined.

Lemma error_count_witness :
  let cs :=
    three_reports ++
    [Set_immediate true; Errorf m_pony bad; Free_errors; Print_errors;
     Frame 2; Errorframef (Some 2) m_pony bad; Errorframe_report (Some 2);
     Set_immediate false; Error (Some two_lines) 1 1 bad] in
  let s := match run cs start with Ok (_, s) => s | Fault _ => start end in
  run cs start = Ok (tt, s) ∧
  get_error_count s = Ok (N.of_nat (length (e_errors s)) mod 2 ^ 64, s).
Proof.
  intros cs s.
  assert (Hrun : run cs start = Ok (tt, s)) by (vm_compute; reflexivity).
  split; [exact Hrun|]. exact (error_count cs s Hrun).
Defined.

Lemma immediate_deferred_witness :
  let cs := three_reports in
  let s := start in
  (forallb reports cs = true ∧ e_errors s = []) ∧
  match (error_set_immediate true;; run cs) s,
        (error_set_immediate false;; run cs;; print_errors) s with
  | Ok (_, s1), Ok (_, s2) =>
      e_stdout s1 = e_stdout s2 ∧ e_errors s1 = e_errors s2 ∧
      e_count s1 = e_count s2 ∧ e_frames s1 = e_frames s2
  | Fault _, Fault _ => True
  | _, _ => False
  end.
Proof.
  intros cs s. split; [split; reflexivity|].
  exact (immediate_deferred cs s eq_refl eq_refl).
Defined.

Lemma errorframe_report_once_witness :
  let a := 1 in
  let e := [make_errorfv m_pony bad] in
  let s := one_frame_immediate in
  let zero := default [] (e_frames column_zero_frame !! a) in
  (e_frames s !! a = Some e ∧ e_immediate s = true ∧
   e_frames column_zero_frame !! a = Some zero ∧
   e_immediate column_zero_frame = true) ∧
  (∃ s',
     errorframe_report (Some a) s = Ok (tt, s') ∧
     e_errors s' = e_errors s ++ (if decide (e = []) then [] else [e]) ∧
     e_count s' =
       (if decide (e = []) then e_count s else size_succ (e_count s)) ∧
     e_frames s' = <[a := []]> (e_frames s) ∧
     e_stdout s' = e_stdout s ++ file_report m_pony bad [] ∧
     e_immediate s' = e_immediate s ∧
     errorframe_report (Some a) s' = Ok (tt, s')) ∧
  errorframe_report (Some a) column_zero_frame = Fault OutOfBounds.
Proof.
  intros a e s zero.
  assert (Ha : e_frames s !! a = Some e) by (vm_compute; reflexivity).
  assert (Hz : e_frames column_zero_frame !! a = Some zero)
    by (vm_compute; reflexivity).
  split; [split_and!; [exact Ha|reflexivity|exact Hz|reflexivity]|].
  split.
  - pose proof (errorframe_report_once a e s Ha) as H.
    assert (Hr : (if e_immediate s && negb (bool_decide (e = []))
                  then render e else Ok []) = Ok (file_report m_pony bad []))
      by (vm_compute; reflexivity).
    rewrite Hr in H. exact H.
  - pose proof (errorframe_report_once a zero column_zero_frame Hz) as H.
    assert (Hr : (if e_immediate column_zero_frame
                     && negb (bool_decide (zero = []))
                  then render zero else Ok []) = Fault OutOfBounds)
      by (vm_compute; reflexivity).
    rewrite Hr in H. exact H.
Defined.

Lemma errorframe_append_moves_witness :
  let a := 1 in
  let b := 2 in
  let s := two_frames in
  let ea := default [] (e_frames s !! a) in
  let eb := default [] (e_frames s !! b) in
  (e_frames s !! a = Some ea ∧ e_frames s !! b = Some eb) ∧
  ∃ s',
    errorframe_append (Some a) (Some b) s = Ok (tt, s') ∧
    e_frames s' = <[b := []]> (<[a := ea ++ eb]> (e_frames s)) ∧
    e_frames s' !! b = Some [] ∧
    (a ≠ b → e_frames s' !! a = Some (ea ++ eb)) ∧
    e_errors s' = e_errors s ∧ e_count s' = e_count s ∧
    e_stdout s' = e_stdout s ∧ e_immediate s' = e_immediate s.
Proof.
  intros a b s ea eb.
  assert (Ha : e_frames s !! a = Some ea) by (vm_compute; reflexivity).
  assert (Hb : e_frames s !! b = Some eb) by (vm_compute; reflexivity).
  split; [split; [exact Ha|exact Hb]|].
  exact (errorframe_append_moves a b ea eb s Ha Hb).
Defined.

Lemma errorfv_printed_last_witness :
  let file := m_pony in
  let text := bad in
  let s :=
    match run [Errorf m_pony bad] start with
    | Ok (_, s) => s
    | Fault _ => start
    end in
  let out :=
    match render_all (e_errors s) with
    | Ok out => out
    | Fault _ => []
    end in
  (e_immediate s = false ∧ render_all (e_errors s) = Ok out) ∧
  ∃ s',
    (errorfv file text;; print_errors) s = Ok (tt, s') ∧
    e_stdout s' =
      e_stdout s ++ out ++
      (["E"; "r"; "r"; "o"; "r"; ":"]%byte ++ [nl]) ++
      c_str file ++ [":"; " "]%byte ++ c_str (take (LINE_LEN - 1) text) ++ [nl] ∧
    e_errors s' = e_errors s ++ [[make_errorfv file text]] ∧
    e_count s' = size_succ (e_count s).
Proof.
  intros file text s out.
  assert (Hi : e_immediate s = false) by (vm_compute; reflexivity).
  assert (Ho : render_all (e_errors s) = Ok out) by (vm_compute; reflexivity).
  split; [split; [exact Hi|exact Ho]|].
  exact (errorfv_printed_last file text s out Hi Ho).
Defined.
